(** * World stream of opencode-vibe: offsets, catch-up, tail and resume;
      the connection task; event routing; source merging; cursor store;
      world store.

    A shallow embedding of
    - [packages/core/src/world/stream.ts]      (catchUpEvents, tailEvents, resumeEvents),
    - [packages/core/src/world/sse.ts]         (WorldSSE.connectToServer, WorldSSE.handleEvent),
    - [packages/core/src/world/merged-stream.ts] (routeEventToStore, stream),
    - [packages/core/src/world/cursor-store.ts]  (makeCursorStore),
    and of the world store these modules write to; further of
    - [packages/core/src/world/sse.ts]         (discoverServers, verifyServer, the parser of connectToSSE),
    - [packages/core/src/world/stream.ts]      (handleSSEEvent and the async iterator of createWorldStream),
    - [packages/core/src/world/merged-stream.ts] (the consumer of the merged stream),
    - [packages/core/src/services/message-service.ts] (listWithParts),
    - [apps/swarm-cli/src/commands/watch.ts], [apps/swarm-cli/src/output.ts] (parseArgs, run, saveCursor, loadCursor),
    - [apps/swarm-cli/src/world-state.ts]      (adaptCoreWorldState, formatTimeAgo),
    - [apps/web/src/atoms/servers.ts]          (the server list and the current server). *)

From Stdlib Require Import ZArith NArith QArith Qround Qabs Lqa List Bool Ascii Lia Permutation Sorted.
From Stdlib Require String.
From stdpp Require Import gmap strings list fin_maps sorting.

Local Open Scope Z_scope.

(* ===================================================================== *)
(** * 1. JavaScript strings and numbers, as far as offsets need them      *)
(* ===================================================================== *)

Module Js.

(** A JavaScript number as the offset counter uses it: an integer or NaN.
    Integers are exact below 2^53, and so are [n++] and [parseInt] on
    them; every statement below about the value of a counter keeps it
    under that bound. *)
Inductive number := NaN | Num (z : Z).

Definition is_digit (c : ascii) : bool :=
  (48 <=? N_of_ascii c)%N && (N_of_ascii c <=? 57)%N.

Definition digit_val (c : ascii) : N := (N_of_ascii c - 48)%N.

Definition digit_char (d : N) : ascii := ascii_of_N (48 + d).

(** White space that [parseInt] and [trim] skip.  A character of a
    string stands for one code unit below 256; of StrWhiteSpaceChar
    these are TAB, LF, VT, FF, CR, the space and the no-break space
    U+00A0 (the others, U+FEFF, U+2028, U+2029 and the rest of category
    Zs, lie above 255). *)
Definition is_space (c : ascii) : bool :=
  let n := N_of_ascii c in
  ((9 <=? n)%N && (n <=? 13)%N) || (n =? 32)%N || (n =? 160)%N.

(** A string of ASCII characters only: every code unit below 128. *)
Fixpoint all_ascii (s : string) : bool :=
  match s with
  | EmptyString => true
  | String c r => (N_of_ascii c <? 128)%N && all_ascii r
  end.

Fixpoint skip_space (s : string) : string :=
  match s with
  | String c r => if is_space c then skip_space r else s
  | EmptyString => s
  end.

(** The value of the longest prefix of decimal digits; [None] when the
    prefix is empty. *)
Fixpoint digits_prefix (s : string) (acc : option N) : option N :=
  match s with
  | String c r =>
      if is_digit c
      then digits_prefix r (Some (10 * default 0%N acc + digit_val c)%N)
      else acc
  | EmptyString => acc
  end.

(** [Number.parseInt(s, 10)]. *)
Definition parseInt (s : string) : number :=
  let t := skip_space s in
  let '(neg, u) :=
    match t with
    | String "-"%char r => (true, r)
    | String "+"%char r => (false, r)
    | _ => (false, t)
    end in
  match digits_prefix u None with
  | None => NaN
  | Some v => Num (if neg then - Z.of_N v else Z.of_N v)
  end.

(** [n++] *)
Definition incr (n : number) : number :=
  match n with NaN => NaN | Num z => Num (z + 1) end.

Fixpoint decimal_aux (fuel : nat) (n : N) (acc : string) : string :=
  match fuel with
  | O => acc
  | S f =>
      let acc' := String (digit_char (n mod 10)) acc in
      if (n / 10 =? 0)%N then acc' else decimal_aux f (n / 10) acc'
  end.

(** Decimal numeral of a natural number, without leading zeros. *)
Definition decimal (n : N) : string :=
  decimal_aux (S (N.to_nat (N.log2 n))) n EmptyString.

(** [String(n)] for NaN and for integers (below 10^21 in absolute value,
    where JavaScript prints all digits). *)
Definition toString (n : number) : string :=
  match n with
  | NaN => "NaN"
  | Num z => if z <? 0 then String "-"%char (decimal (Z.to_N (- z)))
             else decimal (Z.to_N z)
  end.

Fixpoint replicate_char (k : nat) (c : ascii) : string :=
  match k with O => EmptyString | S k' => String c (replicate_char k' c) end.

(** [s.padStart(w, c)] for a one-character filler [c]. *)
Definition padStart (w : nat) (c : ascii) (s : string) : string :=
  if (w <=? String.length s)%nat then s
  else String.append (replicate_char (w - String.length s) c) s.

(** The number a string of decimal digits denotes, and whether a string
    consists of decimal digits only. *)
Fixpoint value_acc (s : string) (acc : N) : N :=
  match s with
  | EmptyString => acc
  | String c r => value_acc r (10 * acc + digit_val c)%N
  end.

Definition value (s : string) : N := value_acc s 0.

Fixpoint all_digits (s : string) : bool :=
  match s with
  | EmptyString => true
  | String c r => is_digit c && all_digits r
  end.

(** Truthiness of an optional string: [undefined] and [""] are falsy. *)
Definition truthy (o : option string) : bool :=
  match o with
  | None => false
  | Some s => negb (String.eqb s EmptyString)
  end.

(** [a || b] on optional strings. *)
Definition or_else (a b : option string) : option string :=
  if truthy a then a else b.

End Js.

(* ===================================================================== *)
(** * 2. The resumable cursor stream: [stream.ts]                         *)
(* ===================================================================== *)

(** [Session] of [types/domain.ts]. *)
Record Session := {
  session_id : string;
  session_title : string;
  session_directory : string;
  session_parentID : option string;
  session_created : Z;
  session_updated : Z;
  session_archived : option Z
}.

(** Session status after normalisation: a string of the internal
    vocabulary (["running"], ["completed"], ...). *)
Definition SessionStatus := string.

(** [EventOffset] is a branded string. *)
Definition EventOffset := string.

Section CursorStream.

(** The wire status of a backend and its normaliser come from
    [types/sessions.ts]; the properties of a live event are untyped. *)
Variable BackendSessionStatus : Type.
Variable normalizeBackendStatus : BackendSessionStatus -> SessionStatus.
Variable Properties : Type.

Inductive Payload :=
| PSession (id projectKey : string)            (* { id, projectKey } *)
| PStatus (id : string) (status : SessionStatus) (* { id, status } *)
| PLive (properties : Properties).             (* properties as any *)

Record WorldEvent := {
  we_type : string;
  we_offset : EventOffset;
  we_timestamp : Z;
  we_upToDate : bool;
  we_payload : Payload
}.

Record CatchUpResponse := {
  cr_events : list WorldEvent;
  cr_nextOffset : option EventOffset;
  cr_upToDate : bool
}.

(** What one discovered server answers to [session.list()] and
    [session.status()]; [data] may be missing in either response, and
    the status map is read in [Object.entries] order. *)
Record ServerView := {
  sv_port : Z;
  sv_directory : string;
  sv_sessions : option (list Session);
  sv_status : option (list (string * BackendSessionStatus))
}.

(** What one run of [catchUpEvents] observes: the servers discovered at
    that moment with their answers, and the clock, read once per event
    built ([now k] is the reading for the event pushed at index [k]). *)
Record Snapshot := {
  discovered : list ServerView;
  now : nat -> Z
}.

(** [offset ? Number.parseInt(offset, 10) : 0] *)
Definition startCounter (offset : option EventOffset) : Js.number :=
  match offset with
  | Some s => if Js.truthy offset then Js.parseInt s else Js.Num 0
  | None => Js.Num 0
  end.

(** [String(offsetCounter).padStart(10, "0")] *)
Definition formatOffset (c : Js.number) : EventOffset :=
  Js.padStart 10 "0"%char (Js.toString c).

(** The loop state of [catchUpEvents]: [events] and [offsetCounter]. *)
Record Acc := { acc_events : list WorldEvent; acc_counter : Js.number }.

Definition pushEvent (clock : nat -> Z) (ty : string) (p : Payload) (a : Acc) : Acc :=
  let c := Js.incr (acc_counter a) in
  {| acc_events :=
       acc_events a ++
       [ {| we_type := ty; we_offset := formatOffset c;
            we_timestamp := clock (length (acc_events a));
            we_upToDate := false; we_payload := p |} ];
     acc_counter := c |}.

(** The body of [for (const server of servers)]. *)
Definition catchUpServer (clock : nat -> Z) (a : Acc) (server : ServerView) : Acc :=
  let sessions := default [] (sv_sessions server) in
  let backendStatusMap := default [] (sv_status server) in
  let a1 :=
    fold_left
      (fun a session =>
         pushEvent clock "session.created"
           (PSession (session_id session) (sv_directory server)) a)
      sessions a in
  fold_left
    (fun a entry =>
       pushEvent clock "session.updated"
         (PStatus (fst entry) (normalizeBackendStatus (snd entry))) a)
    backendStatusMap a1.

Definition setUpToDate (e : WorldEvent) : WorldEvent :=
  {| we_type := we_type e; we_offset := we_offset e;
     we_timestamp := we_timestamp e; we_upToDate := true;
     we_payload := we_payload e |}.

(** [events[events.length - 1] = { ...lastEvent, upToDate: true }] *)
Definition markLast (events : list WorldEvent) : list WorldEvent :=
  match events !! (length events - 1)%nat with
  | Some lastEvent =>
      if (0 <? length events)%nat
      then <[ (length events - 1)%nat := setUpToDate lastEvent ]> events
      else events
  | None => events
  end.

Definition catchUpEvents (w : Snapshot) (offset : option EventOffset) : CatchUpResponse :=
  let servers := discovered w in
  if (length servers =? 0)%nat then
    {| cr_events := []; cr_nextOffset := None; cr_upToDate := true |}
  else
    let a :=
      fold_left (catchUpServer (now w))
        servers {| acc_events := []; acc_counter := startCounter offset |} in
    let events := markLast (acc_events a) in
    {| cr_events := events;
       cr_nextOffset :=
         if (0 <? length events)%nat
         then we_offset <$> events !! (length events - 1)%nat
         else None;
       cr_upToDate := true |}.

(** A live event as [MultiServerSSE] hands it to a subscriber. *)
Record GlobalEvent := {
  ge_directory : string;
  ge_type : string;
  ge_properties : Properties
}.

(** The filter of [tailEvents]: recognised type prefixes. *)
Definition recognised (ty : string) : bool :=
  String.prefix "session." ty || String.prefix "message." ty
  || String.prefix "part." ty.

(** The subscriber of [tailEvents], one live event at a time. *)
Definition tailStep (clock : nat -> Z) (a : Acc) (event : GlobalEvent) : Acc :=
  if negb (recognised (ge_type event)) then a
  else pushEvent clock (ge_type event) (PLive (ge_properties event)) a.

(** [tailEvents(offset)], observed on a finite run [live] of the feed:
    the events emitted, in order. *)
Definition tailEvents (clock : nat -> Z) (offset : option EventOffset)
    (live : list GlobalEvent) : list WorldEvent :=
  acc_events
    (fold_left (tailStep clock) live
       {| acc_events := []; acc_counter := startCounter offset |}).

(** [Stream.scan]: the initial state, then the state after each element. *)
Fixpoint scan {S A : Type} (f : S -> A -> S) (s : S) (l : list A) : list S :=
  s :: match l with [] => [] | x :: r => scan f (f s x) r end.

(** [resumeEvents(savedOffset)].  [Stream.fromEffect(catchUpEvents(..))]
    occurs twice in the source, so the catch-up query runs twice: once
    for the history ([w1]) and, when that stream is exhausted, once more
    for the offset the tail starts from ([w2]). *)
Definition resumeEvents (w1 w2 : Snapshot) (clock : nat -> Z)
    (savedOffset : option EventOffset) (live : list GlobalEvent) : list WorldEvent :=
  let catchUpStream := cr_events (catchUpEvents w1 savedOffset) in
  let liveStream :=
    tailEvents clock
      (Js.or_else (cr_nextOffset (catchUpEvents w2 savedOffset)) savedOffset) live in
  let scanned :=
    scan (fun (state : option EventOffset * option WorldEvent) event =>
            (Some (we_offset event), Some event))
         (savedOffset, None) (catchUpStream ++ liveStream) in
  omap snd scanned.

End CursorStream.

Arguments PSession {Properties} id projectKey.
Arguments PStatus {Properties} id status.
Arguments PLive {Properties} properties.
Arguments catchUpEvents {BackendSessionStatus} normalizeBackendStatus {Properties} w offset.
Arguments tailEvents {Properties} clock offset live.
Arguments resumeEvents {BackendSessionStatus} normalizeBackendStatus {Properties}
  w1 w2 clock savedOffset live.
Arguments formatOffset c : simpl never.

(** The offsets of [k] consecutive events built after the counter stood
    at [c]. *)
Fixpoint offsets_from (c : Js.number) (k : nat) : list EventOffset :=
  match k with
  | O => []
  | S k' => formatOffset (Js.incr c) :: offsets_from (Js.incr c) k'
  end.

(** A well-formed offset: ten decimal digits. *)
Definition ten_digits (s : EventOffset) : bool :=
  (String.length s =? 10)%nat && Js.all_digits s.

(** The number of events one server contributes to a catch-up, and the
    size of a batch. *)
Definition serverCount {B : Type} (server : ServerView B) : nat :=
  (length (default [] (sv_sessions B server))
   + length (default [] (sv_status B server)))%nat.

Definition batchSize {B : Type} (w : Snapshot B) : nat :=
  list_sum (List.map serverCount (discovered B w)).

(** The number of live events the tail lets through. *)
Definition liveCount {P : Type} (live : list (GlobalEvent P)) : nat :=
  length (List.filter (fun ev => recognised (ge_type P ev)) live).

(** An event that does not announce the end of a catch-up. *)
Definition quiet {P : Type} (e : WorldEvent P) : Prop := we_upToDate P e = false.

(* ===================================================================== *)
(** * 3. Reconnection: [WorldSSE.connectToServer] of [sse.ts]             *)
(* ===================================================================== *)

Module Sse.

(** [WorldSSEConfig] as the caller gives it, every field optional. *)
Record WorldSSEConfig := {
  serverUrl : option string;
  discoveryIntervalMs : option Z;
  autoReconnect : option bool;
  maxReconnectAttempts : option Z
}.

(** [Required<WorldSSEConfig>], the constructor's defaults filled in. *)
Record Config := {
  cfg_serverUrl : string;
  cfg_discoveryIntervalMs : Z;
  cfg_autoReconnect : bool;
  cfg_maxReconnectAttempts : Z
}.

Definition makeConfig (config : WorldSSEConfig) : Config :=
  {| cfg_serverUrl := default EmptyString (serverUrl config);
     cfg_discoveryIntervalMs := default 5000 (discoveryIntervalMs config);
     cfg_autoReconnect := default true (autoReconnect config);
     cfg_maxReconnectAttempts := default 10 (maxReconnectAttempts config) |}.

Definition defaultConfig : Config :=
  makeConfig {| serverUrl := None; discoveryIntervalMs := None;
                autoReconnect := None; maxReconnectAttempts := None |}.

(** What the environment does to one pass through the [try] block: the
    bootstrap fails; the bootstrap succeeds and the event stream later
    fails, or the handler of an event throws inside [Effect.sync]; the
    stream ends normally; or the generator's own code throws a
    JavaScript exception inside the block. *)
Inductive Outcome := BootstrapFailed | StreamFailed | StreamEnded | Threw.

(** One iteration as the environment drives it: the value of
    [this.running] at the loop head, and the outcome of the [try]. *)
Record Round := { running : bool; outcome : Outcome }.

(** What the connection task does, in order. *)
Inductive Step :=
| Connect            (* connectedPorts.add(port); bootstrapFromServer *)
| Streaming          (* bootstrap done, events flow to handleEvent    *)
| Dropped            (* catch: connectedPorts.delete(port)            *)
| Sleep (ms : Z)     (* Effect.sleep(delay)                           *)
| Settled            (* after the loop: port and fibre removed        *)
| Failed.            (* the fibre ends in failure, inside the block   *)

(** [Math.min(1000 * Math.pow(2, attempts), 30000)] *)
Definition backoffDelay (attempts : Z) : Z :=
  Z.min (1000 * 2 ^ attempts) 30000.

(** The [while] loop of [connectionEffect], started with [attempts].
    The bootstrap and the stream run under [yield*] in [Effect.gen]: an
    effect that fails, or dies, there fails the whole generator effect;
    it is not thrown into the generator, so the [catch] clause is not
    entered and nothing of the generator runs after it, the two lines
    behind the loop included.  The [catch] clause is entered by an
    exception of the generator's own code in the block.  The task stops
    being observed when the script of rounds is used up (it is then
    inside a [try] or a sleep). *)
Fixpoint connectionLoop (cfg : Config) (attempts : Z) (script : list Round) : list Step :=
  if negb (attempts <? cfg_maxReconnectAttempts cfg) then [Settled]
  else
    match script with
    | [] => []
    | r :: rest =>
        if negb (running r) then [Settled]
        else
          match outcome r with
          | StreamEnded => [Connect; Streaming; Settled]
          | BootstrapFailed => [Connect; Failed]
          | StreamFailed => [Connect; Streaming; Failed]
          | Threw =>
              let attempts' := attempts + 1 in
              if negb (cfg_autoReconnect cfg)
                 || (cfg_maxReconnectAttempts cfg <=? attempts')
              then [Connect; Dropped; Settled]
              else Connect :: Dropped :: Sleep (backoffDelay attempts')
                     :: connectionLoop cfg attempts' rest
          end
    end.

(** [connectToServer(port)] for a port without a running task:
    [let attempts = 0] and the loop. *)
Definition connectToServer (cfg : Config) (script : list Round) : list Step :=
  connectionLoop cfg 0 script.

Definition delays (t : list Step) : list Z :=
  omap (fun s => match s with Sleep d => Some d | _ => None end) t.

Definition connects (t : list Step) : nat :=
  length (List.filter (fun s => match s with Connect => true | _ => false end) t).

Definition is_settled (t : list Step) : bool :=
  match last t with Some Settled => true | _ => false end.

Definition is_failed (t : list Step) : bool :=
  match last t with Some Failed => true | _ => false end.

(** Whether the port is in [connectedPorts] after the steps [t]. *)
Fixpoint port_connected (t : list Step) (before : bool) : bool :=
  match t with
  | [] => before
  | Connect :: r => port_connected r true
  | (Dropped | Settled) :: r => port_connected r false
  | _ :: r => port_connected r before
  end.

(** A round that does not enter the [catch] clause. *)
Definition no_throw (r : Round) : Prop := outcome r <> Threw.

End Sse.

(* ===================================================================== *)
(** * 4. Routing events to the store                                      *)
(* ===================================================================== *)

Module Router.

(** An untyped event payload. *)
#[local] Unset Elimination Schemes.
Inductive Json :=
| JUndefined
| JNull
| JBool (b : bool)
| JNumber (z : Z)
| JString (s : string)
| JObject (fields : list (string * Json)).
#[local] Set Elimination Schemes.

Fixpoint lookup_field (k : string) (fields : list (string * Json)) : Json :=
  match fields with
  | [] => JUndefined
  | (k', v) :: r => if String.eqb k k' then v else lookup_field k r
  end.

Inductive Outcome (A : Type) := Returned (a : A) | Thrown.
Arguments Returned {A} a.
Arguments Thrown {A}.

(** [v.k]: a TypeError on [null] and [undefined]. *)
Definition get (v : Json) (k : string) : Outcome Json :=
  match v with
  | JUndefined | JNull => Thrown
  | JObject fields => Returned (lookup_field k fields)
  | _ => Returned JUndefined
  end.

(** [v?.k] *)
Definition get_opt (v : Json) (k : string) : Json :=
  match get v k with Returned x => x | Thrown => JUndefined end.

Definition truthy (v : Json) : bool :=
  match v with
  | JUndefined | JNull => false
  | JBool b => b
  | JNumber z => negb (z =? 0)
  | JString s => negb (String.eqb s EmptyString)
  | JObject _ => true
  end.

(** The calls a router makes, in order. *)
Inductive Call :=
| UpsertSession (session : Json)
| UpsertMessage (message : Json)
| UpsertPart (part : Json)
| UpdateStatus (sessionID status : Json)
| OnEvent (source type : string) (properties : Json).

Record SourceEvent := { source : string; type : string; data : Json }.

Definition is_one_of (ty : string) (names : list string) : bool :=
  existsb (String.eqb ty) names.

(** [routeEventToStore(event, store)] of [merged-stream.ts]. *)
Definition routeEventToStore (event : SourceEvent) : Outcome (list Call) :=
  let ty := type event in
  let data := data event in
  if is_one_of ty ["session.created"; "session.updated"] then
    Returned (if truthy (get_opt data "id") then [UpsertSession data] else [])
  else if is_one_of ty ["message.created"; "message.updated"] then
    Returned
      (if truthy (get_opt data "id") then
         UpsertMessage data ::
         (match get data "sessionID" with
          | Returned sid =>
              if truthy sid then [UpdateStatus sid (JString "running")] else []
          | Thrown => []
          end)
       else [])
  else if is_one_of ty ["part.created"; "part.updated"; "message.part.updated"] then
    match (if String.eqb ty "message.part.updated" then get data "part"
           else Returned data) with
    | Thrown => Thrown
    | Returned partData =>
        Returned
          (if truthy (get_opt partData "id") then
             UpsertPart partData ::
             (match get partData "sessionID" with
              | Returned sessionId =>
                  if truthy sessionId
                  then [UpdateStatus sessionId (JString "running")] else []
              | Thrown => []
              end)
           else [])
    end
  else if String.eqb ty "session.status" then
    match get data "sessionID", get data "status" with
    | Returned sessionID, Returned status =>
        Returned (if truthy sessionID && truthy status
                  then [UpdateStatus sessionID status] else [])
    | _, _ => Thrown
    end
  else Returned [].

Record SSEEvent := { sse_type : string; sse_properties : Json }.

(** [WorldSSE.handleEvent(event)] of [sse.ts]. *)
Definition handleEvent (event : SSEEvent) : Outcome (list Call) :=
  let ty := sse_type event in
  let properties := sse_properties event in
  let logged := OnEvent "sse" ty properties in
  if is_one_of ty ["session.created"; "session.updated"] then
    Returned (logged ::
              if truthy (get_opt properties "id") then [UpsertSession properties] else [])
  else if is_one_of ty ["message.created"; "message.updated"] then
    Returned (logged ::
              if truthy (get_opt properties "id") then [UpsertMessage properties] else [])
  else if is_one_of ty ["part.created"; "part.updated"] then
    Returned (logged ::
              if truthy (get_opt properties "id") then [UpsertPart properties] else [])
  else if String.eqb ty "session.status" then
    match get properties "sessionID", get properties "status" with
    | Returned sessionID, Returned status =>
        Returned (logged ::
                  if truthy sessionID && truthy status
                  then [UpdateStatus sessionID status] else [])
    | _, _ => Thrown
    end
  else Returned [logged].

(** The implicit liveness signal that follows an upsert. *)
Definition runningSignal (v : Json) : list Call :=
  if truthy (get_opt v "sessionID")
  then [UpdateStatus (get_opt v "sessionID") (JString "running")] else [].

Definition store_calls (cs : list Call) : list Call :=
  List.filter (fun c => match c with OnEvent _ _ _ => false | _ => true end) cs.

End Router.

(* ===================================================================== *)
(** * 5. Merging event sources: [stream()] of [merged-stream.ts]          *)
(* ===================================================================== *)

Module Merged.

(** How an effect ends: with a value, with a typed error, or with a
    defect (a thrown exception). *)
Inductive Exit (A : Type) := Success (a : A) | Failure | Die.
Arguments Success {A} a.
Arguments Failure {A}.
Arguments Die {A}.

Definition map {A B} (f : A -> B) (e : Exit A) : Exit B :=
  match e with Success a => Success (f a) | Failure => Failure | Die => Die end.

Definition catchAllDefect {A} (e : Exit A) (h : Exit A) : Exit A :=
  match e with Die => h | _ => e end.

Definition catchAll {A} (e : Exit A) (h : Exit A) : Exit A :=
  match e with Failure => h | _ => e end.

Definition flatMap {A B} (e : Exit A) (k : A -> Exit B) : Exit B :=
  match e with Success a => k a | Failure => Failure | Die => Die end.

(** [Effect.all]: every effect must succeed. *)
Fixpoint all {A} (es : list (Exit A)) : Exit (list A) :=
  match es with
  | [] => Success []
  | e :: r => flatMap e (fun a => map (cons a) (all r))
  end.

(** A stream run to its end: the events it delivers, and whether it
    then ends, fails with a typed error or dies of a defect. *)
Record Run (E : Type) := { events : list E; ending : Exit unit }.
Arguments events {E} _.
Arguments ending {E} _.

(** An [EventSource]: its name, its probe and its stream.  A call of
    [available()] returns an effect, which is taken to end, one way or
    the other, or throws; a call of [stream()] returns a stream or
    throws. *)
Record EventSource (E : Type) := {
  name : string;
  available : Router.Outcome (Exit bool);
  stream_of : Router.Outcome (Run E)
}.
Arguments name {E} _.
Arguments available {E} _.
Arguments stream_of {E} _.

(** A stream as [stream()] builds it. *)
Inductive Stream (E : Type) := Empty | MergeAll (streams : list (Run E)).
Arguments Empty {E}.
Arguments MergeAll {E} streams.

(** [array.map(f)] for an [f] that may throw: the first call that
    throws ends the map. *)
Fixpoint calls {A : Type} (results : list (Router.Outcome A)) : Router.Outcome (list A) :=
  match results with
  | [] => Router.Returned []
  | Router.Thrown :: _ => Router.Thrown
  | Router.Returned a :: rest =>
      match calls rest with
      | Router.Returned l => Router.Returned (a :: l)
      | Router.Thrown => Router.Thrown
      end
  end.

Section Stream.
Context {E : Type}.

(** [source.available().pipe(Effect.map(..), Effect.catchAllDefect(..),
    Effect.catchAll(..))]: the call of [available()] is made where the
    expression is evaluated, outside any effect. *)
Definition availabilityCheck (source : EventSource E)
  : Router.Outcome (Exit (EventSource E * bool)) :=
  match available source with
  | Router.Thrown => Router.Thrown
  | Router.Returned probe =>
      Router.Returned
        (catchAll
           (catchAllDefect
              (map (fun isAvailable => (source, isAvailable)) probe)
              (Success (source, false)))
           (Success (source, false)))
  end.

(** [stream()]: the checks are built when it is called, and an
    exception of [available()] leaves it; what it returns is
    [Stream.unwrap] of the effect below, in whose generator an
    exception of [source.stream()] is a defect. *)
Definition stream (sources : list (EventSource E)) : Router.Outcome (Exit (Stream E)) :=
  match calls (List.map availabilityCheck sources) with
  | Router.Thrown => Router.Thrown
  | Router.Returned availabilityChecks =>
      Router.Returned
        (flatMap (all availabilityChecks) (fun results =>
           let availableSources := List.map fst (List.filter snd results) in
           if (length availableSources =? 0)%nat then Success Empty
           else
             match calls (List.map stream_of availableSources) with
             | Router.Thrown => Die
             | Router.Returned streams => Success (MergeAll streams)
             end))
  end.

(** Any interleaving that keeps the order inside each list. *)
Inductive Interleaves : list (list E) -> list E -> Prop :=
| interleaves_done ss :
    Forall (fun s => s = []) ss -> Interleaves ss []
| interleaves_emit pre x s post out :
    Interleaves (pre ++ s :: post) out ->
    Interleaves (pre ++ (x :: s) :: post) (x :: out).

Definition ends_well (r : Run E) : Prop := ending r = Success tt.

(** [Stream.mergeAll] with unbounded concurrency: the streams run side
    by side, each delivering its events in order; the merged stream
    ends when all have ended, and it fails, or dies, as soon as one of
    them does, with what the others had left undelivered. *)
Inductive Merges : list (Run E) -> list E -> Exit unit -> Prop :=
| merges_done rs :
    Forall (fun r => events r = [] /\ ends_well r) rs -> Merges rs [] (Success tt)
| merges_emit pre x evs e post out exit :
    Merges (pre ++ {| events := evs; ending := e |} :: post) out exit ->
    Merges (pre ++ {| events := x :: evs; ending := e |} :: post) (x :: out) exit
| merges_halt pre r post :
    events r = [] -> ~ ends_well r -> Merges (pre ++ r :: post) [] (ending r).

(** What a consumer of the stream may see: the events, then the end. *)
Definition yields (st : Stream E) (out : list E) (exit : Exit unit) : Prop :=
  match st with
  | Empty => out = [] /\ exit = Success tt
  | MergeAll streams => Merges streams out exit
  end.



Definition is_available (source : EventSource E) : bool :=
  match available source with
  | Router.Returned (Success true) => true
  | _ => false
  end.

(** A source whose methods return when [stream()] calls them:
    [available()] always, and [stream()] if the source is available. *)
Definition answers (source : EventSource E) : Prop :=
  (exists probe, available source = Router.Returned probe)
  /\ (is_available source = true -> exists run, stream_of source = Router.Returned run).

(** The run of the stream of a source. *)
Definition run_of (source : EventSource E) : Run E :=
  match stream_of source with
  | Router.Returned run => run
  | Router.Thrown => {| events := []; ending := Die |}
  end.

End Stream.

End Merged.

(* ===================================================================== *)
(** * 6. The cursor store: [makeCursorStore] of [cursor-store.ts]         *)
(* ===================================================================== *)

Module CursorStore.

(** [StreamCursor] of [cursor.ts]; [timestamp] is a number of
    milliseconds, an integer (below 2^63 in absolute value, so that the
    INTEGER column stores it as an integer). *)
Record StreamCursor := {
  offset : EventOffset;
  timestamp : Z;
  projectKey : string
}.

(** A row of table [cursors]; [project_key] is UNIQUE and is the key of
    the map, the autoincrement [id] is never read. *)
Record Row := {
  row_offset : string;
  row_timestamp : Z;
  row_updated_at : Z
}.

Abbreviation Table := (gmap string Row).

(** Whether [client.execute] resolves or rejects. *)
Inductive IO := Resolves | Rejects.

(** [Effect.Effect<A, Error>] run to its end. *)
Inductive Result (A : Type) := Ok (a : A) | Err (message : string).
Arguments Ok {A} a.
Arguments Err {A} message.

(** [INSERT ... ON CONFLICT(project_key) DO UPDATE SET ...] *)
Definition upsert_row (unixepoch : Z) (cursor : StreamCursor) (db : Table) : Table :=
  <[ projectKey cursor :=
       {| row_offset := offset cursor; row_timestamp := timestamp cursor;
          row_updated_at := unixepoch |} ]> db.

(** [SELECT offset, timestamp, project_key FROM cursors WHERE project_key = ?] *)
Definition select_rows (key : string) (db : Table) : list (string * Row) :=
  match db !! key with Some r => [(key, r)] | None => [] end.

Definition saveCursor (io : IO) (unixepoch : Z) (cursor : StreamCursor) (db : Table)
  : Result unit * Table :=
  match io with
  | Resolves => (Ok tt, upsert_row unixepoch cursor db)
  | Rejects => (Err "Failed to save cursor", db)
  end.

(** [Number.isSafeInteger]: between -(2^53 - 1) and 2^53 - 1. *)
Definition safe_integer (z : Z) : bool := (- 2 ^ 53 <? z) && (z <? 2 ^ 53).

(** [loadCursor(projectKey)].  The client hands the INTEGER of a row
    over as a number, and [client.execute] rejects with a RangeError
    when that integer is not a safe one; [Effect.tryPromise] turns the
    rejection into the error of the effect. *)
Definition loadCursor (io : IO) (key : string) (db : Table)
  : Result (option StreamCursor) :=
  match io with
  | Resolves =>
      let rows := select_rows key db in
      if negb (forallb (fun r => safe_integer (row_timestamp (snd r))) rows)
      then Err "Failed to load cursor"
      else if (length rows =? 0)%nat then Ok None
      else
        match rows !! 0%nat with
        | Some (k, row) =>
            Ok (Some {| offset := row_offset row;
                        timestamp := row_timestamp row;
                        projectKey := k |})
        | None => Ok None
        end
  | Rejects => Err "Failed to load cursor"
  end.

Definition deleteCursor (io : IO) (key : string) (db : Table) : Result unit * Table :=
  match io with
  | Resolves => (Ok tt, delete key db)
  | Rejects => (Err "Failed to delete cursor", db)
  end.

(** A history of successful writes, applied to a table. *)
Inductive Mutation := Save (unixepoch : Z) (cursor : StreamCursor) | Delete (key : string).

Definition apply_write (db : Table) (w : Mutation) : Table :=
  match w with
  | Save t c => snd (saveCursor Resolves t c db)
  | Delete k => snd (deleteCursor Resolves k db)
  end.

Definition write_key (w : Mutation) : string :=
  match w with Save _ c => projectKey c | Delete k => k end.

(** A write whose timestamp, if it has one, is a safe integer. *)
Definition safe_write (w : Mutation) : Prop :=
  match w with Save _ c => safe_integer (timestamp c) = true | Delete _ => True end.

End CursorStore.

(* ===================================================================== *)
(** * 7. The world store                                                  *)
(* ===================================================================== *)

Module World.

(** [Message] of [types/domain.ts]; every token count may be absent. *)
Record Tokens := {
  input : option Z;
  output : option Z;
  reasoning : option Z;
  cache_read : option Z;
  cache_write : option Z
}.

Record Limits := { context : Z; output_limit : Z }.

Record Model := { model_name : string; limits : option Limits }.

Record MessageTime := { created : Z; completed : option Z }.

Record Message := {
  msg_id : string;
  msg_sessionID : string;
  msg_role : string;
  msg_parentID : option string;
  msg_time : option MessageTime;
  msg_finish : option string;
  msg_tokens : option Tokens;
  msg_agent : option string;
  msg_model : option Model
}.

(** [Part] of [types/domain.ts]. *)
Record Part := {
  part_id : string;
  part_sessionID : string;
  part_messageID : string;
  part_type : string;
  part_content : option string;
  part_text : option string;
  part_tool : option string;
  part_state_status : option string;
  part_time : option (Z * option Z)
}.

Inductive ConnectionStatus := disconnected | connecting | connected | error.

(** Order of identifiers: strings compared code unit by code unit. *)
Definition id_lt (a b : string) : Prop := String.compare a b = Lt.
Definition id_ltb (a b : string) : bool := String.ltb a b.
Definition id_leb (a b : string) : bool := String.leb a b.

Section SortedArray.
Context {A : Type} (key : A -> string).

Inductive Located := Found (i : nat) | Missing (i : nat).

(** Modelled from the spec: the binary search of the world store
    ([atoms.ts] is not among the sources); "binary-search locate by id"
    over the half-open range [lo, hi) of an array sorted ascending by id. *)
Fixpoint search (fuel : nat) (arr : list A) (id : string) (lo hi : nat) : Located :=
  match fuel with
  | O => Missing lo
  | S f =>
      if (hi <=? lo)%nat then Missing lo
      else
        let mid := ((lo + hi) / 2)%nat in
        match arr !! mid with
        | None => Missing lo
        | Some x =>
            match String.compare (key x) id with
            | Eq => Found mid
            | Lt => search f arr id (S mid) hi
            | Gt => search f arr id lo mid
            end
        end
  end.

Definition binarySearch (arr : list A) (id : string) : Located :=
  search (length arr) arr id 0 (length arr).

(** Modelled from the spec: upsert of the world store, "replace if
    found, else insert maintaining sort order". *)
Definition upsert (x : A) (arr : list A) : list A :=
  match binarySearch arr (key x) with
  | Found i => <[ i := x ]> arr
  | Missing i => take i arr ++ x :: drop i arr
  end.

Fixpoint insert_by (x : A) (l : list A) : list A :=
  match l with
  | [] => [x]
  | y :: r => if id_leb (key x) (key y) then x :: l else y :: insert_by x r
  end.

(** Modelled from the spec: the sort of bulk replace ("O(n) + sort"),
    ascending by id and stable. *)
Definition sortById (l : list A) : list A := fold_right insert_by [] l.

(** Ascending by id without repetition. *)
Definition ascending (l : list A) : Prop :=
  StronglySorted (fun a b => id_lt (key a) (key b)) l.

(** Upsert by a linear scan of an ascending array: the behaviour the
    binary search has to reproduce. *)
Fixpoint upsert_linear (x : A) (arr : list A) : list A :=
  match arr with
  | [] => [x]
  | y :: r =>
      match String.compare (key x) (key y) with
      | Lt => x :: arr
      | Eq => x :: r
      | Gt => y :: upsert_linear x r
      end
  end.

(** The entities other than those with the id of [x]. *)
Definition others (x : A) (l : list A) : list A :=
  List.filter (fun y => negb (String.eqb (key y) (key x))) l.

(** The final entities of a sequence of writes: each write supersedes
    the earlier ones with its id. *)
Definition final (writes : list A) : list A :=
  fold_left (fun acc x => others x acc ++ [x]) writes [].

End SortedArray.

(** Modelled from the spec: the raw data of the world store, "three
    id-sorted collections (sessions, messages, parts) and a status map",
    with the connection status. *)
Record WorldStore := {
  sessions : list Session;
  messages : list Message;
  parts : list Part;
  status : gmap string SessionStatus;
  connectionStatus : ConnectionStatus
}.

Definition empty : WorldStore :=
  {| sessions := []; messages := []; parts := []; status := ∅;
     connectionStatus := disconnected |}.

(** Modelled from the spec: the bulk replacements [setSessions],
    [setMessages], [setParts], [setStatus] and [setConnectionStatus]. *)
Definition setSessions (l : list Session) (st : WorldStore) : WorldStore :=
  {| sessions := sortById session_id l; messages := messages st; parts := parts st;
     status := status st; connectionStatus := connectionStatus st |}.

Definition setMessages (l : list Message) (st : WorldStore) : WorldStore :=
  {| sessions := sessions st; messages := sortById msg_id l; parts := parts st;
     status := status st; connectionStatus := connectionStatus st |}.

Definition setParts (l : list Part) (st : WorldStore) : WorldStore :=
  {| sessions := sessions st; messages := messages st; parts := sortById part_id l;
     status := status st; connectionStatus := connectionStatus st |}.

Definition setStatus (m : gmap string SessionStatus) (st : WorldStore) : WorldStore :=
  {| sessions := sessions st; messages := messages st; parts := parts st;
     status := m; connectionStatus := connectionStatus st |}.

Definition setConnectionStatus (c : ConnectionStatus) (st : WorldStore) : WorldStore :=
  {| sessions := sessions st; messages := messages st; parts := parts st;
     status := status st; connectionStatus := c |}.

(** Modelled from the spec: [upsertSession], [upsertMessage],
    [upsertPart] and [updateStatus] of the world store. *)
Definition upsertSession (s : Session) (st : WorldStore) : WorldStore :=
  {| sessions := upsert session_id s (sessions st); messages := messages st;
     parts := parts st; status := status st;
     connectionStatus := connectionStatus st |}.

Definition upsertMessage (m : Message) (st : WorldStore) : WorldStore :=
  {| sessions := sessions st; messages := upsert msg_id m (messages st);
     parts := parts st; status := status st;
     connectionStatus := connectionStatus st |}.

Definition upsertPart (p : Part) (st : WorldStore) : WorldStore :=
  {| sessions := sessions st; messages := messages st;
     parts := upsert part_id p (parts st); status := status st;
     connectionStatus := connectionStatus st |}.

Definition updateStatus (id : string) (s : SessionStatus) (st : WorldStore) : WorldStore :=
  {| sessions := sessions st; messages := messages st; parts := parts st;
     status := <[ id := s ]> (status st);
     connectionStatus := connectionStatus st |}.

(** The derived view. *)
Record EnrichedMessage := {
  em_message : Message;
  em_parts : list Part;
  em_isStreaming : bool
}.

Record EnrichedSession := {
  es_session : Session;
  es_status : SessionStatus;
  es_messages : list EnrichedMessage;
  es_isActive : bool;
  es_lastActivityAt : Z;
  es_contextUsagePercent : Q
}.

(** [WorldState] without [lastUpdated], a reading of the wall clock. *)
Record WorldState := {
  ws_sessions : list EnrichedSession;
  ws_activeSessionCount : nat;
  ws_activeSession : option EnrichedSession;
  ws_connectionStatus : ConnectionStatus
}.

Definition tokenTotal (t : Tokens) : Z :=
  default 0 (input t) + default 0 (output t) + default 0 (reasoning t)
  + default 0 (cache_read t) + default 0 (cache_write t).

(** [round(x, 2)] as the specification writes it: to the nearest
    hundredth, halves upwards. *)
Definition round2 (x : Q) : Q :=
  Qmake (Qfloor (Qplus (Qmult x (inject_Z 100)) (Qmake 1 2))) 100.

Definition contextLimit (m : Message) : option Z :=
  l ← (mo ← msg_model m; limits mo); Some (context l).

(** Modelled from the spec: the usage of one message, "token sum divided
    by its model's context limit", as a percentage.  The spec adds
    "rounded to 2 decimals"; the tests of the store expect 4, 3.25 and,
    within less than 0.005, 0.925 (1850 tokens of 200000), which a value
    rounded to two decimals does not meet: the percentage is taken
    exactly, as the tests' own sums do ("/ 200000 * 100 = 0.925%"). *)
Definition usageOf (m : Message) : Q :=
  match msg_tokens m, contextLimit m with
  | Some t, Some ctx =>
      if 0 <? ctx
      then Qdiv (Qmult (inject_Z 100) (inject_Z (tokenTotal t))) (inject_Z ctx)
      else inject_Z 0
  | _, _ => inject_Z 0
  end.

Definition isCompleted (m : Message) : bool :=
  match msg_time m with
  | Some t => bool_decide (is_Some (completed t))
  | None => false
  end.

Definition isAssistant (m : Message) : bool := String.eqb (msg_role m) "assistant".

Definition isCompletedAssistant (m : Message) : bool := isAssistant m && isCompleted m.

(** Modelled from the spec: [contextUsagePercent], "derived from the
    latest completed assistant message ...; 0 if no such message"; the
    messages of a session come in ascending id order, the latest is the
    last of them. *)
Definition contextUsagePercent (ms : list Message) : Q :=
  match last (List.filter isCompletedAssistant ms) with
  | Some m => usageOf m
  | None => inject_Z 0
  end.

(** Modelled from the spec: "isStreaming (true iff role is assistant and
    time.completed is absent)". *)
Definition isStreaming (m : Message) : bool := isAssistant m && negb (isCompleted m).

(** Modelled from the spec: the joins of the derived view, a message
    with the parts that name it and a session with the messages that
    name it; an entity whose parent is absent is joined with nothing. *)
Definition partsOf (ps : list Part) (m : Message) : list Part :=
  List.filter (fun p => String.eqb (part_messageID p) (msg_id m)) ps.

Definition messagesOf (ms : list Message) (s : Session) : list Message :=
  List.filter (fun m => String.eqb (msg_sessionID m) (session_id s)) ms.

Definition enrichMessage (ps : list Part) (m : Message) : EnrichedMessage :=
  {| em_message := m;
     em_parts := partsOf ps m;
     em_isStreaming := isStreaming m |}.

Definition messageCreated (m : Message) : Z :=
  match msg_time m with Some t => created t | None => 0 end.

(** Modelled from the spec: the recency key,
    "max(session.time.updated, max(message.time.created over its messages))". *)
Definition lastActivity (s : Session) (ms : list Message) : Z :=
  fold_right (fun m acc => Z.max (messageCreated m) acc) (session_updated s) ms.

Definition enrichSession (st : WorldStore) (s : Session) : EnrichedSession :=
  let ms := messagesOf (messages st) s in
  let st_ := default "completed" (status st !! session_id s) in
  {| es_session := s;
     es_status := st_;
     es_messages := List.map (enrichMessage (parts st)) ms;
     es_isActive := String.eqb st_ "running";
     es_lastActivityAt := lastActivity s ms;
     es_contextUsagePercent := contextUsagePercent ms |}.

(** Most recent activity first, ties by id ascending. *)
Definition precedes (a b : EnrichedSession) : bool :=
  (es_lastActivityAt b <? es_lastActivityAt a)
  || ((es_lastActivityAt a =? es_lastActivityAt b)
      && id_leb (session_id (es_session a)) (session_id (es_session b))).

Fixpoint insert_recent (x : EnrichedSession) (l : list EnrichedSession) :=
  match l with
  | [] => [x]
  | y :: r => if precedes x y then x :: l else y :: insert_recent x r
  end.

Definition sortByRecency (l : list EnrichedSession) : list EnrichedSession :=
  fold_right insert_recent [] l.

(** Modelled from the spec: the derived [WorldState], "a pure function
    of (sessions, messages, parts, status map)". *)
Definition deriveWorldState (st : WorldStore) : WorldState :=
  let enriched := sortByRecency (List.map (enrichSession st) (sessions st)) in
  {| ws_sessions := enriched;
     ws_activeSessionCount := length (List.filter es_isActive enriched);
     ws_activeSession := head (List.filter es_isActive enriched);
     ws_connectionStatus := connectionStatus st |}.

Definition getState (st : WorldStore) : WorldState := deriveWorldState st.

(** The mutations of the store as data, to speak of sequences of calls. *)
Inductive Op :=
| OpSession (s : Session)
| OpMessage (m : Message)
| OpPart (p : Part).

Definition apply (st : WorldStore) (o : Op) : WorldStore :=
  match o with
  | OpSession s => upsertSession s st
  | OpMessage m => upsertMessage m st
  | OpPart p => upsertPart p st
  end.

Definition run (ops : list Op) (st : WorldStore) : WorldStore :=
  fold_left apply ops st.

(** The entities of each kind that a sequence of calls writes, in order. *)
Definition writtenSessions (ops : list Op) : list Session :=
  omap (fun o => match o with OpSession s => Some s | _ => None end) ops.

Definition writtenMessages (ops : list Op) : list Message :=
  omap (fun o => match o with OpMessage m => Some m | _ => None end) ops.

Definition writtenParts (ops : list Op) : list Part :=
  omap (fun o => match o with OpPart p => Some p | _ => None end) ops.

(** Every collection ascending by id, without repeated ids. *)
Definition well_formed (st : WorldStore) : Prop :=
  ascending session_id (sessions st)
  /\ ascending msg_id (messages st)
  /\ ascending part_id (parts st).

(** Occurrences of the part with id [pid] in the enriched view. *)
Definition part_occurrences (pid : string) (ws : WorldState) : nat :=
  list_sum
    (List.map
       (fun es =>
          list_sum
            (List.map
               (fun em =>
                  length (List.filter (fun q => String.eqb pid (part_id q))
                            (em_parts em)))
               (es_messages es)))
       (ws_sessions ws)).

End World.

(* ===================================================================== *)
(** * Sample data                                                         *)
(* ===================================================================== *)

Module Sample.

Definition session (id : string) : Session :=
  {| session_id := id; session_title := "Test"; session_directory := "/test";
     session_parentID := None; session_created := 1000; session_updated := 1000;
     session_archived := None |}.

(** A backend whose statuses are already strings of the internal
    vocabulary. *)
Definition server (ss : list Session) (statuses : list (string * string))
  : ServerView string :=
  {| sv_port := 4096; sv_directory := "/test";
     sv_sessions := Some ss; sv_status := Some statuses |}.

Definition backend (ss : list Session) (statuses : list (string * string))
  : Snapshot string :=
  {| discovered := [server ss statuses]; now := fun _ => 1700000000000 |}.

Definition nobody : Snapshot string :=
  {| discovered := []; now := fun _ => 1700000000000 |}.

Definition live (ty : string) : GlobalEvent unit :=
  {| ge_directory := "/test"; ge_type := ty; ge_properties := tt |}.

Definition clock : nat -> Z := fun _ => 1700000000500.

Definition keep (s : string) : SessionStatus := s.

Definition round (o : Sse.Outcome) : Sse.Round :=
  {| Sse.running := true; Sse.outcome := o |}.

(** A server whose bootstrap fails at the first attempt and that would
    answer from then on; one whose stream fails after the bootstrap. *)
Definition failing_script : list Sse.Round :=
  [round Sse.BootstrapFailed; round Sse.StreamEnded; round Sse.StreamEnded].

Definition dropping_script : list Sse.Round :=
  [round Sse.StreamFailed; round Sse.StreamEnded; round Sse.StreamEnded].

(** A message and a part as a backend streams them. *)
Definition message_json : Router.Json :=
  Router.JObject [("id", Router.JString "msg-1");
                  ("sessionID", Router.JString "ses-1");
                  ("role", Router.JString "assistant")].

Definition part_json : Router.Json :=
  Router.JObject [("id", Router.JString "part-1");
                  ("sessionID", Router.JString "ses-1");
                  ("messageID", Router.JString "msg-1");
                  ("type", Router.JString "text")].

Definition wrapped_part_json : Router.Json :=
  Router.JObject [("part", part_json)].

Definition running_signal : Router.Call :=
  Router.UpdateStatus (Router.JString "ses-1") (Router.JString "running").

(** Sources: healthy ones, one whose probe dies, one whose probe fails,
    one that reports itself unavailable; then one that is available
    and whose stream fails after an event, and one whose [available()]
    throws when it is called. *)
Definition source_event (src ty : string) : Router.SourceEvent :=
  {| Router.source := src; Router.type := ty; Router.data := Router.JNull |}.

Definition healthy (n : string) (tys : list string) : Merged.EventSource Router.SourceEvent :=
  {| Merged.name := n; Merged.available := Router.Returned (Merged.Success true);
     Merged.stream_of :=
       Router.Returned {| Merged.events := List.map (source_event n) tys;
                          Merged.ending := Merged.Success tt |} |}.

Definition broken (n : string) (probe : Merged.Exit bool)
  : Merged.EventSource Router.SourceEvent :=
  {| Merged.name := n; Merged.available := Router.Returned probe;
     Merged.stream_of :=
       Router.Returned {| Merged.events := [source_event n "never"];
                          Merged.ending := Merged.Success tt |} |}.

Definition failing (n : string) (tys : list string) : Merged.EventSource Router.SourceEvent :=
  {| Merged.name := n; Merged.available := Router.Returned (Merged.Success true);
     Merged.stream_of :=
       Router.Returned {| Merged.events := List.map (source_event n) tys;
                          Merged.ending := Merged.Failure |} |}.


Definition mixed_sources : list (Merged.EventSource Router.SourceEvent) :=
  [healthy "swarm-db" ["a"; "b"]; broken "git" Merged.Die;
   broken "fs" Merged.Failure; broken "off" (Merged.Success false);
   healthy "log" ["c"]].

Definition sources_with_failing_stream : list (Merged.EventSource Router.SourceEvent) :=
  [healthy "swarm-db" ["a"; "b"]; failing "git" ["x"]].

(** Entities of the world store. *)
Definition tokens (i o : Z) (r cr cw : option Z) : World.Tokens :=
  {| World.input := Some i; World.output := Some o; World.reasoning := r;
     World.cache_read := cr; World.cache_write := cw |}.

Definition sonnet : World.Model :=
  {| World.model_name := "claude-4-sonnet";
     World.limits := Some {| World.context := 200000; World.output_limit := 16384 |} |}.

Definition message (id sid role : string) (done : option Z)
    (tk : option World.Tokens) : World.Message :=
  {| World.msg_id := id; World.msg_sessionID := sid; World.msg_role := role;
     World.msg_parentID := None;
     World.msg_time := Some {| World.created := 1000; World.completed := done |};
     World.msg_finish := None; World.msg_tokens := tk; World.msg_agent := None;
     World.msg_model := Some sonnet |}.

Definition part (id mid content : string) : World.Part :=
  {| World.part_id := id; World.part_sessionID := "ses-1";
     World.part_messageID := mid; World.part_type := "text";
     World.part_content := Some content; World.part_text := None;
     World.part_tool := None; World.part_state_status := None;
     World.part_time := None |}.

(** A part streamed three times, its message first streaming and then
    completed, and two sessions, written out of order. *)
Definition streamed_ops : list World.Op :=
  [World.OpPart (part "part-1" "msg-1" "H");
   World.OpMessage (message "msg-1" "ses-1" "assistant" None None);
   World.OpSession (session "ses-2");
   World.OpPart (part "part-1" "msg-1" "He");
   World.OpSession (session "ses-1");
   World.OpPart (part "part-0" "msg-1" "intro");
   World.OpPart (part "part-1" "msg-1" "Hello");
   World.OpMessage
     (message "msg-1" "ses-1" "assistant" (Some 2000)
        (Some (tokens 5000 500 None (Some 1000) (Some 0))))].

(** A store that holds a message of session ses-1 but not the session
    itself, and an unrelated session. *)
Definition store_without_session : World.WorldStore :=
  {| World.sessions := [session "ses-2"];
     World.messages := [message "msg-1" "ses-1" "assistant" None None];
     World.parts := [];
     World.status := ∅;
     World.connectionStatus := World.connected |}.



End Sample.

(* ===================================================================== *)
(** * 8. Server discovery: [discoverServers] and [verifyServer] of [sse.ts] *)
(* ===================================================================== *)

Module Discovery.

(** [s.split(sep)] for a one-character separator: the pieces between the
    separators, a single empty piece for the empty string. *)
Fixpoint split (sep : ascii) (s : string) : list string :=
  match s with
  | EmptyString => [EmptyString]
  | String c r =>
      if Ascii.eqb c sep then EmptyString :: split sep r
      else
        match split sep r with
        | piece :: rest => String c piece :: rest
        | [] => [String c EmptyString]
        end
  end.

Fixpoint trim_end (s : string) : string :=
  match s with
  | EmptyString => EmptyString
  | String c r =>
      match trim_end r with
      | EmptyString => if Js.is_space c then EmptyString else String c EmptyString
      | r' => String c r'
      end
  end.

(** [s.trim()], for the white space of [Js.is_space]. *)
Definition trim (s : string) : string := trim_end (Js.skip_space s).

(** [address.match(/:(\d+)$/)]: the search tries every position from the
    left; at a position the pattern matches when the character is a
    colon and what follows, up to the end, is one digit or more.  The
    result is the text of the group. *)
Fixpoint port_match (address : string) : option string :=
  match address with
  | EmptyString => None
  | String c r =>
      if Ascii.eqb c ":"%char && negb (String.eqb r EmptyString) && Js.all_digits r
      then Some r
      else port_match r
  end.

(** Equality of the elements of a [Set<number>] (SameValueZero). *)
Definition same_number (a b : Js.number) : bool :=
  match a, b with
  | Js.NaN, Js.NaN => true
  | Js.Num x, Js.Num y => x =? y
  | _, _ => false
  end.

(** A candidate; the numbers are read exactly, as [parseInt] does below
    2^53 (a port has five digits at most). *)
Record Candidate := { cand_port : Js.number; cand_pid : Js.number }.

(** The loop state: [candidates] and [seen]. *)
Record Scan := { candidates : list Candidate; seen : list Js.number }.

(** The body of [for (const line of result.trim().split("\n"))]. *)
Definition scanLine (st : Scan) (line : string) : Scan :=
  if negb (Js.truthy (Some line)) then st
  else
    match split " "%char line with
    | pid :: address :: _ =>
        match port_match address with
        | None => st
        | Some digits =>
            let port := Js.parseInt digits in
            if existsb (same_number port) (seen st) then st
            else
              {| candidates :=
                   candidates st ++ [ {| cand_port := port; cand_pid := Js.parseInt pid |} ];
                 seen := seen st ++ [port] |}
        end
    | _ => st
    end.

Definition parseCandidates (result : string) : list Candidate :=
  candidates
    (fold_left scanLine (split "010"%char (trim result)) {| candidates := []; seen := [] |}).

(** What [/project/current] answers, as [verifyServer] reads it. *)
Record Project := { worktree : option string }.

Inductive Body :=
| JsonRejected                         (* response.json() rejects   *)
| Parsed (project : option Project).   (* null, or an object        *)

Inductive Fetched :=
| FetchRejected                        (* fetch rejects or is aborted *)
| Response (ok : bool) (body : Body).

Record DiscoveredServer := {
  port : Js.number;
  pid : Js.number;
  directory : string
}.

(** [verifyServer(port, pid)]; a failed effect ends in [null] through
    the final [Effect.catchAll]. *)
Definition verifyServer (answer : Fetched) (port pid : Js.number)
  : option DiscoveredServer :=
  match answer with
  | FetchRejected => None
  | Response ok body =>
      if negb ok then None
      else
        match body with
        | JsonRejected => None
        | Parsed None => None
        | Parsed (Some project) =>
            match worktree project with
            | None => None
            | Some directory =>
                if negb (Js.truthy (Some directory))
                   || String.eqb directory "/"
                   || (String.length directory <=? 1)%nat
                then None
                else Some {| port := port; pid := pid; directory := directory |}
            end
        end
  end.

(** How the [lsof] pipeline ends: with an output (also when it exits
    with a code and [error.stdout] is defined, an undefined or empty
    one read as the empty string), or with an error without output. *)
Inductive Lsof := Stdout (stdout : string) | ExecFailed.

(** [discoverServers()]; [browser] is [typeof window !== "undefined"],
    [probe] what the server on a port answers. *)
Definition discoverServers (browser : bool) (lsof : Lsof)
    (probe : Js.number -> Fetched) : CursorStore.Result (list DiscoveredServer) :=
  if browser then CursorStore.Ok []
  else
    match lsof with
    | ExecFailed => CursorStore.Err "Discovery failed"
    | Stdout result =>
        CursorStore.Ok
          (omap (fun c => verifyServer (probe (cand_port c)) (cand_port c) (cand_pid c))
             (parseCandidates result))
    end.

(** A port read from a line is a number, not negative. *)
Definition is_port (p : Js.number) : Prop := exists z, p = Js.Num z /\ 0 <= z.

(** What the loop over the lines keeps true: [seen] holds the ports of
    the candidates, each once. *)
Definition scanned (st : Scan) : Prop :=
  seen st = cand_port <$> candidates st
  /\ NoDup (seen st)
  /\ Forall is_port (seen st).

End Discovery.

(* ===================================================================== *)
(** * 9. From the wire to the store: the parser of [connectToSSE], the
      handler of [createWorldStream], the consumer of the merged stream   *)
(* ===================================================================== *)

Module Wire.
Import Router.

(** The [onEvent] callback of the parser in [connectToSSE]: [parsed] is
    what [JSON.parse(event.data)] gives; the result is the event
    emitted, its [type] and [properties], if any.  The [try] block
    swallows a parse error and the TypeError of [data.payload] on
    [null]. *)
Definition onEvent (parsed : Outcome Json) : option (Json * Json) :=
  match parsed with
  | Thrown => None
  | Returned data =>
      match get data "payload" with
      | Thrown => None
      | Returned payload =>
          if truthy (get_opt payload "type") && truthy (get_opt payload "properties")
          then Some (get_opt payload "type", get_opt payload "properties")
          else None
      end
  end.

(** [handleSSEEvent(event)] of [createWorldStream] in [stream.ts], on
    [event.payload]. *)
Definition handleSSEEvent (event : SSEEvent) : Outcome (list Call) :=
  let ty := sse_type event in
  let properties := sse_properties event in
  if is_one_of ty ["session.created"; "session.updated"] then
    Returned [UpsertSession properties]
  else if is_one_of ty ["message.created"; "message.updated"] then
    Returned [UpsertMessage properties]
  else if is_one_of ty ["part.created"; "part.updated"] then
    Returned [UpsertPart properties]
  else if String.eqb ty "session.status" then
    match get properties "sessionID", get properties "status" with
    | Returned sessionID, Returned status => Returned [UpdateStatus sessionID status]
    | _, _ => Thrown
    end
  else Returned [].

(** [processEvent(event)] of [createSSEBridge] in [sse-bridge.ts], on
    [event.payload]: sessions and messages are read from
    [properties.info], parts from [properties.part]. *)
Definition processEvent (event : SSEEvent) : Outcome (list Call) :=
  let ty := sse_type event in
  let properties := sse_properties event in
  if is_one_of ty ["session.created"; "session.updated"] then
    match get properties "info" with
    | Returned session => Returned (if truthy session then [UpsertSession session] else [])
    | Thrown => Thrown
    end
  else if String.eqb ty "message.updated" then
    match get properties "info" with
    | Returned message => Returned (if truthy message then [UpsertMessage message] else [])
    | Thrown => Thrown
    end
  else if String.eqb ty "message.part.updated" then
    match get properties "part" with
    | Returned part => Returned (if truthy part then [UpsertPart part] else [])
    | Thrown => Thrown
    end
  else if String.eqb ty "session.status" then
    match get properties "sessionID", get properties "status" with
    | Returned sessionID, Returned status =>
        Returned (if truthy sessionID && truthy status
                  then [UpdateStatus sessionID status] else [])
    | _, _ => Thrown
    end
  else Returned [].

(** [typeof event.data === "object" && event.data !== null
     ? event.data : { raw: event.data }] *)
Definition propertiesOf (data : Json) : Json :=
  match data with
  | JObject _ => data
  | _ => JObject [("raw", data)]
  end.

(** The consumer of [createMergedWorldStream], on the events the merged
    stream delivers, in order: the calls made and how the effect of
    [Stream.runForEach] ends.  A throw inside [Effect.sync] is a defect;
    [onEvent] says whether the callback is configured, and a callback
    that is configured is taken to return. *)
Fixpoint runForEach (onEvent : bool) (events : list SourceEvent)
  : list Call * Merged.Exit unit :=
  match events with
  | [] => ([], Merged.Success tt)
  | event :: rest =>
      match routeEventToStore event with
      | Thrown => ([], Merged.Die)
      | Returned calls =>
          let logged :=
            if onEvent
            then [OnEvent (source event) (type event) (propertiesOf (data event))]
            else [] in
          let '(later, exit) := runForEach onEvent rest in
          (calls ++ logged ++ later, exit)
      end
  end.

(** [consumerEffect]: the run above under [Effect.catchAll(() =>
    Effect.void)], which recovers a failure and lets a defect pass.  The
    consumer is started when sources are configured; its promise is
    given a handler that ignores a rejection. *)
Definition consumerEffect (onEvent : bool) (events : list SourceEvent)
  : list Call * Merged.Exit unit :=
  let '(calls, exit) := runForEach onEvent events in
  (calls, Merged.catchAll exit (Merged.Success tt)).

(** The consumer on a run of the merged stream: the events delivered,
    then the end of the stream.  A stream that fails ends
    [Stream.runForEach] in failure, which [Effect.catchAll] recovers; a
    stream that dies ends it with the defect. *)
Definition consumer (onEvent : bool) (events : list SourceEvent)
    (ending : Merged.Exit unit) : list Call * Merged.Exit unit :=
  let '(calls, exit) := runForEach onEvent events in
  (calls,
   Merged.catchAll (Merged.flatMap exit (fun _ => ending)) (Merged.Success tt)).

(** The calls the router makes for an event and the log entry after
    them. *)
Definition routed (onEvent : bool) (event : SourceEvent) : list Call :=
  match routeEventToStore event with
  | Thrown => []
  | Returned calls =>
      calls ++ (if onEvent
                then [OnEvent (source event) (type event) (propertiesOf (data event))]
                else [])
  end.

Definition throws (event : SourceEvent) : bool :=
  match routeEventToStore event with Thrown => true | Returned _ => false end.

End Wire.

(* ===================================================================== *)
(** * 10. The async iterators of [stream.ts] and [merged-stream.ts]         *)
(* ===================================================================== *)

Module Iterator.
Section Iterator.
Context {S : Type}.

(** Where the generator stands between two turns of the event loop. *)
Inductive Mode :=
| NotStarted           (* next() was never called                             *)
| FirstYielding (current : S)
                       (* [stream.ts]: inside [yield store.getState()], the
                          state read is awaited, the call not yet answered    *)
| AtFirstYield         (* suspended at the first [yield]: no subscription yet *)
| Acquiring            (* [merged-stream.ts]: the scope is being made         *)
| Subscribed           (* [merged-stream.ts]: subscribed, not yet in the loop *)
| AtYield              (* at a [yield] of the loop                            *)
| Waiting              (* at [await new Promise(...)]: [resolveNext] is set   *)
| Resolved (state : S). (* the promise is resolved, the generator not resumed *)

(** [requests] counts the calls of [next()] that have no answer yet. *)
Record State := {
  mode : Mode;
  queue : list S;
  delivered : list S;
  requests : nat
}.

Definition initial : State :=
  {| mode := NotStarted; queue := []; delivered := []; requests := 0 |}.

(** What happens to the generator: the consumer calls [next()] (with it
    comes what [store.getState()] reads at that moment), the store
    notifies its subscribers, the job that resumes the generator after
    the promise runs, the job that ends the first [yield] runs; and, in
    [merged-stream.ts], the acquisition of the subscription runs and,
    later, the generator enters its loop. *)
Inductive Event :=
| Next (current : S)
| Notify (state : S)
| Resume
| Yielded
| Acquire
| Enter.

(** The loop of the generator with [r] requests to answer: a queued
    state answers a request; with the queue empty the generator sets
    [resolveNext] and waits. *)
Fixpoint loop (r : nat) (q : list S) (d : list S) : State :=
  match r with
  | O => {| mode := AtYield; queue := q; delivered := d; requests := 0 |}
  | Datatypes.S r' =>
      match q with
      | state :: rest => loop r' rest (d ++ [state])
      | [] => {| mode := Waiting; queue := []; delivered := d; requests := r |}
      end
  end.

(** [immediate] distinguishes the iterator of [stream.ts], which
    subscribes as soon as it leaves its first [yield], from the one of
    [merged-stream.ts], which then awaits a scope and the acquisition.

    A [yield] of an async generator awaits its value before it answers
    the call: a [next()] that comes meanwhile is queued, and when the
    [yield] ends with a call queued the generator goes on at once
    instead of being suspended.  For [stream.ts] the first [yield] is
    followed step by step, as the subscription is made where it ends;
    in [merged-stream.ts] the subscription is made by steps of its own,
    and the first [yield] is taken in one step.  So is a [yield] of the
    loop: while it is under way the callback of the subscription
    queues the states, as it does once the generator is suspended. *)
Definition step (immediate : bool) (st : State) (ev : Event) : State :=
  match mode st, ev with
  | NotStarted, Next current =>
      if immediate
      then {| mode := FirstYielding current; queue := queue st;
              delivered := delivered st; requests := 1 |}
      else {| mode := AtFirstYield; queue := queue st;
              delivered := delivered st ++ [current]; requests := 0 |}
  | FirstYielding current, Yielded =>
      match Nat.pred (requests st) with
      | O => {| mode := AtFirstYield; queue := queue st;
                delivered := delivered st ++ [current]; requests := 0 |}
      | r => (* a call is queued: queue = [], resolveNext = null,
                subscribe; the loop finds the queue empty and waits *)
          {| mode := Waiting; queue := []; delivered := delivered st ++ [current];
             requests := r |}
      end
  | AtFirstYield, Next _ =>
      if immediate
      then (* queue = [], resolveNext = null, subscribe; the loop finds
              the queue empty and waits *)
        {| mode := Waiting; queue := []; delivered := delivered st; requests := 1 |}
      else {| mode := Acquiring; queue := []; delivered := delivered st; requests := 1 |}
  | Acquiring, Acquire =>
      {| mode := Subscribed; queue := []; delivered := delivered st;
         requests := requests st |}
  | Subscribed, Enter => loop (requests st) (queue st) (delivered st)
  | AtYield, Next _ => loop 1 (queue st) (delivered st)
  | (FirstYielding _ | Acquiring | Subscribed | Waiting | Resolved _), Next _ =>
      {| mode := mode st; queue := queue st; delivered := delivered st;
         requests := Datatypes.S (requests st) |}
  | Waiting, Notify state =>
      (* resolveNext(state); resolveNext = null *)
      {| mode := Resolved state; queue := queue st; delivered := delivered st;
         requests := requests st |}
  | (Subscribed | AtYield | Resolved _), Notify state =>
      (* queue.push(state) *)
      {| mode := mode st; queue := queue st ++ [state]; delivered := delivered st;
         requests := requests st |}
  | Resolved state, Resume =>
      (* yield state, then the loop for the requests left *)
      loop (Nat.pred (requests st)) (queue st) (delivered st ++ [state])
  | _, _ => st
  end.

Definition run (immediate : bool) (events : list Event) (st : State) : State :=
  fold_left (step immediate) events st.

(** The states the generator holds and has not yet handed over. *)
Definition pending (st : State) : list S :=
  match mode st with
  | Resolved state => state :: queue st
  | _ => queue st
  end.

Definition notified (events : list Event) : list S :=
  omap (fun ev => match ev with Notify state => Some state | _ => None end) events.

Definition is_next (ev : Event) : bool :=
  match ev with Next _ => true | _ => false end.

Definition is_acquire (ev : Event) : bool :=
  match ev with Acquire => true | _ => false end.

Definition is_yielded (ev : Event) : bool :=
  match ev with Yielded => true | _ => false end.

(** Where the generator of [stream.ts] subscribes, after the first
    [next()]: at the next call of [next()] when the first [yield] has
    ended by then, and at the end of the first [yield] when [next()]
    was called again before it. *)
Definition subscribes_at (between : list Event) (trigger : Event) : Prop :=
  (Forall (fun ev => is_next ev = false) between
   /\ Exists (fun ev => is_yielded ev = true) between
   /\ is_next trigger = true)
  \/ (Forall (fun ev => is_yielded ev = false) between
      /\ Exists (fun ev => is_next ev = true) between
      /\ trigger = Yielded).

(** The generator has subscribed to the store; while it waits, its
    queue is empty. *)
Definition subscribed (st : State) : Prop :=
  match mode st with
  | NotStarted | FirstYielding _ | AtFirstYield | Acquiring => False
  | Waiting => queue st = []
  | _ => True
  end.

(** A generator that is suspended has no request to answer, one that is
    under way has one at least. *)
Definition accounted (st : State) : Prop :=
  match mode st with
  | NotStarted | AtFirstYield | AtYield => requests st = 0%nat
  | _ => (1 <= requests st)%nat
  end.

End Iterator.
Arguments Mode S : clear implicits.
Arguments State S : clear implicits.
Arguments Event S : clear implicits.
End Iterator.

(* ===================================================================== *)
(** * 11. The watch command: [watch.ts] and the cursor file of [output.ts] *)
(* ===================================================================== *)

Module Watch.

Record WatchOptions := {
  since : option string;
  cursorFile : option string
}.

Inductive Parsed := Options (options : WatchOptions) | Exited (code : Z).

(** [parseArgs(args)]: the loop over [args], [args[++i]] being the next
    argument or [undefined]; [--help] prints the help and leaves with
    [process.exit(0)]. *)
Fixpoint parseLoop (args : list string) (options : WatchOptions) : Parsed :=
  match args with
  | [] => Options options
  | arg :: rest =>
      if String.eqb arg "--since" then
        match rest with
        | value :: rest' =>
            parseLoop rest' {| since := Some value; cursorFile := cursorFile options |}
        | [] => Options {| since := None; cursorFile := cursorFile options |}
        end
      else if String.eqb arg "--cursor-file" then
        match rest with
        | value :: rest' =>
            parseLoop rest' {| since := since options; cursorFile := Some value |}
        | [] => Options {| since := since options; cursorFile := None |}
        end
      else if String.eqb arg "--help" || String.eqb arg "-h" then Exited 0
      else parseLoop rest options
  end.

Definition parseArgs (args : list string) : Parsed :=
  parseLoop args {| since := None; cursorFile := None |}.

(** The files of the working directory: a file that exists is readable
    or not. *)
Inductive File := Readable (content : string) | Unreadable.

Definition Files := gmap string File.

(** [loadCursor(cursorFile)] of [output.ts]: [null] when the file does
    not exist or cannot be read. *)
Definition loadCursor (cursorFile : string) (fs : Files) : option string :=
  match fs !! cursorFile with
  | None => None
  | Some (Readable content) => Some content
  | Some Unreadable => None
  end.

(** [saveCursor(cursorFile, cursor)] of [output.ts]: [writeFile]
    resolves, and the file then holds the cursor, or rejects. *)
Definition saveCursor (io : CursorStore.IO) (cursorFile cursor : string) (fs : Files)
  : Router.Outcome Files :=
  match io with
  | CursorStore.Resolves => Router.Returned (<[ cursorFile := Readable cursor ]> fs)
  | CursorStore.Rejects => Router.Thrown
  end.

(** The offset [run] resumes from. *)
Definition savedOffset (options : WatchOptions) (fs : Files) : option EventOffset :=
  if Js.truthy (cursorFile options) then
    let loaded := loadCursor (default EmptyString (cursorFile options)) fs in
    if Js.truthy loaded then loaded else None
  else if Js.truthy (since options) then since options
  else None.

(** The handler of [Stream.runForEach] in [run], event after event:
    the event is written out, then the cursor is saved if a cursor file
    is configured; a write that rejects fails the stream, and the
    command leaves with [process.exit(1)].  [writes k] is how the
    [k]-th write to the cursor file ends. *)
Section Run.
Context {P : Type}.

Record Ran := {
  written : list (WorldEvent P);
  files : Files;
  exitCode : option Z
}.

Fixpoint handleEvents (options : WatchOptions) (writes : nat -> CursorStore.IO)
    (k : nat) (events : list (WorldEvent P)) (out : list (WorldEvent P)) (fs : Files)
  : Ran :=
  match events with
  | [] => {| written := out; files := fs; exitCode := None |}
  | event :: rest =>
      if Js.truthy (cursorFile options) then
        match saveCursor (writes k) (default EmptyString (cursorFile options))
                (we_offset P event) fs with
        | Router.Returned fs' =>
            handleEvents options writes (S k) rest (out ++ [event]) fs'
        | Router.Thrown =>
            {| written := out ++ [event]; files := fs; exitCode := Some 1 |}
        end
      else handleEvents options writes k rest (out ++ [event]) fs
  end.

(** [run(context)] on the events that [resumeEvents(savedOffset)]
    delivers until the command is stopped. *)
Definition run {B : Type} (normalize : B -> SessionStatus) (args : list string)
    (fs : Files) (writes : nat -> CursorStore.IO)
    (w1 w2 : Snapshot B) (clock : nat -> Z) (live : list (GlobalEvent P)) : Ran :=
  match parseArgs args with
  | Exited code => {| written := []; files := fs; exitCode := Some code |}
  | Options options =>
      handleEvents options writes 0
        (resumeEvents normalize w1 w2 clock (savedOffset options fs) live) [] fs
  end.

End Run.
Arguments Ran P : clear implicits.

End Watch.

(* ===================================================================== *)
(** * 12. The project view of the command line: [world-state.ts]          *)
(* ===================================================================== *)

Module Cli.

(** The core [WorldState] as [adaptCoreWorldState] reads it. *)
Record CoreMessage := { cm_isStreaming : bool }.

Record CoreSession := {
  cs_id : string;
  cs_directory : string;
  cs_status : string;
  cs_messages : list CoreMessage;
  cs_lastActivityAt : Z;
  cs_isActive : bool
}.

Record CoreWorldState := {
  core_sessions : list CoreSession;
  core_lastUpdated : Z
}.

Inductive SessionStatus := active | idle | completed | unknown.

Record EnrichedSession := {
  id : string;
  projectKey : string;
  status : SessionStatus;
  messageCount : nat;
  lastActivityAt : Z;
  isStreaming : bool
}.

(** A number that may be [-Infinity], the value of [Math.max()] of no
    argument. *)
Inductive Ext := MinusInfinity | Finite (z : Z).

Record ProjectState := {
  ps_directory : string;
  ps_sessions : list EnrichedSession;
  ps_activeCount : nat;
  ps_totalMessages : nat;
  ps_lastActivityAt : Ext
}.

Record WorldState := {
  projects : list ProjectState;
  totalSessions : nat;
  activeSessions : nat;
  streamingSessions : nat;
  lastEventOffset : string;
  lastUpdated : Z
}.

Definition mapCoreStatusToCliStatus (coreStatus : string) : SessionStatus :=
  if String.eqb coreStatus "running" then active
  else if String.eqb coreStatus "completed" then completed
  else idle.

Definition cliSession (coreSession : CoreSession) : EnrichedSession :=
  {| id := cs_id coreSession;
     projectKey := cs_directory coreSession;
     status := mapCoreStatusToCliStatus (cs_status coreSession);
     messageCount := length (cs_messages coreSession);
     lastActivityAt := cs_lastActivityAt coreSession;
     isStreaming := existsb cm_isStreaming (cs_messages coreSession) |}.

(** [projectMap]: a [Map], its keys in the order of their first
    insertion.  [add] is [existing = get(k) || []; existing.push(s);
    set(k, existing)]. *)
Fixpoint add (directory : string) (s : EnrichedSession)
    (projectMap : list (string * list EnrichedSession))
  : list (string * list EnrichedSession) :=
  match projectMap with
  | [] => [(directory, [s])]
  | (d, existing) :: rest =>
      if String.eqb d directory then (d, existing ++ [s]) :: rest
      else (d, existing) :: add directory s rest
  end.

Definition groupByDirectory (sessions : list CoreSession)
  : list (string * list EnrichedSession) :=
  fold_left (fun projectMap coreSession =>
               add (cs_directory coreSession) (cliSession coreSession) projectMap)
    sessions [].

(** [array.sort((a, b) => key(b) - key(a))]: the sort is stable, so the
    result is the one of inserting each element, from the last to the
    first, before the first element whose key is not greater. *)
Section Sort.
Context {A : Type} (notGreater : A -> A -> bool).

Fixpoint insertDescending (x : A) (l : list A) : list A :=
  match l with
  | [] => [x]
  | y :: r => if notGreater y x then x :: l else y :: insertDescending x r
  end.

Definition sortDescending (l : list A) : list A := fold_right insertDescending [] l.

End Sort.

(** A list as the sort leaves it: each element not greater than the
    one before it. *)
Definition descending {A : Type} (notGreater : A -> A -> bool) (l : list A) : Prop :=
  Sorted (fun a b => notGreater b a = true) l.

(** [b - a <= 0] on keys; [-Infinity - -Infinity] is NaN, which a
    comparator result reads as 0. *)
Definition ext_leb (a b : Ext) : bool :=
  match a, b with
  | MinusInfinity, _ => true
  | Finite _, MinusInfinity => false
  | Finite x, Finite y => x <=? y
  end.

(** [Math.max(...numbers)] *)
Definition mathMax (numbers : list Z) : Ext :=
  fold_left (fun acc z =>
               match acc with
               | MinusInfinity => Finite z
               | Finite a => Finite (Z.max a z)
               end)
    numbers MinusInfinity.

Definition bySessionActivity (a b : EnrichedSession) : bool :=
  lastActivityAt a <=? lastActivityAt b.

Definition byProjectActivity (a b : ProjectState) : bool :=
  ext_leb (ps_lastActivityAt a) (ps_lastActivityAt b).

Definition isActiveStatus (s : EnrichedSession) : bool :=
  match status s with active => true | _ => false end.

Definition projectState (entry : string * list EnrichedSession) : ProjectState :=
  let sessions := sortDescending bySessionActivity (snd entry) in
  {| ps_directory := fst entry;
     ps_sessions := sessions;
     ps_activeCount := length (List.filter isActiveStatus sessions);
     ps_totalMessages := fold_left (fun sum s => (sum + messageCount s)%nat) sessions 0%nat;
     ps_lastActivityAt := mathMax (List.map lastActivityAt sessions) |}.

(** [adaptCoreWorldState(coreState)] *)
Definition adaptCoreWorldState (coreState : CoreWorldState) : WorldState :=
  let projectMap := groupByDirectory (core_sessions coreState) in
  let projects := sortDescending byProjectActivity (List.map projectState projectMap) in
  {| projects := projects;
     totalSessions := length (core_sessions coreState);
     activeSessions := length (List.filter cs_isActive (core_sessions coreState));
     streamingSessions :=
       length (List.filter (fun s => existsb cm_isStreaming (cs_messages s))
                 (core_sessions coreState));
     lastEventOffset := "0";
     lastUpdated := core_lastUpdated coreState |}.

(** A project map as the grouping builds it: no directory twice, no
    project without a session, every session under its directory. *)
Definition grouped (projectMap : list (string * list EnrichedSession)) : Prop :=
  NoDup (fst <$> projectMap)
  /\ Forall (fun entry =>
               snd entry <> []
               /\ Forall (fun s => projectKey s = fst entry) (snd entry))
       projectMap.

(** [formatTimeAgo(timestamp)], [now] being [Date.now()]. *)
Definition formatTimeAgo (now timestamp : Z) : string :=
  let diff := now - timestamp in
  if diff <? 1000 then "now"
  else if diff <? 60000 then String.append (Js.toString (Js.Num (diff / 1000))) "s ago"
  else if diff <? 3600000 then String.append (Js.toString (Js.Num (diff / 60000))) "m ago"
  else if diff <? 86400000 then String.append (Js.toString (Js.Num (diff / 3600000))) "h ago"
  else String.append (Js.toString (Js.Num (diff / 86400000))) "d ago".

End Cli.

(* ===================================================================== *)
(** * 13. Messages with their parts: [message-service.ts]                 *)
(* ===================================================================== *)

Module MessageService.

Record MessageWithParts := {
  message : World.Message;
  parts : list World.Part
}.

(** [listWithParts(sessionId, directory)]: [fetchedMessages] and
    [fetchedParts] are what [MessageAtom.list] and [PartAtom.list]
    yield, [None] for an effect that fails; [Effect.all] fails when
    one of the two does. *)
Definition listWithParts (fetchedMessages : option (list World.Message))
    (fetchedParts : option (list World.Part)) : option (list MessageWithParts) :=
  match fetchedMessages, fetchedParts with
  | Some messages, Some parts =>
      Some (List.map
              (fun message =>
                 {| message := message;
                    parts :=
                      List.filter
                        (fun part =>
                           String.eqb (World.part_messageID part) (World.msg_id message))
                        parts |})
              messages)
  | _, _ => None
  end.

End MessageService.

(* ===================================================================== *)
(** * 14. The server list of the web client: [atoms/servers.ts]           *)
(* ===================================================================== *)

Module Servers.

Record ServerInfo := {
  port : Z;
  directory : string;
  url : string
}.

Definition DEFAULT_SERVER : ServerInfo :=
  {| port := 4056; directory := EmptyString; url := "http://localhost:4056" |}.

Definition isDefault (s : ServerInfo) : bool :=
  (port s =? port DEFAULT_SERVER) && String.eqb (directory s) (directory DEFAULT_SERVER).

(** The effect [discoverServers] of [makeServersAtom], on what
    [discovery.discover()] yields. *)
Definition discoverServers (servers : list ServerInfo) : list ServerInfo :=
  if (length servers =? 0)%nat then [DEFAULT_SERVER]
  else
    let hasDefault := existsb isDefault servers in
    if hasDefault then servers else DEFAULT_SERVER :: servers.

(** [selectBestServer(servers)] *)
Definition selectBestServer (servers : list ServerInfo) : ServerInfo :=
  match List.find (fun s => negb (String.eqb (directory s) EmptyString)) servers with
  | Some serverWithDir => serverWithDir
  | None =>
      match servers !! 0%nat with
      | Some first => first
      | None => DEFAULT_SERVER
      end
  end.

(** [Result] of an effectful atom. *)
Inductive Result (A : Type) := Initial | Success (value : A) | Failure.
Arguments Initial {A}.
Arguments Success {A} value.
Arguments Failure {A}.

(** The mapping of [makeCurrentServerAtom]. *)
Definition currentServer (serversResult : Result (list ServerInfo)) : ServerInfo :=
  match serversResult with
  | Success value =>
      if (0 <? length value)%nat then selectBestServer value else DEFAULT_SERVER
  | _ => DEFAULT_SERVER
  end.

End Servers.

(* ===================================================================== *)
(** * 15. What the cursor stream delivers                                 *)
(* ===================================================================== *)

(** Type and payload of an event. *)
Definition content {P : Type} (e : WorldEvent P) : string * Payload P :=
  (we_type P e, we_payload P e).

(** Type and payload of the events one server contributes to a
    catch-up, in the order of the two loops over its answers. *)
Definition announced {B P : Type} (normalize : B -> SessionStatus)
    (server : ServerView B) : list (string * Payload P) :=
  ((fun session =>
      ("session.created",
       PSession (session_id session) (sv_directory B server)))
     <$> default [] (sv_sessions B server))
  ++ ((fun entry =>
         ("session.updated", PStatus (fst entry) (normalize (snd entry))))
        <$> default [] (sv_status B server)).

(** Type and payload of the live events the tail lets through. *)
Definition relayed {P : Type} (live : list (GlobalEvent P)) : list (string * Payload P) :=
  (fun ev => (ge_type P ev, PLive (ge_properties P ev)))
    <$> List.filter (fun ev => recognised (ge_type P ev)) live.

(* ===================================================================== *)
(** * 16. Histories of the cursor store                                   *)
(* ===================================================================== *)

(** The last write of a history that names a key. *)
Definition lastWrite (key : string) (history : list CursorStore.Mutation)
  : option CursorStore.Mutation :=
  last (List.filter (fun w => String.eqb (CursorStore.write_key w) key) history).

(* ===================================================================== *)
(** * 17. Parts that have a message                                       *)
(* ===================================================================== *)

(** Whether a part names one of the messages given. *)
Definition hasMessage (messages : list World.Message) (part : World.Part) : bool :=
  existsb (fun message => String.eqb (World.part_messageID part) (World.msg_id message))
    messages.

(* ===================================================================== *)
(** * 18. A bounded pool of tasks: [promiseAllSettledLimit] of the servers
      route of the web client                                             *)
(* ===================================================================== *)

Module Pool.
Section Pool.
Context {T : Type}.

(** How the promise of a task settles. *)
Inductive Settled := Fulfilled (value : T) | Rejected.

(** [index], [results] (an array with holes) and, for every worker that
    is at its [await], the index of the task it waits for. *)
Record State := {
  index : nat;
  results : gmap nat T;
  awaiting : list nat
}.

(** A worker at the head of its loop: it takes the next index and calls
    the task, or finds no index left and returns. *)
Definition workerLoop (n : nat) (st : State) : State :=
  if (index st <? n)%nat
  then {| index := S (index st); results := results st;
          awaiting := awaiting st ++ [index st] |}
  else st.

(** The number of workers, [Math.min(limit, tasks.length)] as the length
    of an array: none for a limit of zero or less. *)
Definition workers (limit : Z) (n : nat) : nat := Z.to_nat (Z.min limit (Z.of_nat n)).

(** [Array.from({ length }, worker)]: every worker runs up to its first
    [await]. *)
Definition start (limit : Z) (n : nat) : State :=
  Nat.iter (workers limit n) (workerLoop n) {| index := 0; results := ∅; awaiting := [] |}.

Definition fulfilled (tasks : list Settled) (i : nat) : option T :=
  match tasks !! i with
  | Some (Fulfilled value) => Some value
  | _ => None
  end.

(** The task with index [i] settles and the worker that waits for it
    goes on: it stores the value of a fulfilled task, drops a rejection,
    and is back at the head of its loop. *)
Definition settle (tasks : list Settled) (st : State) (i : nat) : State :=
  if bool_decide (i ∈ awaiting st) then
    workerLoop (length tasks)
      {| index := index st;
         results :=
           match fulfilled tasks i with
           | Some value => <[ i := value ]> (results st)
           | None => results st
           end;
         awaiting := List.filter (fun j => negb (j =? i)%nat) (awaiting st) |}
  else st.

(** The pool after the tasks have settled in the order [schedule]. *)
Definition run (tasks : list Settled) (limit : Z) (schedule : list nat) : State :=
  fold_left (settle tasks) schedule (start limit (length tasks)).

(** What holds of the pool at every moment. *)
Definition steady (tasks : list Settled) (limit : Z) (st : State) : Prop :=
  NoDup (awaiting st)
  /\ (forall i, i ∈ awaiting st -> (i < index st)%nat)
  /\ (index st <= length tasks)%nat
  /\ (length (awaiting st) <= workers limit (length tasks))%nat
  /\ (forall i,
        results st !! i
        = if bool_decide ((i < index st)%nat /\ i ∉ awaiting st)
          then fulfilled tasks i else None)
  /\ ((0 < workers limit (length tasks))%nat ->
      (index st < length tasks)%nat -> awaiting st <> [])
  /\ (workers limit (length tasks) = 0%nat -> index st = 0%nat).

End Pool.
Arguments Settled T : clear implicits.
Arguments State T : clear implicits.
End Pool.

(* ===================================================================== *)
(** * 19. Decimal numerals                                                 *)
(* ===================================================================== *)

Module JsFacts.
Import Js.

Lemma N_of_digit_char d : (d < 10)%N -> N_of_ascii (digit_char d) = (48 + d)%N.
Proof.
  intros H. unfold digit_char. apply N_ascii_embedding. lia.
Qed.

Lemma digit_char_is_digit d : (d < 10)%N -> is_digit (digit_char d) = true.
Proof.
  intros H. unfold is_digit. rewrite N_of_digit_char by exact H.
  rewrite andb_true_iff, !N.leb_le. lia.
Qed.

Lemma digit_val_char d : (d < 10)%N -> digit_val (digit_char d) = d.
Proof.
  intros H. unfold digit_val. rewrite N_of_digit_char by exact H. lia.
Qed.

Lemma is_digit_bounds c :
  is_digit c = true -> (N_of_ascii c = 48 + digit_val c /\ digit_val c < 10)%N.
Proof.
  unfold is_digit, digit_val. intros H.
  apply andb_prop in H as [H1 H2].
  apply N.leb_le in H1. apply N.leb_le in H2. lia.
Qed.

(** ** The value of a digit string *)

Lemma value_acc_shift s : forall a,
  value_acc s a = (a * 10 ^ N.of_nat (String.length s) + value s)%N.
Proof.
  unfold value. induction s as [|c r IH]; intros a; simpl String.length.
  - simpl. lia.
  - cbn [value_acc]. rewrite IH. rewrite (IH (10 * 0 + digit_val c)%N).
    rewrite Nat2N.inj_succ, N.pow_succ_r'. lia.
Qed.

Lemma value_cons c r :
  value (String c r) = (digit_val c * 10 ^ N.of_nat (String.length r) + value r)%N.
Proof.
  unfold value at 1. cbn [value_acc]. rewrite value_acc_shift. f_equal; lia.
Qed.

Lemma value_bound s : all_digits s = true -> (value s < 10 ^ N.of_nat (String.length s))%N.
Proof.
  induction s as [|c r IH]; intros H.
  - cbn. lia.
  - cbn [all_digits] in H. apply andb_prop in H as [Hc Hr].
    rewrite value_cons. simpl String.length.
    rewrite Nat2N.inj_succ, N.pow_succ_r'.
    specialize (IH Hr). apply is_digit_bounds in Hc as [_ Hc]. nia.
Qed.

Lemma length_append s t :
  String.length (String.append s t) = (String.length s + String.length t)%nat.
Proof.
  induction s as [|a s IH]; [reflexivity|].
  change (S (String.length (String.append s t))
          = S (String.length s + String.length t)).
  congruence.
Qed.

Lemma length_replicate_char k c : String.length (replicate_char k c) = k.
Proof. induction k; simpl; congruence. Qed.

Lemma value_append_zeros k s :
  value (String.append (replicate_char k "0"%char) s) = value s.
Proof.
  induction k as [|k IH]; [reflexivity|].
  change (value (String "0"%char (String.append (replicate_char k "0"%char) s))
          = value s).
  rewrite value_cons, IH.
  change (digit_val "0"%char) with 0%N. lia.
Qed.

Lemma all_digits_append_zeros k s :
  all_digits (String.append (replicate_char k "0"%char) s) = all_digits s.
Proof.
  induction k as [|k IH]; [reflexivity|].
  change (is_digit "0"%char
          && all_digits (String.append (replicate_char k "0"%char) s)
          = all_digits s).
  rewrite IH. reflexivity.
Qed.

(** ** Digit strings of one length compare like their values *)

Lemma compare_digits s : forall t,
  String.length s = String.length t ->
  all_digits s = true -> all_digits t = true ->
  String.compare s t = N.compare (value s) (value t).
Proof.
  induction s as [|c r IH]; intros [|d u] Hlen Hs Ht; try discriminate.
  - reflexivity.
  - cbn [all_digits] in Hs, Ht.
    apply andb_prop in Hs as [Hc Hr]. apply andb_prop in Ht as [Hd Hu].
    simpl in Hlen. injection Hlen as Hlen.
    rewrite !value_cons, <- Hlen.
    pose proof (value_bound r Hr) as Br.
    pose proof (value_bound u Hu) as Bu. rewrite <- Hlen in Bu.
    apply is_digit_bounds in Hc as [Ec Bc].
    apply is_digit_bounds in Hd as [Ed Bd].
    cbn [String.compare]. unfold Ascii.compare. rewrite Ec, Ed.
    destruct (N.compare_spec (48 + digit_val c) (48 + digit_val d)) as [E|L|G].
    + assert (digit_val c = digit_val d) as -> by lia.
      rewrite (IH u Hlen Hr Hu).
      destruct (N.compare_spec (value r) (value u));
        symmetry; [apply N.compare_eq_iff | apply N.compare_lt_iff
                  | apply N.compare_gt_iff]; nia.
    + symmetry. apply N.compare_lt_iff. nia.
    + symmetry. apply N.compare_gt_iff. nia.
Qed.

(** ** [decimal] prints the number it is given *)

Lemma decimal_aux_digits f : forall n acc,
  all_digits acc = true -> all_digits (decimal_aux f n acc) = true.
Proof.
  induction f as [|f IH]; intros n acc H; [exact H|].
  cbn [decimal_aux].
  assert (all_digits (String (digit_char (n mod 10)) acc) = true) as H'.
  { cbn [all_digits]. rewrite H, digit_char_is_digit; [reflexivity|].
    apply N.mod_lt. lia. }
  destruct (n / 10 =? 0)%N; [exact H'|]. apply IH, H'.
Qed.

Lemma decimal_aux_value f : forall n acc,
  (n < 10 ^ N.of_nat f)%N ->
  value (decimal_aux f n acc)
  = (n * 10 ^ N.of_nat (String.length acc) + value acc)%N.
Proof.
  induction f as [|f IH]; intros n acc H.
  - cbn in H. assert (n = 0%N) as -> by lia. cbn [decimal_aux]. lia.
  - cbn [decimal_aux].
    pose proof (N.div_mod n 10 ltac:(lia)) as Hdm.
    pose proof (N.mod_lt n 10 ltac:(lia)) as Hm.
    destruct (n / 10 =? 0)%N eqn:E.
    + apply N.eqb_eq in E. rewrite value_cons, digit_val_char by exact Hm. nia.
    + rewrite IH.
      * rewrite value_cons, digit_val_char by exact Hm.
        simpl String.length. rewrite Nat2N.inj_succ, N.pow_succ_r'. nia.
      * rewrite Nat2N.inj_succ, N.pow_succ_r' in H.
        apply N.Div0.div_lt_upper_bound. lia.
Qed.

Lemma decimal_aux_length f : forall n acc k,
  (n < 10 ^ N.of_nat (S k))%N ->
  (String.length (decimal_aux (S f) n acc) <= S k + String.length acc)%nat.
Proof.
  induction f as [|f IH]; intros n acc k H.
  - cbn [decimal_aux]. destruct (n / 10 =? 0)%N; simpl; lia.
  - change (decimal_aux (S (S f)) n acc)
      with (let acc' := String (digit_char (n mod 10)) acc in
            if (n / 10 =? 0)%N then acc' else decimal_aux (S f) (n / 10) acc').
    cbv zeta. destruct (n / 10 =? 0)%N eqn:E; [simpl; lia|].
    apply N.eqb_neq in E.
    destruct k as [|k].
    + exfalso. apply E. apply N.div_small. cbn in H. lia.
    + assert (n / 10 < 10 ^ N.of_nat (S k))%N as Hlt.
      { rewrite (Nat2N.inj_succ (S k)), N.pow_succ_r' in H.
        apply N.Div0.div_lt_upper_bound. lia. }
      specialize (IH (n / 10)%N (String (digit_char (n mod 10)) acc) k Hlt).
      cbn [String.length] in IH. lia.
Qed.

Lemma decimal_fuel n : (n < 10 ^ N.of_nat (S (N.to_nat (N.log2 n))))%N.
Proof.
  rewrite Nat2N.inj_succ, N2Nat.id.
  destruct (N.eq_dec n 0%N) as [->|Hn]; [cbn; lia|].
  pose proof (N.log2_spec n ltac:(lia)) as [_ H].
  eapply N.lt_le_trans; [exact H|].
  apply N.pow_le_mono_l. lia.
Qed.

Lemma decimal_digits n : all_digits (decimal n) = true.
Proof. apply decimal_aux_digits. reflexivity. Qed.

Lemma decimal_value n : value (decimal n) = n.
Proof.
  unfold decimal. rewrite decimal_aux_value by apply decimal_fuel.
  cbn. lia.
Qed.

Lemma decimal_length n k :
  (n < 10 ^ N.of_nat (S k))%N -> (String.length (decimal n) <= S k)%nat.
Proof.
  intros H. unfold decimal.
  pose proof (decimal_aux_length (N.to_nat (N.log2 n)) n EmptyString k H) as L.
  change (String.length EmptyString) with 0%nat in L. lia.
Qed.

(** ** [padStart] *)

Lemma padStart_length w c s :
  String.length (padStart w c s) = Nat.max w (String.length s).
Proof.
  unfold padStart. destruct (w <=? String.length s)%nat eqn:E.
  - apply Nat.leb_le in E. lia.
  - apply Nat.leb_gt in E. rewrite length_append, length_replicate_char. lia.
Qed.

Lemma padStart_zero_value w s : value (padStart w "0"%char s) = value s.
Proof.
  unfold padStart. destruct (w <=? String.length s)%nat; [reflexivity|].
  apply value_append_zeros.
Qed.

Lemma padStart_zero_digits w s :
  all_digits (padStart w "0"%char s) = all_digits s.
Proof.
  unfold padStart. destruct (w <=? String.length s)%nat; [reflexivity|].
  apply all_digits_append_zeros.
Qed.

(** ** [parseInt] reads a digit string back *)

Lemma digits_prefix_all s : forall a,
  all_digits s = true -> digits_prefix s (Some a) = Some (value_acc s a).
Proof.
  induction s as [|c r IH]; intros a H; [reflexivity|].
  cbn [all_digits] in H. apply andb_prop in H as [Hc Hr].
  cbn [digits_prefix value_acc]. rewrite Hc. cbn [default]. apply IH, Hr.
Qed.

Lemma digit_not_space c : is_digit c = true -> is_space c = false.
Proof.
  intros H. apply is_digit_bounds in H as [E B]. unfold is_space. rewrite E.
  repeat apply orb_false_intro;
    [apply andb_false_intro2; apply N.leb_gt | apply N.eqb_neq | apply N.eqb_neq]; lia.
Qed.

Lemma parseInt_digits s :
  s <> EmptyString -> all_digits s = true ->
  parseInt s = Num (Z.of_N (value s)).
Proof.
  destruct s as [|c r]; [congruence|]. intros _ H.
  pose proof H as H'. cbn [all_digits] in H'. apply andb_prop in H' as [Hc Hr].
  unfold parseInt. cbn [skip_space]. rewrite (digit_not_space c Hc).
  assert (c <> "-"%char /\ c <> "+"%char) as [Hm Hp].
  { split; intros ->; discriminate Hc. }
  assert ((match String c r with
           | String "-"%char r0 => (true, r0)
           | String "+"%char r0 => (false, r0)
           | _ => (false, String c r)
           end) = (false, String c r)) as ->.
  { destruct c as [[] [] [] [] [] [] [] []]; try reflexivity; congruence. }
  cbn [digits_prefix]. rewrite Hc. cbn [default].
  rewrite (digits_prefix_all r _ Hr). reflexivity.
Qed.

End JsFacts.

(* ===================================================================== *)
(** * 20. Offsets of the cursor stream                                     *)
(* ===================================================================== *)

Section OffsetFacts.
Import Js JsFacts.

Lemma pow10_N : (10 ^ N.of_nat 10 = 10000000000)%N.
Proof. reflexivity. Qed.

Lemma toString_nat z : 0 <= z -> toString (Num z) = decimal (Z.to_N z).
Proof.
  intros H. unfold toString. destruct (Z.ltb_spec z 0); [lia | reflexivity].
Qed.

Lemma formatOffset_value z :
  0 <= z -> value (formatOffset (Num z)) = Z.to_N z.
Proof.
  intros H. unfold formatOffset. rewrite padStart_zero_value, toString_nat by exact H.
  apply decimal_value.
Qed.

Lemma formatOffset_digits z : 0 <= z -> all_digits (formatOffset (Num z)) = true.
Proof.
  intros H. unfold formatOffset. rewrite padStart_zero_digits, toString_nat by exact H.
  apply decimal_digits.
Qed.

Lemma formatOffset_length z :
  0 <= z < 10 ^ 10 -> String.length (formatOffset (Num z)) = 10%nat.
Proof.
  intros H. unfold formatOffset. rewrite padStart_length, toString_nat by lia.
  assert (String.length (decimal (Z.to_N z)) <= 10)%nat.
  { apply decimal_length. rewrite pow10_N. lia. }
  lia.
Qed.

Lemma formatOffset_ten_digits z :
  0 <= z < 10 ^ 10 -> ten_digits (formatOffset (Num z)) = true.
Proof.
  intros H. unfold ten_digits.
  rewrite formatOffset_length, formatOffset_digits by lia. reflexivity.
Qed.

Lemma formatOffset_nonempty z : 0 <= z < 10 ^ 10 -> formatOffset (Num z) <> EmptyString.
Proof.
  intros H E. pose proof (formatOffset_length z H) as L. rewrite E in L. discriminate L.
Qed.

Lemma parseInt_formatOffset z :
  0 <= z < 10 ^ 10 -> parseInt (formatOffset (Num z)) = Num z.
Proof.
  intros H. rewrite parseInt_digits.
  - rewrite formatOffset_value by lia. f_equal. lia.
  - apply formatOffset_nonempty, H.
  - apply formatOffset_digits. lia.
Qed.

Lemma ten_digits_spec s :
  ten_digits s = true -> String.length s = 10%nat /\ all_digits s = true.
Proof.
  unfold ten_digits. intros H. apply andb_prop in H as [H1 H2].
  apply Nat.eqb_eq in H1. auto.
Qed.

Lemma compare_ten_digits s t :
  ten_digits s = true -> ten_digits t = true ->
  String.compare s t = N.compare (value s) (value t).
Proof.
  intros Hs Ht. apply ten_digits_spec in Hs as [Ls Ds].
  apply ten_digits_spec in Ht as [Lt Dt].
  apply compare_digits; congruence.
Qed.

(** On ten-digit offsets the order of strings is the order of numbers. *)
Lemma formatOffset_compare a b :
  0 <= a < 10 ^ 10 -> 0 <= b < 10 ^ 10 ->
  String.compare (formatOffset (Num a)) (formatOffset (Num b)) = Z.compare a b.
Proof.
  intros Ha Hb.
  rewrite compare_ten_digits by (apply formatOffset_ten_digits; assumption).
  rewrite !formatOffset_value by lia.
  rewrite <- (Z2N.id a), <- (Z2N.id b) at 2 by lia.
  rewrite N2Z.inj_compare. reflexivity.
Qed.

Lemma startCounter_ten_digits s :
  ten_digits s = true -> startCounter (Some s) = Num (Z.of_N (value s)).
Proof.
  intros H. apply ten_digits_spec in H as [L D].
  assert (s <> EmptyString) as Hne by (intros ->; discriminate L).
  unfold startCounter, truthy.
  destruct (String.eqb_spec s EmptyString) as [E|_]; [contradiction|].
  cbn [negb]. apply parseInt_digits; assumption.
Qed.

Lemma startCounter_formatOffset z :
  0 <= z < 10 ^ 10 -> startCounter (Some (formatOffset (Num z))) = Num z.
Proof.
  intros H. rewrite startCounter_ten_digits by (apply formatOffset_ten_digits, H).
  rewrite formatOffset_value by lia. f_equal. lia.
Qed.

(** ** Runs of consecutive offsets *)

Lemma iter_incr_Num k z : Nat.iter k incr (Num z) = Num (z + Z.of_nat k).
Proof.
  induction k as [|k IH].
  - change (Num z = Num (z + 0)). f_equal. lia.
  - rewrite Nat.iter_succ, IH. cbn [incr]. f_equal. lia.
Qed.

Lemma offsets_from_length c k : length (offsets_from c k) = k.
Proof. revert c. induction k as [|k IH]; intros c; cbn; [|rewrite IH]; reflexivity. Qed.

Lemma offsets_from_app c k1 k2 :
  offsets_from c (k1 + k2) = offsets_from c k1 ++ offsets_from (Nat.iter k1 incr c) k2.
Proof.
  revert c. induction k1 as [|k1 IH]; intros c; [reflexivity|].
  cbn [Nat.add offsets_from app]. rewrite IH. rewrite Nat.iter_succ_r. reflexivity.
Qed.

Lemma offsets_from_lookup k : forall z i s,
  offsets_from (Num z) k !! i = Some s <->
  (i < k)%nat /\ s = formatOffset (Num (z + 1 + Z.of_nat i)).
Proof.
  induction k as [|k IH]; intros z i s.
  - cbn. split; [discriminate | lia].
  - cbn [offsets_from incr]. destruct i as [|i]; cbn [lookup list_lookup].
    + split.
      * intros [= <-]. split; [lia|]. do 2 f_equal. lia.
      * intros [_ ->]. do 3 f_equal. lia.
    + rewrite IH. replace (z + 1 + 1 + Z.of_nat i) with (z + 1 + Z.of_nat (S i)) by lia.
      split; intros [? ?]; split; (lia || assumption).
Qed.

End OffsetFacts.

(* ===================================================================== *)
(** * 21. Catch-up, tail and resume                                       *)
(* ===================================================================== *)

Section CursorStreamFacts.
Import Js JsFacts.
Context {B : Type} (normalize : B -> SessionStatus) {P : Type}.

Abbreviation Event := (WorldEvent P).
Abbreviation Accu := (Acc P).

Lemma pushEvent_counter clock ty p (a : Accu) :
  acc_counter P (pushEvent P clock ty p a) = incr (acc_counter P a).
Proof. reflexivity. Qed.

Lemma pushEvent_offsets clock ty p (a : Accu) :
  we_offset P <$> acc_events P (pushEvent P clock ty p a)
  = (we_offset P <$> acc_events P a) ++ [formatOffset (incr (acc_counter P a))].
Proof. unfold pushEvent. cbn [acc_events]. rewrite fmap_app. reflexivity. Qed.

Lemma pushEvent_quiet clock ty p (a : Accu) :
  Forall quiet (acc_events P a) ->
  Forall quiet (acc_events P (pushEvent P clock ty p a)).
Proof.
  intros H. unfold pushEvent. cbn [acc_events].
  apply Forall_app. split; [exact H|]. constructor; [reflexivity | constructor].
Qed.

Section Pushes.
Context {X : Type} (clock : nat -> Z) (ty : string) (f : X -> Payload P).
Abbreviation step := (fun (a : Accu) (x : X) => pushEvent P clock ty (f x) a).

Lemma pushes_counter xs : forall a,
  acc_counter P (fold_left step xs a) = Nat.iter (length xs) incr (acc_counter P a).
Proof.
  induction xs as [|x xs IH]; intros a; [reflexivity|].
  cbn [fold_left length]. rewrite IH.
  rewrite pushEvent_counter, Nat.iter_succ_r. reflexivity.
Qed.

Lemma pushes_offsets xs : forall a,
  we_offset P <$> acc_events P (fold_left step xs a)
  = (we_offset P <$> acc_events P a) ++ offsets_from (acc_counter P a) (length xs).
Proof.
  induction xs as [|x xs IH]; intros a.
  - cbn. rewrite app_nil_r. reflexivity.
  - cbn [fold_left length offsets_from]. rewrite IH.
    rewrite pushEvent_offsets, pushEvent_counter, <- app_assoc. reflexivity.
Qed.

Lemma pushes_quiet xs : forall a,
  Forall quiet (acc_events P a) ->
  Forall quiet (acc_events P (fold_left step xs a)).
Proof.
  induction xs as [|x xs IH]; intros a H; [exact H|].
  cbn [fold_left]. apply IH. apply pushEvent_quiet, H.
Qed.

End Pushes.

(** ** One server, then all of them *)

Lemma catchUpServer_counter clock (a : Accu) sv :
  acc_counter P (catchUpServer B normalize P clock a sv)
  = Nat.iter (serverCount sv) incr (acc_counter P a).
Proof.
  unfold catchUpServer, serverCount. rewrite !pushes_counter.
  rewrite Nat.add_comm, Nat.iter_add. reflexivity.
Qed.

Lemma catchUpServer_offsets clock (a : Accu) sv :
  we_offset P <$> acc_events P (catchUpServer B normalize P clock a sv)
  = (we_offset P <$> acc_events P a) ++ offsets_from (acc_counter P a) (serverCount sv).
Proof.
  unfold catchUpServer, serverCount.
  rewrite !pushes_offsets, pushes_counter, offsets_from_app, app_assoc. reflexivity.
Qed.

Lemma catchUpServer_quiet clock (a : Accu) sv :
  Forall quiet (acc_events P a) ->
  Forall quiet (acc_events P (catchUpServer B normalize P clock a sv)).
Proof. intros H. unfold catchUpServer. do 2 apply pushes_quiet. exact H. Qed.

Lemma servers_counter clock svs : forall a : Accu,
  acc_counter P (fold_left (catchUpServer B normalize P clock) svs a)
  = Nat.iter (list_sum (List.map serverCount svs)) incr (acc_counter P a).
Proof.
  induction svs as [|sv svs IH]; intros a; [reflexivity|].
  cbn [fold_left List.map]. rewrite IH, catchUpServer_counter.
  rewrite <- Nat.iter_add. f_equal. simpl list_sum. lia.
Qed.

Lemma servers_offsets clock svs : forall a : Accu,
  we_offset P <$> acc_events P (fold_left (catchUpServer B normalize P clock) svs a)
  = (we_offset P <$> acc_events P a)
    ++ offsets_from (acc_counter P a) (list_sum (List.map serverCount svs)).
Proof.
  induction svs as [|sv svs IH]; intros a.
  - cbn. rewrite app_nil_r. reflexivity.
  - cbn [fold_left List.map].
    change (list_sum (serverCount sv :: List.map serverCount svs))
      with (serverCount sv + list_sum (List.map serverCount svs))%nat.
    rewrite IH, catchUpServer_offsets, catchUpServer_counter, offsets_from_app,
      app_assoc. reflexivity.
Qed.

Lemma servers_quiet clock svs : forall a : Accu,
  Forall quiet (acc_events P a) ->
  Forall quiet (acc_events P (fold_left (catchUpServer B normalize P clock) svs a)).
Proof.
  induction svs as [|sv svs IH]; intros a H; [exact H|].
  cbn [fold_left]. apply IH, catchUpServer_quiet, H.
Qed.

End CursorStreamFacts.

Section CatchUpFacts.
Import Js JsFacts.
Context {B : Type} (normalize : B -> SessionStatus) {P : Type}.

(** ** Marking the last event *)

Lemma markLast_nil : markLast P [] = [].
Proof. reflexivity. Qed.

Lemma markLast_length (evs : list (WorldEvent P)) : length (markLast P evs) = length evs.
Proof.
  unfold markLast. destruct (evs !! (length evs - 1)%nat); [|reflexivity].
  destruct (0 <? length evs)%nat; [apply length_insert | reflexivity].
Qed.

Lemma markLast_offsets (evs : list (WorldEvent P)) :
  we_offset P <$> markLast P evs = we_offset P <$> evs.
Proof.
  unfold markLast. destruct (evs !! (length evs - 1)%nat) as [e|] eqn:E; [|reflexivity].
  destruct (0 <? length evs)%nat; [|reflexivity].
  rewrite list_fmap_insert. apply list_insert_id.
  rewrite list_lookup_fmap, E. reflexivity.
Qed.

Lemma markLast_flags (evs : list (WorldEvent P)) i e :
  Forall quiet evs -> markLast P evs !! i = Some e ->
  (we_upToDate P e = true <-> S i = length evs).
Proof.
  intros Hq. unfold markLast.
  destruct (evs !! (length evs - 1)%nat) as [l|] eqn:E.
  - pose proof (lookup_lt_Some _ _ _ E) as Hlt.
    destruct (Nat.ltb_spec 0 (length evs)) as [Hpos|]; [|lia].
    destruct (Nat.eq_dec i (length evs - 1)%nat) as [->|Hne].
    + rewrite list_lookup_insert_eq by exact Hlt. intros [= <-].
      cbn. split; [lia | reflexivity].
    + rewrite list_lookup_insert_ne by congruence. intros Hi.
      rewrite Forall_forall in Hq.
      assert (we_upToDate P e = false) as ->.
      { apply Hq. eapply list_elem_of_lookup_2, Hi. }
      split; [discriminate | lia].
  - intros Hi. apply lookup_lt_Some in Hi.
    apply lookup_ge_None in E. lia.
Qed.

(** ** The batch of [catchUpEvents] *)

Lemma catchUp_no_servers (w : Snapshot B) offset :
  discovered B w = [] ->
  catchUpEvents normalize w offset
  = {| cr_events := @nil (WorldEvent P); cr_nextOffset := None; cr_upToDate := true |}.
Proof. intros H. unfold catchUpEvents. rewrite H. reflexivity. Qed.

Lemma catchUp_offsets (w : Snapshot B) offset :
  we_offset P <$> cr_events P (catchUpEvents normalize w offset)
  = offsets_from (startCounter offset) (batchSize w).
Proof.
  unfold catchUpEvents, batchSize.
  destruct (length (discovered B w) =? 0)%nat eqn:E.
  - apply Nat.eqb_eq in E. apply length_zero_iff_nil in E. rewrite E. reflexivity.
  - cbn [cr_events]. rewrite markLast_offsets, servers_offsets. reflexivity.
Qed.

Lemma catchUp_length (w : Snapshot B) offset :
  length (cr_events P (catchUpEvents normalize w offset)) = batchSize w.
Proof.
  rewrite <- (length_fmap (we_offset P)), catchUp_offsets.
  apply offsets_from_length.
Qed.

Lemma catchUp_flags (w : Snapshot B) offset i e :
  cr_events P (catchUpEvents normalize w offset) !! i = Some e ->
  (we_upToDate P e = true
   <-> S i = length (cr_events P (catchUpEvents normalize w offset))).
Proof.
  unfold catchUpEvents.
  destruct (length (discovered B w) =? 0)%nat; cbn [cr_events].
  - discriminate.
  - rewrite markLast_length. apply markLast_flags.
    apply servers_quiet. constructor.
Qed.

Lemma catchUp_nextOffset (w : Snapshot B) offset :
  cr_nextOffset P (catchUpEvents normalize w offset)
  = we_offset P <$> last (cr_events P (catchUpEvents normalize w offset)).
Proof.
  unfold catchUpEvents.
  destruct (length (discovered B w) =? 0)%nat; cbn [cr_events cr_nextOffset];
    [reflexivity|].
  set (evs := markLast P _).
  rewrite last_lookup.
  destruct (Nat.ltb_spec 0 (length evs)).
  - replace (Nat.pred (length evs)) with (length evs - 1)%nat by lia. reflexivity.
  - destruct evs; [reflexivity | cbn in *; lia].
Qed.

Lemma catchUp_upToDate (w : Snapshot B) offset :
  cr_upToDate P (catchUpEvents normalize w offset) = true.
Proof.
  unfold catchUpEvents. destruct (length (discovered B w) =? 0)%nat; reflexivity.
Qed.

(** ** The live tail *)

Lemma tail_fold clock live : forall a : Acc P,
  fold_left (tailStep P clock) live a
  = fold_left (fun a ev => pushEvent P clock (ge_type P ev) (PLive (ge_properties P ev)) a)
      (List.filter (fun ev => recognised (ge_type P ev)) live) a.
Proof.
  induction live as [|ev live IH]; intros a; [reflexivity|].
  cbn [fold_left List.filter]. rewrite IH. unfold tailStep.
  destruct (recognised (ge_type P ev)); reflexivity.
Qed.

Lemma tail_pushes clock (evs : list (GlobalEvent P)) : forall a : Acc P,
  let a' := fold_left
              (fun a ev => pushEvent P clock (ge_type P ev) (PLive (ge_properties P ev)) a)
              evs a in
  we_offset P <$> acc_events P a'
  = (we_offset P <$> acc_events P a) ++ offsets_from (acc_counter P a) (length evs)
  /\ (Forall quiet (acc_events P a) -> Forall quiet (acc_events P a')).
Proof.
  induction evs as [|ev evs IH]; intros a; cbn zeta.
  - cbn. rewrite app_nil_r. auto.
  - cbn [fold_left length offsets_from].
    destruct (IH (pushEvent P clock (ge_type P ev) (PLive (ge_properties P ev)) a))
      as [IH1 IH2].
    split.
    + rewrite IH1, pushEvent_offsets, pushEvent_counter, <- app_assoc. reflexivity.
    + intros H. apply IH2, pushEvent_quiet, H.
Qed.

Lemma tail_offsets clock offset (live : list (GlobalEvent P)) :
  we_offset P <$> tailEvents clock offset live
  = offsets_from (startCounter offset) (liveCount live).
Proof.
  unfold tailEvents, liveCount. rewrite tail_fold.
  destruct (tail_pushes clock
              (List.filter (fun ev => recognised (ge_type P ev)) live)
              {| acc_events := []; acc_counter := startCounter offset |}) as [H _].
  exact H.
Qed.

Lemma tail_quiet clock offset (live : list (GlobalEvent P)) :
  Forall quiet (tailEvents clock offset live).
Proof.
  unfold tailEvents. rewrite tail_fold.
  destruct (tail_pushes clock
              (List.filter (fun ev => recognised (ge_type P ev)) live)
              {| acc_events := []; acc_counter := startCounter offset |}) as [_ H].
  apply H. constructor.
Qed.

(** ** Resume *)

Lemma scan_events {S A : Type} (f : S -> A -> S) (l : list A) : forall s0 o,
  omap snd
    (scan (fun (st : S * option A) x => (f (fst st) x, Some x)) (s0, o) l)
  = match o with Some x => x :: l | None => l end.
Proof.
  induction l as [|x l IH]; intros s0 o.
  - destruct o; reflexivity.
  - cbn [scan]. change (omap snd ((s0, o) :: ?r)) with
      (match o with Some y => y :: omap snd r | None => omap snd r end).
    rewrite IH. destruct o; reflexivity.
Qed.

Lemma resume_unfold (w1 w2 : Snapshot B) clock saved (live : list (GlobalEvent P)) :
  resumeEvents normalize w1 w2 clock saved live
  = cr_events P (catchUpEvents normalize w1 saved)
    ++ tailEvents clock
         (or_else (cr_nextOffset P (catchUpEvents normalize w2 saved)) saved) live.
Proof.
  unfold resumeEvents.
  apply (scan_events (fun _ (event : WorldEvent P) => Some (we_offset P event))
           _ saved None).
Qed.

End CatchUpFacts.

Section CursorClaims.
Import Js JsFacts.
Context {B : Type} (normalize : B -> SessionStatus) {P : Type}.

(** With one snapshot for both catch-up queries, resume numbers its
    events consecutively after the saved offset, history first. *)
Lemma resume_one_snapshot_offsets (w : Snapshot B) clock saved
    (live : list (GlobalEvent P)) n :
  startCounter saved = Num n -> 0 <= n ->
  n + Z.of_nat (batchSize w) < 10 ^ 10 ->
  we_offset P <$> resumeEvents normalize w w clock saved live
  = offsets_from (Num n) (batchSize w + liveCount live).
Proof.
  intros Hn Hpos Hrange.
  rewrite resume_unfold, fmap_app, catchUp_offsets, tail_offsets, Hn.
  rewrite offsets_from_app, iter_incr_Num. f_equal. f_equal.
  rewrite (catchUp_nextOffset normalize w saved), <- fmap_last,
    (catchUp_offsets normalize w saved), Hn.
  destruct (batchSize w) as [|k] eqn:Ek.
  - cbn [offsets_from last]. unfold or_else. cbn [truthy].
    rewrite Hn. f_equal. lia.
  - assert (last (offsets_from (Num n) (S k))
            = Some (formatOffset (Num (n + Z.of_nat (S k))))) as ->.
    { rewrite last_lookup, offsets_from_length. cbn [Nat.pred].
      apply offsets_from_lookup. split; [lia|]. do 2 f_equal. lia. }
    unfold or_else. cbn [truthy].
    destruct (String.eqb_spec (formatOffset (Num (n + Z.of_nat (S k)))) EmptyString)
      as [E|_].
    + exfalso. revert E. apply formatOffset_nonempty. lia.
    + cbn [negb]. apply startCounter_formatOffset. lia.
Qed.

(** C3 (amended). Every batch of catchUp(offset) whose offsets stay below
    10^10 - the given offset is absent or parses to n >= 0, and n plus the
    size of the batch is below 10^10 - numbers its events n+1, n+2, ...:
    each offset is a string of ten decimal digits that reads back as its
    number, the order of the strings is the order of the positions,
    every offset reads back as a number above n, every offset is above
    the given offset as a string when that one has ten digits itself
    (a shorter one need not be below: 12345 is above 0000012346),
    exactly the last event carries upToDate = true, and nextOffset is
    the last offset. *)
Theorem catchUp_batch_offsets (w : Snapshot B) offset n :
  let r := catchUpEvents (Properties := P) normalize w offset in
  startCounter offset = Num n -> 0 <= n ->
  n + Z.of_nat (length (cr_events P r)) < 10 ^ 10 ->
  (forall i e, cr_events P r !! i = Some e ->
     we_offset P e = formatOffset (Num (n + 1 + Z.of_nat i))
     /\ ten_digits (we_offset P e) = true
     /\ parseInt (we_offset P e) = Num (n + 1 + Z.of_nat i)
     /\ (we_upToDate P e = true <-> S i = length (cr_events P r)))
  /\ (forall i j ei ej,
        cr_events P r !! i = Some ei -> cr_events P r !! j = Some ej ->
        String.compare (we_offset P ei) (we_offset P ej) = Nat.compare i j)
  /\ (forall e, e ∈ cr_events P r ->
        exists m, parseInt (we_offset P e) = Num m /\ n < m)
  /\ (forall s e,
        offset = Some s -> ten_digits s = true -> e ∈ cr_events P r ->
        String.ltb s (we_offset P e) = true)
  /\ cr_nextOffset P r = we_offset P <$> last (cr_events P r)
  /\ cr_upToDate P r = true.
Proof.
  intros r Hn Hpos Hrange. subst r.
  rewrite catchUp_length in Hrange.
  assert (forall i e,
            cr_events P (catchUpEvents normalize w offset) !! i = Some e ->
            (i < batchSize w)%nat
            /\ we_offset P e = formatOffset (Num (n + 1 + Z.of_nat i))) as Hoff.
  { intros i e Hi. apply offsets_from_lookup.
    rewrite <- Hn, <- (catchUp_offsets (P := P) normalize w offset),
      list_lookup_fmap, Hi.
    reflexivity. }
  repeat split.
  - apply (Hoff i e H).
  - destruct (Hoff i e H) as [Hi ->]. apply formatOffset_ten_digits. lia.
  - destruct (Hoff i e H) as [Hi ->]. apply parseInt_formatOffset. lia.
  - apply catchUp_flags, H.
  - apply catchUp_flags, H.
  - intros i j ei ej Hi Hj.
    destruct (Hoff i ei Hi) as [Li ->]. destruct (Hoff j ej Hj) as [Lj ->].
    rewrite formatOffset_compare by lia.
    rewrite <- Nat2Z.inj_compare.
    rewrite <- !Z.add_assoc, Z.add_compare_mono_l, Z.add_compare_mono_l.
    reflexivity.
  - intros e He.
    apply list_elem_of_lookup in He as [i Hi].
    destruct (Hoff i e Hi) as [Li ->].
    exists (n + 1 + Z.of_nat i). split; [apply parseInt_formatOffset|]; lia.
  - intros s e -> Hs He.
    apply list_elem_of_lookup in He as [i Hi].
    destruct (Hoff i e Hi) as [Li ->].
    rewrite (startCounter_ten_digits s Hs) in Hn. injection Hn as Hn.
    unfold String.ltb.
    rewrite compare_ten_digits by (apply formatOffset_ten_digits || assumption; lia).
    rewrite formatOffset_value by lia.
    assert (value s < Z.to_N (n + 1 + Z.of_nat i))%N as Hlt by lia.
    apply N.compare_lt_iff in Hlt. rewrite Hlt. reflexivity.
  - apply catchUp_nextOffset.
  - apply catchUp_upToDate.
Qed.

(** C10. With no server discovered, catchUp(offset) is the empty batch
    with nextOffset null and upToDate true; a resume started then emits
    exactly the events of the live tail, none of them marked upToDate,
    and the tail counts on from the saved offset when the second query
    finds no server either. *)
Theorem catchUp_empty_then_live_only (w1 : Snapshot B) offset :
  discovered B w1 = [] ->
  catchUpEvents (Properties := P) normalize w1 offset
  = {| cr_events := []; cr_nextOffset := None; cr_upToDate := true |}
  /\ forall (w2 : Snapshot B) clock (live : list (GlobalEvent P)),
       resumeEvents normalize w1 w2 clock offset live
       = tailEvents clock
           (or_else (cr_nextOffset P (catchUpEvents normalize w2 offset)) offset) live
       /\ Forall (fun e => we_upToDate P e = false)
            (resumeEvents normalize w1 w2 clock offset live)
       /\ (discovered B w2 = [] ->
           resumeEvents normalize w1 w2 clock offset live
           = tailEvents clock offset live).
Proof.
  intros H. split; [apply catchUp_no_servers, H|].
  intros w2 clock live.
  assert (resumeEvents normalize w1 w2 clock offset live
          = tailEvents clock
              (or_else (cr_nextOffset P (catchUpEvents normalize w2 offset)) offset)
              live) as E.
  { rewrite resume_unfold, (catchUp_no_servers normalize w1 offset H). reflexivity. }
  split; [exact E|]. split.
  - rewrite E. apply tail_quiet.
  - intros H2. rewrite E, (catchUp_no_servers normalize w2 offset H2). reflexivity.
Qed.

End CursorClaims.

(** The batch of a catch-up from offset 42 over two sessions and one
    status entry. *)
Lemma catchUp_batch_offsets_witness :
  let r := catchUpEvents (Properties := unit) Sample.keep
             (Sample.backend [Sample.session "ses_a"; Sample.session "ses_b"]
                [("ses_a", "running")])
             (Some "0000000042") in
  startCounter (Some "0000000042") = Js.Num 42
  /\ (forall i e, cr_events unit r !! i = Some e ->
        we_offset unit e = formatOffset (Js.Num (42 + 1 + Z.of_nat i))
        /\ ten_digits (we_offset unit e) = true
        /\ Js.parseInt (we_offset unit e) = Js.Num (42 + 1 + Z.of_nat i)
        /\ (we_upToDate unit e = true <-> S i = length (cr_events unit r)))
  /\ cr_nextOffset unit r = Some "0000000045".
Proof.
  intros r.
  assert (startCounter (Some "0000000042") = Js.Num 42) as Hn by reflexivity.
  split; [exact Hn|].
  destruct (catchUp_batch_offsets (P := unit) Sample.keep
              (Sample.backend [Sample.session "ses_a"; Sample.session "ses_b"]
                 [("ses_a", "running")])
              (Some "0000000042") 42 Hn ltac:(lia) ltac:(vm_compute; reflexivity))
    as (H1 & _ & _ & _ & _ & _).
  split; [exact H1 | reflexivity].
Defined.

(** C3, as stated, fails from the last ten-digit offset: the next one
    has eleven digits and sorts before the offset given.  It also fails
    for a given offset of fewer than ten digits: after 12345 comes
    0000012346, which sorts before it. *)
Lemma catchUp_offset_outgrows_ten_digits :
  ~ (forall e,
       e ∈ cr_events unit
             (catchUpEvents Sample.keep
                (Sample.backend [Sample.session "ses_a"] []) (Some "9999999999")) ->
       ten_digits (we_offset unit e) = true
       /\ String.ltb "9999999999" (we_offset unit e) = true)
  /\ ~ (forall e,
          e ∈ cr_events unit
                (catchUpEvents Sample.keep
                   (Sample.backend [Sample.session "ses_a"] []) (Some "12345")) ->
          String.ltb "12345" (we_offset unit e) = true).
Proof.
  split; intros H.
  - destruct (H {| we_type := "session.created"; we_offset := "10000000000";
                   we_timestamp := 1700000000000; we_upToDate := true;
                   we_payload := PSession "ses_a" "/test" |}) as [H1 _].
    + vm_compute. left.
    + vm_compute in H1. discriminate H1.
  - specialize (H {| we_type := "session.created"; we_offset := "0000012346";
                     we_timestamp := 1700000000000; we_upToDate := true;
                     we_payload := PSession "ses_a" "/test" |}).
    assert (String.ltb "12345" "0000012346" = false) as E by reflexivity.
    cbn [we_offset] in H. rewrite E in H.
    assert (false = true) as F; [apply H; vm_compute; left | discriminate F].
Qed.

Lemma catchUp_empty_then_live_only_witness :
  catchUpEvents (Properties := unit) Sample.keep Sample.nobody (Some "0000000042")
  = {| cr_events := []; cr_nextOffset := None; cr_upToDate := true |}
  /\ we_offset unit <$>
       resumeEvents Sample.keep Sample.nobody Sample.nobody Sample.clock
         (Some "0000000042")
         [Sample.live "session.updated"; Sample.live "server.heartbeat";
          Sample.live "message.part.updated"]
     = ["0000000043"; "0000000044"].
Proof.
  destruct (catchUp_empty_then_live_only (P := unit) Sample.keep Sample.nobody
              (Some "0000000042") eq_refl) as [H1 H2].
  split; [exact H1|].
  destruct (H2 Sample.nobody Sample.clock
              [Sample.live "session.updated"; Sample.live "server.heartbeat";
               Sample.live "message.part.updated"]) as (_ & _ & H3).
  rewrite (H3 eq_refl). reflexivity.
Defined.

(** C1. The code runs the catch-up query twice.  Saved offset 42, one
    live event.  The first query finds one server with one session.
    When the server is gone at the second query, the history event and
    the live event both carry offset 0000000043; when a second session
    has appeared by then, the live event carries 0000000045 and offset
    0000000044 is never delivered.  Either way the sequence is not the
    batch followed by the tail started at that batch's nextOffset, which
    is numbered 0000000043, 0000000044. *)
Theorem resume_queries_catchUp_twice :
  let saved := Some "0000000042" in
  let w1 := Sample.backend [Sample.session "ses_a"] [] in
  let gone := Sample.nobody in
  let grown := Sample.backend [Sample.session "ses_a"; Sample.session "ses_b"] [] in
  let live := [Sample.live "session.updated"] in
  let batch := catchUpEvents (Properties := unit) Sample.keep w1 saved in
  let claimed :=
    cr_events unit batch
    ++ tailEvents Sample.clock (Js.or_else (cr_nextOffset unit batch) saved) live in
  we_offset unit <$> claimed = ["0000000043"; "0000000044"]
  /\ we_offset unit <$> resumeEvents Sample.keep w1 gone Sample.clock saved live
     = ["0000000043"; "0000000043"]
  /\ we_offset unit <$> resumeEvents Sample.keep w1 grown Sample.clock saved live
     = ["0000000043"; "0000000045"]
  /\ resumeEvents Sample.keep w1 gone Sample.clock saved live <> claimed
  /\ resumeEvents Sample.keep w1 grown Sample.clock saved live <> claimed.
Proof.
  cbv zeta. split; [reflexivity|]. split; [reflexivity|]. split; [reflexivity|].
  split; intros E; apply (f_equal (fmap (we_offset unit))) in E;
    vm_compute in E; discriminate E.
Qed.
(* ===================================================================== *)
(** * 22. The connection task                                             *)
(* ===================================================================== *)

Module SseFacts.
Import Sse.

Lemma backoffDelay_bounds a : 0 <= a -> 1000 <= backoffDelay a <= 30000.
Proof.
  intros H. unfold backoffDelay.
  assert (0 < 2 ^ a) by (apply Z.pow_pos_nonneg; lia).
  lia.
Qed.

(** The loop, one iteration unfolded. *)
Lemma connectionLoop_eq cfg a script :
  connectionLoop cfg a script
  = if negb (a <? cfg_maxReconnectAttempts cfg) then [Settled]
    else
      match script with
      | [] => []
      | r :: rest =>
          if negb (running r) then [Settled]
          else
            match outcome r with
            | StreamEnded => [Connect; Streaming; Settled]
            | BootstrapFailed => [Connect; Failed]
            | StreamFailed => [Connect; Streaming; Failed]
            | Threw =>
                if negb (cfg_autoReconnect cfg)
                   || (cfg_maxReconnectAttempts cfg <=? a + 1)
                then [Connect; Dropped; Settled]
                else Connect :: Dropped :: Sleep (backoffDelay (a + 1))
                       :: connectionLoop cfg (a + 1) rest
            end
      end.
Proof. destruct script; reflexivity. Qed.

(** Without an exception in the block the task is over after one pass:
    these are all the traces it has. *)
Lemma connectionLoop_no_throw cfg a script :
  Forall no_throw script ->
  connectionLoop cfg a script
  ∈ [[Settled]; []; [Connect; Streaming; Settled];
     [Connect; Failed]; [Connect; Streaming; Failed]].
Proof.
  intros H. rewrite connectionLoop_eq.
  destruct (negb (a <? cfg_maxReconnectAttempts cfg)); [set_solver|].
  destruct script as [|r rest]; [set_solver|].
  destruct (negb (running r)); [set_solver|].
  apply Forall_cons in H as [Hr _]. unfold no_throw in Hr.
  destruct (outcome r); [set_solver | set_solver | set_solver | congruence].
Qed.

End SseFacts.

Section ReconnectClaims.
Import Sse SseFacts.

(** C4. The code does not reconnect after a failure.  With the default
    configuration (autoReconnect on, ten attempts allowed), a server
    whose bootstrap fails at the first attempt, or whose stream fails
    after the bootstrap, and that would answer every later attempt: the
    task connects once and ends in failure at that point.  It never
    sleeps, so there is no delay of one second, or of any length,
    before a reconnection attempt, and no such attempt; it does not
    settle, and the port stays in the connected set. *)
Theorem failed_connection_is_not_retried :
  let failing := connectToServer defaultConfig Sample.failing_script in
  let dropping := connectToServer defaultConfig Sample.dropping_script in
  cfg_autoReconnect defaultConfig = true
  /\ cfg_maxReconnectAttempts defaultConfig = 10
  /\ failing = [Connect; Failed]
  /\ dropping = [Connect; Streaming; Failed]
  /\ delays failing = [] /\ delays dropping = []
  /\ connects failing = 1%nat /\ connects dropping = 1%nat
  /\ is_settled failing = false /\ is_settled dropping = false
  /\ port_connected failing false = true
  /\ port_connected dropping false = true.
Proof. cbv zeta. repeat split. Qed.

End ReconnectClaims.

(* ===================================================================== *)
(** * 23. Routing                                                         *)
(* ===================================================================== *)

Module RouterFacts.
Import Router.

Lemma get_of_truthy v k k' :
  truthy (get_opt v k) = true -> get v k' = Returned (get_opt v k').
Proof. destruct v; cbn; intros H; try discriminate H; reflexivity. Qed.

(** The router of the merged stream upserts a message that has an id and
    marks its session as running. *)
Lemma routeEventToStore_message ev :
  type ev = "message.created" \/ type ev = "message.updated" ->
  truthy (get_opt (data ev) "id") = true ->
  routeEventToStore ev = Returned (UpsertMessage (data ev) :: runningSignal (data ev)).
Proof.
  intros Hty Hid. unfold routeEventToStore, runningSignal.
  rewrite (get_of_truthy _ _ "sessionID" Hid), Hid.
  destruct Hty as [-> | ->]; reflexivity.
Qed.

(** So it does for a part, bare or wrapped in a [part] property. *)
Lemma routeEventToStore_part ev :
  type ev = "part.created" \/ type ev = "part.updated" ->
  truthy (get_opt (data ev) "id") = true ->
  routeEventToStore ev = Returned (UpsertPart (data ev) :: runningSignal (data ev)).
Proof.
  intros Hty Hid. unfold routeEventToStore, runningSignal.
  destruct Hty as [-> | ->]; cbn [is_one_of existsb String.eqb Ascii.eqb Bool.eqb orb];
    rewrite (get_of_truthy _ _ "sessionID" Hid), Hid; reflexivity.
Qed.

Lemma routeEventToStore_wrapped_part ev part :
  type ev = "message.part.updated" ->
  get (data ev) "part" = Returned part ->
  truthy (get_opt part "id") = true ->
  routeEventToStore ev = Returned (UpsertPart part :: runningSignal part).
Proof.
  intros Hty Hpart Hid. unfold routeEventToStore, runningSignal.
  rewrite Hty. cbn [is_one_of existsb String.eqb Ascii.eqb Bool.eqb orb].
  rewrite Hpart, (get_of_truthy _ _ "sessionID" Hid), Hid. reflexivity.
Qed.

(** The handler of the primary connection upserts and stops there. *)
Lemma handleEvent_message ev :
  sse_type ev = "message.created" \/ sse_type ev = "message.updated" ->
  truthy (get_opt (sse_properties ev) "id") = true ->
  handleEvent ev
  = Returned [OnEvent "sse" (sse_type ev) (sse_properties ev);
              UpsertMessage (sse_properties ev)].
Proof.
  intros Hty Hid. unfold handleEvent. rewrite Hid.
  destruct Hty as [-> | ->]; reflexivity.
Qed.

Lemma handleEvent_part ev :
  sse_type ev = "part.created" \/ sse_type ev = "part.updated" ->
  truthy (get_opt (sse_properties ev) "id") = true ->
  handleEvent ev
  = Returned [OnEvent "sse" (sse_type ev) (sse_properties ev);
              UpsertPart (sse_properties ev)].
Proof.
  intros Hty Hid. unfold handleEvent. rewrite Hid.
  destruct Hty as [-> | ->]; reflexivity.
Qed.

Lemma handleEvent_wrapped_part ev :
  sse_type ev = "message.part.updated" ->
  handleEvent ev = Returned [OnEvent "sse" (sse_type ev) (sse_properties ev)].
Proof. intros Hty. unfold handleEvent. rewrite Hty. reflexivity. Qed.

(** C5. A message.updated event with an id and a sessionID, and a part
    in the wrapped form: the router of the merged stream upserts and
    signals running; WorldSSE.handleEvent upserts the message without the
    signal and makes no store call for the wrapped part. *)
Theorem handleEvent_omits_running_signal :
  routeEventToStore
    {| source := "swarm-db"; type := "message.updated"; data := Sample.message_json |}
  = Returned [UpsertMessage Sample.message_json; Sample.running_signal]
  /\ handleEvent
       {| sse_type := "message.updated"; sse_properties := Sample.message_json |}
     = Returned [OnEvent "sse" "message.updated" Sample.message_json;
                 UpsertMessage Sample.message_json]
  /\ routeEventToStore
       {| source := "swarm-db"; type := "message.part.updated";
          data := Sample.wrapped_part_json |}
     = Returned [UpsertPart Sample.part_json; Sample.running_signal]
  /\ handleEvent
       {| sse_type := "message.part.updated";
          sse_properties := Sample.wrapped_part_json |}
     = Returned [OnEvent "sse" "message.part.updated" Sample.wrapped_part_json].
Proof. repeat split. Qed.

End RouterFacts.
(* ===================================================================== *)
(** * 24. Merging event sources                                           *)
(* ===================================================================== *)

Module MergedFacts.
Import Router Merged.

Section Facts.
Context {E : Type}.
Implicit Types (sources : list (EventSource E)) (ss : list (list E)) (out : list E)
  (rs : list (Run E)).

(** A probe that is returned never fails the check built around it. *)
Lemma availabilityCheck_answers (source : EventSource E) probe :
  available source = Returned probe ->
  availabilityCheck source = Returned (Success (source, is_available source)).
Proof.
  intros H. unfold availabilityCheck, is_available. rewrite H.
  destruct probe as [[|]| |]; reflexivity.
Qed.

Lemma availabilityCheck_throws (source : EventSource E) :
  available source = Thrown -> availabilityCheck source = Thrown.
Proof. intros H. unfold availabilityCheck. rewrite H. reflexivity. Qed.

Lemma calls_checks sources :
  Forall (fun s => exists probe, available s = Returned probe) sources ->
  calls (List.map availabilityCheck sources)
  = Returned (List.map (fun s => Success (s, is_available s)) sources).
Proof.
  induction 1 as [|s r [probe Hs] _ IH]; [reflexivity|].
  cbn [List.map calls]. rewrite (availabilityCheck_answers s probe Hs), IH.
  reflexivity.
Qed.

Lemma all_checks sources :
  all (List.map (fun s => Success (s, is_available s)) sources)
  = Success (List.map (fun s => (s, is_available s)) sources).
Proof.
  induction sources as [|s r IH]; [reflexivity|].
  cbn [List.map all flatMap]. rewrite IH. reflexivity.
Qed.

Lemma available_sources sources :
  List.map fst (List.filter snd (List.map (fun s => (s, is_available s)) sources))
  = List.filter is_available sources.
Proof.
  induction sources as [|s r IH]; [reflexivity|].
  cbn [List.map List.filter snd]. destruct (is_available s); cbn [List.map fst];
    rewrite IH; reflexivity.
Qed.

Lemma calls_streams (av : list (EventSource E)) :
  Forall (fun s => exists run, stream_of s = Returned run) av ->
  calls (List.map stream_of av) = Returned (List.map run_of av).
Proof.
  induction 1 as [|s r [run Hs] _ IH]; [reflexivity|].
  cbn [List.map calls]. unfold run_of at 1. rewrite Hs, IH. reflexivity.
Qed.

(** With sources that answer, [stream()] builds a stream: the merge of
    the available sources, or the empty stream when there is none. *)
Lemma stream_answers sources :
  Forall answers sources ->
  stream sources
  = Returned (Success (match List.filter is_available sources with
                       | [] => Empty
                       | av => MergeAll (List.map run_of av)
                       end)).
Proof.
  intros H. unfold stream.
  rewrite calls_checks by (eapply Forall_impl; [exact H | intros s [Hs _]; exact Hs]).
  rewrite all_checks. cbn [flatMap]. rewrite available_sources.
  assert (Forall (fun s => exists run, stream_of s = Returned run)
            (List.filter is_available sources)) as Hav.
  { apply Forall_forall. intros s Hs.
    apply list_elem_of_In, List.filter_In in Hs as [Hin Hs].
    rewrite Forall_forall in H. apply (H s); [apply list_elem_of_In, Hin | exact Hs]. }
  rewrite calls_streams by exact Hav.
  destruct (List.filter is_available sources); reflexivity.
Qed.

(** A probe that throws when it is called makes [stream()] throw. *)
Lemma stream_throws sources :
  Exists (fun s => available s = Thrown) sources -> stream sources = Thrown.
Proof.
  intros H. unfold stream.
  assert (calls (List.map availabilityCheck sources) = Thrown) as ->; [|reflexivity].
  induction H as [s r Hs | s r _ IH]; cbn [List.map calls].
  - rewrite (availabilityCheck_throws s Hs). reflexivity.
  - rewrite IH. destruct (availabilityCheck s); reflexivity.
Qed.

(** ** Interleavings *)

Lemma concat_all_nil ss : Forall (fun s => s = []) ss -> concat ss = [].
Proof. induction 1 as [|s r -> _ IH]; [reflexivity | exact IH]. Qed.

Lemma interleaves_permutation ss out :
  Interleaves ss out -> Permutation out (concat ss).
Proof.
  induction 1 as [ss H | pre x s post out _ IH].
  - rewrite concat_all_nil by exact H. constructor.
  - rewrite concat_app in *. cbn [concat] in *. cbn [app].
    apply Permutation_cons_app. exact IH.
Qed.

(** Every list is delivered in its own order. *)
Lemma interleaves_sublist ss out :
  Interleaves ss out -> forall s, s ∈ ss -> sublist s out.
Proof.
  induction 1 as [ss H | pre x s post out _ IH]; intros s' Hin.
  - rewrite Forall_forall in H. rewrite (H s' Hin). apply sublist_nil_l.
  - rewrite elem_of_app, elem_of_cons in Hin.
    destruct Hin as [Hin | [-> | Hin]].
    + apply sublist_cons, IH. rewrite elem_of_app. auto.
    + apply sublist_skip, IH. rewrite elem_of_app, elem_of_cons. auto.
    + apply sublist_cons, IH. rewrite elem_of_app, elem_of_cons. auto.
Qed.

(** ** Runs of the merged stream *)

(** When every stream ends well, so does the merge, and it delivers an
    interleaving of all their events. *)
Lemma merges_end_well rs out exit :
  Merges rs out exit -> Forall ends_well rs ->
  exit = Success tt /\ Interleaves (events <$> rs) out.
Proof.
  induction 1 as [rs H | pre x evs e post out exit _ IH | pre r post He Hr]; intros Hall.
  - split; [reflexivity|]. apply interleaves_done.
    apply Forall_fmap. eapply Forall_impl; [exact H|]. intros r [Hr _]. exact Hr.
  - destruct IH as [-> IH].
    { apply Forall_app in Hall as [Hpre Hpost]. apply Forall_cons in Hpost as [Hx Hpost].
      apply Forall_app. split; [exact Hpre|]. apply Forall_cons. split; [exact Hx | exact Hpost]. }
    split; [reflexivity|].
    rewrite fmap_app, fmap_cons in *. cbn [events] in *.
    apply interleaves_emit, IH.
  - apply Forall_app in Hall as [_ Hpost]. apply Forall_cons in Hpost as [Hx _].
    contradiction.
Qed.


(** In any case the merge delivers an interleaving of a beginning of
    each stream, and when it does not end well, neither did one of the
    streams. *)
Lemma merges_delivered rs out exit :
  Merges rs out exit ->
  exists delivered,
    Forall2 (fun d r => d `prefix_of` events r) delivered rs
    /\ Interleaves delivered out
    /\ (exit <> Success tt -> exists r, r ∈ rs /\ ending r = exit).
Proof.
  induction 1 as [rs H | pre x evs e post out exit _ IH | pre r post He Hr].
  - exists ((fun _ => []) <$> rs). split; [|split].
    + apply Forall2_fmap_l, Forall_Forall2_diag, Forall_forall.
      intros r _. apply prefix_nil.
    + apply interleaves_done, Forall_fmap, Forall_forall. reflexivity.
    + congruence.
  - destruct IH as (delivered & Hp & Hi & Hx).
    apply Forall2_app_inv_r in Hp as (dpre & drest & Hpre & Hrest & ->).
    apply Forall2_cons_inv_r in Hrest as (d & dpost & Hd & Hpost & ->).
    exists (dpre ++ (x :: d) :: dpost). split; [|split].
    + apply Forall2_app; [exact Hpre|]. constructor; [|exact Hpost].
      cbn [events] in *. apply prefix_cons, Hd.
    + apply interleaves_emit, Hi.
    + intros Hne. destruct (Hx Hne) as (r & Hin & Hr).
      rewrite elem_of_app, elem_of_cons in Hin.
      destruct Hin as [Hin | [-> | Hin]].
      * exists r. split; [|exact Hr]. rewrite elem_of_app. auto.
      * exists {| events := x :: evs; ending := e |}. split; [|exact Hr].
        rewrite elem_of_app, elem_of_cons. auto.
      * exists r. split; [|exact Hr]. rewrite elem_of_app, elem_of_cons. auto.
  - exists ((fun _ => []) <$> (pre ++ r :: post)). split; [|split].
    + apply Forall2_fmap_l, Forall_Forall2_diag, Forall_forall.
      intros r' _. apply prefix_nil.
    + apply interleaves_done, Forall_fmap, Forall_forall. reflexivity.
    + intros _. exists r. split; [|reflexivity].
      rewrite elem_of_app, elem_of_cons. auto.
Qed.





(** The runs of the stream that [stream()] builds of sources that
    answer are the runs of the merge of the available ones. *)
Lemma yields_merges (av : list (EventSource E)) out exit :
  yields (match av with
          | [] => Empty
          | s :: l => MergeAll (List.map run_of (s :: l))
          end) out exit ->
  Merges (run_of <$> av) out exit.
Proof.
  destruct av as [|s av]; [|exact id].
  intros [-> ->]. apply merges_done. constructor.
Qed.

End Facts.


(** Of five sources, the two healthy ones are merged. *)
Example merge_mixed_sources :
  Merged.stream Sample.mixed_sources
  = Returned
      (Success
         (MergeAll
            [ {| events := [Sample.source_event "swarm-db" "a";
                            Sample.source_event "swarm-db" "b"];
                 ending := Success tt |};
              {| events := [Sample.source_event "log" "c"]; ending := Success tt |} ])).
Proof. reflexivity. Qed.

End MergedFacts.


(* ===================================================================== *)
(** * 25. The cursor store                                                *)
(* ===================================================================== *)

Module CursorStoreFacts.
Import CursorStore.

Lemma loadCursor_lookup key (db : Table) :
  loadCursor Resolves key db
  = match db !! key with
    | None => Ok None
    | Some row =>
        if safe_integer (row_timestamp row)
        then Ok (Some {| offset := row_offset row; timestamp := row_timestamp row;
                         projectKey := key |})
        else Err "Failed to load cursor"
    end.
Proof.
  unfold loadCursor, select_rows. destruct (db !! key) as [row|]; [|reflexivity].
  cbn [forallb snd]. rewrite andb_true_r.
  destruct (safe_integer (row_timestamp row)); reflexivity.
Qed.

Lemma load_after_save t c (db : Table) :
  safe_integer (timestamp c) = true ->
  loadCursor Resolves (projectKey c) (snd (saveCursor Resolves t c db)) = Ok (Some c).
Proof.
  intros Hc. rewrite loadCursor_lookup. cbn [saveCursor snd]. unfold upsert_row.
  rewrite lookup_insert_eq. cbn [row_timestamp]. rewrite Hc. destruct c; reflexivity.
Qed.

(** A timestamp that is not a safe integer is saved and cannot be read. *)
Lemma load_after_unsafe_save t c (db : Table) :
  safe_integer (timestamp c) = false ->
  loadCursor Resolves (projectKey c) (snd (saveCursor Resolves t c db))
  = Err "Failed to load cursor".
Proof.
  intros Hc. rewrite loadCursor_lookup. cbn [saveCursor snd]. unfold upsert_row.
  rewrite lookup_insert_eq. cbn [row_timestamp]. rewrite Hc. reflexivity.
Qed.

Lemma load_other_key t c key (db : Table) :
  key <> projectKey c ->
  loadCursor Resolves key (snd (saveCursor Resolves t c db))
  = loadCursor Resolves key db.
Proof.
  intros H. rewrite !loadCursor_lookup. cbn [saveCursor snd]. unfold upsert_row.
  rewrite lookup_insert_ne by congruence. reflexivity.
Qed.

(** A key that no save of the history names is absent from the table. *)
Lemma never_saved key (history : list Mutation) : forall db : Table,
  db !! key = None ->
  Forall (fun w => match w with Save _ c => projectKey c <> key | Delete _ => True end)
    history ->
  fold_left apply_write history db !! key = None.
Proof.
  induction history as [|w history IH]; intros db Hdb Hh; [exact Hdb|].
  inversion Hh as [|? ? Hw Hrest]; subst. cbn [fold_left]. apply IH; [|exact Hrest].
  destruct w as [t c | k]; cbn [apply_write saveCursor deleteCursor snd].
  - unfold upsert_row. rewrite lookup_insert_ne by exact Hw. exact Hdb.
  - destruct (decide (k = key)) as [->|Hne].
    + apply lookup_delete_eq.
    + rewrite lookup_delete_ne by exact Hne. exact Hdb.
Qed.

(** C9 (amended). Whatever the table holds, for a cursor whose
    timestamp is a safe integer (below 2^53 in absolute value): a save
    that succeeds is read back as the cursor saved, with the same
    projectKey, offset and timestamp; a second save under the same key
    replaces the first, and saving the same cursor again changes
    nothing that is read; the cursors of other keys are read as before;
    a key no save has named loads as null; and when the database call
    is rejected, save and load end in an error, the table unchanged. *)
Theorem cursor_round_trip (db : Table) (c : StreamCursor) (t : Z) :
  safe_integer (timestamp c) = true ->
  fst (saveCursor Resolves t c db) = Ok tt
  /\ loadCursor Resolves (projectKey c) (snd (saveCursor Resolves t c db)) = Ok (Some c)
  /\ (forall t' c',
        projectKey c' = projectKey c -> safe_integer (timestamp c') = true ->
        loadCursor Resolves (projectKey c)
          (snd (saveCursor Resolves t' c' (snd (saveCursor Resolves t c db))))
        = Ok (Some c'))
  /\ (forall t' key,
        loadCursor Resolves key
          (snd (saveCursor Resolves t' c (snd (saveCursor Resolves t c db))))
        = loadCursor Resolves key (snd (saveCursor Resolves t c db)))
  /\ (forall key,
        key <> projectKey c ->
        loadCursor Resolves key (snd (saveCursor Resolves t c db))
        = loadCursor Resolves key db)
  /\ (forall key (history : list Mutation),
        Forall (fun w => match w with
                         | Save _ c' => projectKey c' <> key
                         | Delete _ => True
                         end) history ->
        loadCursor Resolves key (fold_left apply_write history ∅) = Ok None)
  /\ (exists message, saveCursor Rejects t c db = (Err message, db))
  /\ (forall key, exists message, loadCursor Rejects key db = Err message).
Proof.
  intros Hc.
  split; [reflexivity|]. split; [apply load_after_save, Hc|]. split.
  { intros t' c' Hk Hc'. rewrite <- Hk. apply load_after_save, Hc'. }
  split.
  { intros t' key. destruct (decide (key = projectKey c)) as [->|Hne].
    - rewrite !load_after_save by exact Hc. reflexivity.
    - rewrite load_other_key by exact Hne. reflexivity. }
  split; [intros key Hne; apply load_other_key, Hne|]. split.
  { intros key history Hh. rewrite loadCursor_lookup.
    rewrite (never_saved key history ∅ (lookup_empty key) Hh). reflexivity. }
  split; [eexists; reflexivity | intros key; eexists; reflexivity].
Qed.

End CursorStoreFacts.

(** A cursor of project /test saved over an empty table. *)
Lemma cursor_round_trip_witness :
  let c := {| CursorStore.offset := "0000000042";
              CursorStore.timestamp := 1700000000000;
              CursorStore.projectKey := "/test" |} in
  CursorStore.safe_integer (CursorStore.timestamp c) = true
  /\ CursorStore.loadCursor CursorStore.Resolves "/test"
       (snd (CursorStore.saveCursor CursorStore.Resolves 1700000000 c ∅))
     = CursorStore.Ok (Some c).
Proof.
  cbv zeta. split; [reflexivity|].
  apply (CursorStoreFacts.cursor_round_trip ∅
           {| CursorStore.offset := "0000000042";
              CursorStore.timestamp := 1700000000000;
              CursorStore.projectKey := "/test" |} 1700000000 eq_refl).
Defined.

(** C9, as stated, fails for a cursor whose timestamp is 2^53: the save
    succeeds, and the load of its key ends in an error instead of the
    cursor. *)
Lemma unsafe_timestamp_is_not_read_back :
  let c := {| CursorStore.offset := "0000000042";
              CursorStore.timestamp := 2 ^ 53;
              CursorStore.projectKey := "/test" |} in
  fst (CursorStore.saveCursor CursorStore.Resolves 1700000000 c ∅) = CursorStore.Ok tt
  /\ CursorStore.loadCursor CursorStore.Resolves (CursorStore.projectKey c)
       (snd (CursorStore.saveCursor CursorStore.Resolves 1700000000 c ∅))
     = CursorStore.Err "Failed to load cursor"
  /\ CursorStore.loadCursor CursorStore.Resolves (CursorStore.projectKey c)
       (snd (CursorStore.saveCursor CursorStore.Resolves 1700000000 c ∅))
     <> CursorStore.Ok (Some c).
Proof.
  cbv zeta. split; [reflexivity|].
  assert (CursorStore.loadCursor CursorStore.Resolves "/test"
            (snd (CursorStore.saveCursor CursorStore.Resolves 1700000000
                    {| CursorStore.offset := "0000000042";
                       CursorStore.timestamp := 2 ^ 53;
                       CursorStore.projectKey := "/test" |} ∅))
          = CursorStore.Err "Failed to load cursor") as E.
  { apply (CursorStoreFacts.load_after_unsafe_save 1700000000
             {| CursorStore.offset := "0000000042";
                CursorStore.timestamp := 2 ^ 53;
                CursorStore.projectKey := "/test" |} ∅).
    reflexivity. }
  cbn [CursorStore.projectKey]. rewrite E. split; [reflexivity | discriminate].
Qed.

(* ===================================================================== *)
(** * 26. Arrays sorted by id                                             *)
(* ===================================================================== *)

Module OrderFacts.
Import World.

Lemma ascii_compare_refl c : Ascii.compare c c = Eq.
Proof. apply N.compare_refl. Qed.

Lemma compare_refl s : String.compare s s = Eq.
Proof.
  induction s as [|c s IH]; [reflexivity|].
  cbn [String.compare]. rewrite ascii_compare_refl. exact IH.
Qed.

Lemma compare_eq s t : String.compare s t = Eq <-> s = t.
Proof.
  split; [apply String.compare_eq_iff | intros ->; apply compare_refl].
Qed.

Lemma compare_gt_lt s t : String.compare s t = Gt <-> String.compare t s = Lt.
Proof.
  rewrite (String.compare_antisym t s).
  destruct (String.compare s t); cbn; split; congruence.
Qed.

Lemma compare_lt_trans s : forall t u,
  String.compare s t = Lt -> String.compare t u = Lt -> String.compare s u = Lt.
Proof.
  induction s as [|a s IH]; intros [|b t] [|c u]; cbn [String.compare];
    try discriminate; try reflexivity.
  unfold Ascii.compare.
  destruct (N.compare_spec (N_of_ascii a) (N_of_ascii b)) as [E1|L1|G1];
    try discriminate;
    destruct (N.compare_spec (N_of_ascii b) (N_of_ascii c)) as [E2|L2|G2];
    try discriminate; intros H1 H2.
  - rewrite E1, E2, N.compare_refl. eapply IH; eassumption.
  - rewrite E1. apply N.compare_lt_iff in L2. rewrite L2. reflexivity.
  - rewrite <- E2. apply N.compare_lt_iff in L1. rewrite L1. reflexivity.
  - assert (N_of_ascii a < N_of_ascii c)%N as L by lia.
    apply N.compare_lt_iff in L. rewrite L. reflexivity.
Qed.

Lemma id_lt_irrefl a : ~ id_lt a a.
Proof. unfold id_lt. rewrite compare_refl. discriminate. Qed.

Lemma id_lt_trans a b c : id_lt a b -> id_lt b c -> id_lt a c.
Proof. apply compare_lt_trans. Qed.

Lemma id_lt_asym a b : id_lt a b -> ~ id_lt b a.
Proof. intros H1 H2. apply (id_lt_irrefl a). eapply id_lt_trans; eassumption. Qed.

Lemma id_lt_neq a b : id_lt a b -> a <> b.
Proof. intros H ->. exact (id_lt_irrefl _ H). Qed.

Lemma id_leb_lt a b : a <> b -> id_leb a b = true -> id_lt a b.
Proof.
  unfold id_leb, String.leb, id_lt. intros Hne.
  destruct (String.compare a b) eqn:E; try discriminate; [|reflexivity].
  apply compare_eq in E. contradiction.
Qed.

Lemma id_leb_gt a b : id_leb a b = false -> id_lt b a.
Proof.
  unfold id_leb, String.leb, id_lt.
  destruct (String.compare a b) eqn:E; try discriminate.
  intros _. apply compare_gt_lt, E.
Qed.

Lemma eqb_sym_false a b : String.eqb a b = false -> String.eqb b a = false.
Proof. rewrite String.eqb_sym. auto. Qed.

End OrderFacts.

Module SortedFacts.
Import World OrderFacts.

Section Facts.
Context {A : Type} (key : A -> string).
Implicit Types (arr l : list A) (x y z : A).

Lemma ascending_cons x l :
  ascending key (x :: l) <->
  Forall (fun y => id_lt (key x) (key y)) l /\ ascending key l.
Proof. apply StronglySorted_cons. Qed.

Lemma ascending_lookup arr : forall i j x y,
  ascending key arr -> (i < j)%nat ->
  arr !! i = Some x -> arr !! j = Some y -> id_lt (key x) (key y).
Proof.
  induction arr as [|z r IH]; intros i j x y Hs Hij Hi Hj; [discriminate Hi|].
  apply ascending_cons in Hs as [Hz Hr].
  destruct j as [|j]; [lia|]. cbn [lookup list_lookup] in Hj.
  destruct i as [|i].
  - injection Hi as <-. rewrite Forall_forall in Hz. apply Hz.
    eapply list_elem_of_lookup_2, Hj.
  - cbn [lookup list_lookup] in Hi. apply (IH i j); (assumption || lia).
Qed.

Lemma ascending_NoDup l : ascending key l -> NoDup (key <$> l).
Proof.
  induction l as [|x l IH]; intros Hs; [constructor|].
  apply ascending_cons in Hs as [Hx Hl]. rewrite fmap_cons. constructor; [|auto].
  intros Hin. apply list_elem_of_fmap in Hin as (y & Ey & Hy).
  rewrite Forall_forall in Hx. specialize (Hx y Hy). rewrite Ey in Hx.
  exact (id_lt_irrefl _ Hx).
Qed.

(** Two ascending arrays with the same entities are the same array. *)
Lemma ascending_unique l1 l2 :
  ascending key l1 -> ascending key l2 -> l1 ≡ₚ l2 -> l1 = l2.
Proof.
  apply StronglySorted_unique_strong.
  intros x1 x2 _ _ H1 H2. destruct (id_lt_asym _ _ H1 H2).
Qed.

(** ** The binary search *)

Lemma halfway lo hi : (lo < hi)%nat -> (lo <= (lo + hi) / 2 < hi)%nat.
Proof.
  intros H. pose proof (Nat.div_mod_eq (lo + hi) 2) as E.
  pose proof (Nat.mod_upper_bound (lo + hi) 2 ltac:(lia)). lia.
Qed.

Lemma search_spec arr id :
  ascending key arr ->
  forall fuel lo hi,
    (lo <= hi <= length arr)%nat -> (hi - lo <= fuel)%nat ->
    (forall j y, (j < lo)%nat -> arr !! j = Some y -> id_lt (key y) id) ->
    (forall j y, (hi <= j)%nat -> arr !! j = Some y -> id_lt id (key y)) ->
    match search key fuel arr id lo hi with
    | Found i => exists y, arr !! i = Some y /\ key y = id
    | Missing i =>
        (i <= length arr)%nat
        /\ (forall j y, (j < i)%nat -> arr !! j = Some y -> id_lt (key y) id)
        /\ (forall j y, (i <= j)%nat -> arr !! j = Some y -> id_lt id (key y))
    end.
Proof.
  intros Hs. induction fuel as [|fuel IH]; intros lo hi Hr Hf Hlo Hhi.
  - cbn [search]. assert (hi = lo) as -> by lia. split; [lia | auto].
  - cbn [search]. destruct (Nat.leb_spec hi lo) as [Hle|Hlt].
    + assert (hi = lo) as -> by lia. split; [lia | auto].
    + pose proof (halfway lo hi Hlt) as Hmid.
      set (mid := ((lo + hi) / 2)%nat) in *.
      destruct (arr !! mid) as [x|] eqn:Ex.
      2:{ apply lookup_ge_None in Ex. lia. }
      destruct (String.compare (key x) id) eqn:Ec.
      * exists x. split; [exact Ex | apply compare_eq, Ec].
      * apply IH; [lia | lia | | exact Hhi].
        intros j y Hj Hy. destruct (Nat.eq_dec j mid) as [->|Hne].
        -- rewrite Ex in Hy. injection Hy as <-. exact Ec.
        -- eapply id_lt_trans; [|exact Ec].
           apply (ascending_lookup arr j mid); (assumption || lia).
      * apply IH; [lia | lia | exact Hlo |].
        apply compare_gt_lt in Ec.
        intros j y Hj Hy. destruct (Nat.eq_dec j mid) as [->|Hne].
        -- rewrite Ex in Hy. injection Hy as <-. exact Ec.
        -- eapply id_lt_trans; [exact Ec|].
           apply (ascending_lookup arr mid j); (assumption || lia).
Qed.

Lemma binarySearch_spec arr id :
  ascending key arr ->
  match binarySearch key arr id with
  | Found i => exists y, arr !! i = Some y /\ key y = id
  | Missing i =>
      (i <= length arr)%nat
      /\ (forall j y, (j < i)%nat -> arr !! j = Some y -> id_lt (key y) id)
      /\ (forall j y, (i <= j)%nat -> arr !! j = Some y -> id_lt id (key y))
  end.
Proof.
  intros Hs. unfold binarySearch. apply search_spec; try assumption; try lia.
  intros j y Hj Hy. apply lookup_lt_Some in Hy. lia.
Qed.

(** ** Upsert through the binary search is the linear upsert *)

Lemma replace_linear x arr : forall i y,
  ascending key arr -> arr !! i = Some y -> key y = key x ->
  <[ i := x ]> arr = upsert_linear key x arr.
Proof.
  induction arr as [|z r IH]; intros i y Hs Hi Hk; [discriminate Hi|].
  apply ascending_cons in Hs as [Hz Hr]. cbn [upsert_linear].
  destruct i as [|i]; cbn [lookup list_lookup] in Hi.
  - injection Hi as ->. rewrite <- Hk, compare_refl. reflexivity.
  - rewrite Forall_forall in Hz.
    assert (id_lt (key z) (key x)) as Hlt.
    { rewrite <- Hk. apply Hz. eapply list_elem_of_lookup_2, Hi. }
    apply compare_gt_lt in Hlt. rewrite Hlt.
    cbn [insert list_insert]. f_equal. apply (IH i y); assumption.
Qed.

Lemma splice_linear x arr : forall i,
  (i <= length arr)%nat ->
  (forall j y, (j < i)%nat -> arr !! j = Some y -> id_lt (key y) (key x)) ->
  (forall j y, (i <= j)%nat -> arr !! j = Some y -> id_lt (key x) (key y)) ->
  take i arr ++ x :: drop i arr = upsert_linear key x arr.
Proof.
  induction arr as [|z r IH]; intros i Hi Hlo Hhi.
  - destruct i; reflexivity.
  - cbn [upsert_linear]. destruct i as [|i].
    + rewrite (Hhi 0%nat z ltac:(lia) eq_refl). reflexivity.
    + pose proof (Hlo 0%nat z ltac:(lia) eq_refl) as Hlt.
      apply compare_gt_lt in Hlt. rewrite Hlt.
      cbn [take drop app]. f_equal. apply IH.
      * cbn [length] in Hi. lia.
      * intros j y Hj Hy. apply (Hlo (S j)); [lia | exact Hy].
      * intros j y Hj Hy. apply (Hhi (S j)); [lia | exact Hy].
Qed.

Lemma upsert_is_linear x arr :
  ascending key arr -> upsert key x arr = upsert_linear key x arr.
Proof.
  intros Hs. unfold upsert.
  pose proof (binarySearch_spec arr (key x) Hs) as H.
  destruct (binarySearch key arr (key x)) as [i|i].
  - destruct H as (y & Hy & Hk). apply (replace_linear x arr i y); assumption.
  - destruct H as (Hi & Hlo & Hhi). apply splice_linear; assumption.
Qed.

End Facts.
End SortedFacts.

Module UpsertFacts.
Import World OrderFacts SortedFacts.

Section Facts.
Context {A : Type} (key : A -> string).
Implicit Types (arr l : list A) (x y z : A).

Lemma others_elem x l z : z ∈ others key x l <-> z ∈ l /\ key z <> key x.
Proof.
  unfold others. rewrite list_elem_of_In, List.filter_In, <- list_elem_of_In.
  rewrite negb_true_iff, String.eqb_neq. reflexivity.
Qed.

Lemma others_all x l : (forall y, y ∈ l -> key y <> key x) -> others key x l = l.
Proof.
  induction l as [|y l IH]; intros H; [reflexivity|].
  unfold others in *. cbn [List.filter].
  destruct (String.eqb_spec (key y) (key x)) as [E|_].
  - destruct (H y); [left | exact E].
  - cbn [negb]. f_equal. apply IH. intros z Hz. apply H. right. exact Hz.
Qed.

Lemma others_cons_same x y l : key y = key x -> others key x (y :: l) = others key x l.
Proof.
  intros E. unfold others. cbn [List.filter]. rewrite E, String.eqb_refl. reflexivity.
Qed.

Lemma others_cons_other x y l :
  key y <> key x -> others key x (y :: l) = y :: others key x l.
Proof.
  intros E. unfold others. cbn [List.filter].
  apply String.eqb_neq in E. rewrite E. reflexivity.
Qed.

Lemma filter_Permutation (f : A -> bool) l l' :
  l ≡ₚ l' -> List.filter f l ≡ₚ List.filter f l'.
Proof.
  induction 1 as [|x l l' _ IH|x y l|l l' l'' _ IH1 _ IH2]; cbn [List.filter].
  - constructor.
  - destruct (f x); [constructor|]; exact IH.
  - destruct (f x), (f y); try reflexivity. apply perm_swap.
  - etransitivity; eassumption.
Qed.

Lemma others_NoDup x l : NoDup (key <$> l) -> NoDup (key <$> others key x l).
Proof.
  induction l as [|y l IH]; intros H; [constructor|].
  rewrite fmap_cons in H. apply NoDup_cons in H as [Hy Hl].
  destruct (String.eqb_spec (key y) (key x)) as [E|E].
  - rewrite others_cons_same by exact E. auto.
  - rewrite others_cons_other by exact E. rewrite fmap_cons.
    apply NoDup_cons. split; [|auto].
    intros Hin. apply Hy. apply list_elem_of_fmap in Hin as (z & Ez & Hz).
    apply others_elem in Hz as [Hz _]. apply list_elem_of_fmap. eauto.
Qed.

(** ** The linear upsert *)

Lemma upsert_linear_perm x arr :
  ascending key arr -> upsert_linear key x arr ≡ₚ x :: others key x arr.
Proof.
  induction arr as [|z r IH]; intros Hs; [reflexivity|].
  apply ascending_cons in Hs as [Hz Hr]. rewrite Forall_forall in Hz.
  cbn [upsert_linear]. destruct (String.compare (key x) (key z)) eqn:Ec.
  - apply compare_eq in Ec. rewrite others_cons_same by congruence.
    rewrite others_all; [reflexivity|].
    intros y Hy. rewrite Ec. apply not_eq_sym, id_lt_neq, Hz, Hy.
  - rewrite others_all; [reflexivity|].
    intros y Hy. apply not_eq_sym, id_lt_neq.
    apply elem_of_cons in Hy as [-> | Hy]; [exact Ec|].
    eapply id_lt_trans; [exact Ec | apply Hz, Hy].
  - apply compare_gt_lt in Ec.
    rewrite others_cons_other by (apply id_lt_neq, Ec).
    rewrite (IH Hr). apply perm_swap.
Qed.

Lemma upsert_linear_ascending x arr :
  ascending key arr -> ascending key (upsert_linear key x arr).
Proof.
  induction arr as [|z r IH]; intros Hs.
  - cbn. apply ascending_cons. split; constructor.
  - pose proof Hs as Hs'. apply ascending_cons in Hs' as [Hz Hr].
    rewrite Forall_forall in Hz.
    cbn [upsert_linear]. destruct (String.compare (key x) (key z)) eqn:Ec.
    + apply compare_eq in Ec. apply ascending_cons. split; [|exact Hr].
      apply Forall_forall. intros y Hy. rewrite Ec. apply Hz, Hy.
    + apply ascending_cons. split; [|exact Hs].
      apply Forall_forall. intros y Hy.
      apply elem_of_cons in Hy as [-> | Hy]; [exact Ec|].
      eapply id_lt_trans; [exact Ec | apply Hz, Hy].
    + apply compare_gt_lt in Ec. apply ascending_cons. split; [|apply IH, Hr].
      apply Forall_forall. intros y Hy.
      rewrite (upsert_linear_perm x r Hr) in Hy.
      apply elem_of_cons in Hy as [-> | Hy]; [exact Ec|].
      apply others_elem in Hy as [Hy _]. apply Hz, Hy.
Qed.

Lemma upsert_perm x arr :
  ascending key arr -> upsert key x arr ≡ₚ x :: others key x arr.
Proof. intros Hs. rewrite upsert_is_linear by exact Hs. apply upsert_linear_perm, Hs. Qed.

Lemma upsert_ascending x arr : ascending key arr -> ascending key (upsert key x arr).
Proof.
  intros Hs. rewrite upsert_is_linear by exact Hs. apply upsert_linear_ascending, Hs.
Qed.

Lemma upsert_elem x arr z :
  ascending key arr ->
  (z ∈ upsert key x arr <-> z = x \/ (z ∈ arr /\ key z <> key x)).
Proof.
  intros Hs. rewrite (upsert_perm x arr Hs), elem_of_cons, others_elem. reflexivity.
Qed.

(** ** The sort of bulk replace *)

Lemma insert_by_perm x l : insert_by key x l ≡ₚ x :: l.
Proof.
  induction l as [|y l IH]; [reflexivity|]. cbn [insert_by].
  destruct (id_leb (key x) (key y)); [reflexivity|].
  rewrite IH. apply perm_swap.
Qed.

Lemma sortById_perm l : sortById key l ≡ₚ l.
Proof.
  induction l as [|x l IH]; [reflexivity|].
  unfold sortById in *. cbn [fold_right]. rewrite insert_by_perm, IH. reflexivity.
Qed.

Lemma insert_by_ascending x l :
  ascending key l -> (forall y, y ∈ l -> key y <> key x) ->
  ascending key (insert_by key x l).
Proof.
  induction l as [|y l IH]; intros Hs Hne.
  - cbn. apply ascending_cons. split; constructor.
  - pose proof Hs as Hs'. apply ascending_cons in Hs' as [Hy Hl].
    rewrite Forall_forall in Hy. cbn [insert_by].
    assert (key x <> key y) as Hxy by (apply not_eq_sym, Hne; left).
    destruct (id_leb (key x) (key y)) eqn:El.
    + apply (id_leb_lt _ _ Hxy) in El. apply ascending_cons. split; [|exact Hs].
      apply Forall_forall. intros z Hz.
      apply elem_of_cons in Hz as [-> | Hz]; [exact El|].
      eapply id_lt_trans; [exact El | apply Hy, Hz].
    + apply id_leb_gt in El. apply ascending_cons. split.
      * apply Forall_forall. intros z Hz. rewrite insert_by_perm in Hz.
        apply elem_of_cons in Hz as [-> | Hz]; [exact El | apply Hy, Hz].
      * apply IH; [exact Hl|]. intros z Hz. apply Hne. right. exact Hz.
Qed.

Lemma sortById_ascending l : NoDup (key <$> l) -> ascending key (sortById key l).
Proof.
  induction l as [|x l IH]; intros Hn; [constructor|].
  rewrite fmap_cons in Hn. apply NoDup_cons in Hn as [Hx Hl].
  change (sortById key (x :: l)) with (insert_by key x (sortById key l)).
  apply insert_by_ascending; [apply IH, Hl|].
  intros y Hy E. apply Hx. rewrite sortById_perm in Hy.
  apply list_elem_of_fmap. eauto.
Qed.

(** ** The final entities of a sequence of writes *)

Lemma final_snoc l x : final key (l ++ [x]) = others key x (final key l) ++ [x].
Proof. unfold final. rewrite fold_left_app. reflexivity. Qed.

Lemma final_NoDup l : NoDup (key <$> final key l).
Proof.
  induction l as [|x l IH] using rev_ind; [constructor|].
  rewrite final_snoc, fmap_app. apply NoDup_app. split; [|split].
  - apply others_NoDup, IH.
  - intros k Hk Hx. cbn in Hx. apply list_elem_of_singleton in Hx as ->.
    apply list_elem_of_fmap in Hk as (z & Ez & Hz).
    apply others_elem in Hz as [_ Hz]. congruence.
  - cbn. apply NoDup_singleton.
Qed.

(** A sequence of upserts from the empty array leaves the final entities,
    ascending. *)
Lemma upserts_final writes :
  let arr := fold_left (fun acc x => upsert key x acc) writes [] in
  ascending key arr /\ arr ≡ₚ final key writes.
Proof.
  induction writes as [|x l IH] using rev_ind; cbv zeta.
  - split; [constructor | reflexivity].
  - cbv zeta in IH. destruct IH as [Hs Hp].
    rewrite fold_left_app, final_snoc. cbn [fold_left].
    split; [apply upsert_ascending, Hs|].
    rewrite (upsert_perm _ _ Hs). unfold others.
    rewrite (filter_Permutation _ _ _ Hp). apply Permutation_cons_append.
Qed.

(** Bulk replace by any arrangement of the final entities gives the same
    array. *)
Lemma upserts_sort writes l :
  l ≡ₚ final key writes ->
  fold_left (fun acc x => upsert key x acc) writes [] = sortById key l.
Proof.
  intros Hl. destruct (upserts_final writes) as [Hs Hp].
  apply (ascending_unique key); [exact Hs | |].
  - apply sortById_ascending. rewrite Hl. apply final_NoDup.
  - rewrite Hp, sortById_perm, Hl. reflexivity.
Qed.

End Facts.
End UpsertFacts.

(* ===================================================================== *)
(** * 27. The world store                                                 *)
(* ===================================================================== *)

Module WorldFacts.
Import World OrderFacts SortedFacts UpsertFacts.

Lemma run_sessions ops : forall st,
  sessions (run ops st)
  = fold_left (fun acc x => upsert session_id x acc) (writtenSessions ops) (sessions st).
Proof.
  induction ops as [|o ops IH]; intros st; [reflexivity|].
  unfold run in *. cbn [fold_left]. rewrite IH. destruct o; reflexivity.
Qed.

Lemma run_messages ops : forall st,
  messages (run ops st)
  = fold_left (fun acc x => upsert msg_id x acc) (writtenMessages ops) (messages st).
Proof.
  induction ops as [|o ops IH]; intros st; [reflexivity|].
  unfold run in *. cbn [fold_left]. rewrite IH. destruct o; reflexivity.
Qed.

Lemma run_parts ops : forall st,
  parts (run ops st)
  = fold_left (fun acc x => upsert part_id x acc) (writtenParts ops) (parts st).
Proof.
  induction ops as [|o ops IH]; intros st; [reflexivity|].
  unfold run in *. cbn [fold_left]. rewrite IH. destruct o; reflexivity.
Qed.

Lemma run_status ops : forall st,
  status (run ops st) = status st
  /\ connectionStatus (run ops st) = connectionStatus st.
Proof.
  induction ops as [|o ops IH]; intros st; [auto|].
  unfold run in *. cbn [fold_left]. destruct (IH (apply st o)) as [-> ->].
  destruct o; auto.
Qed.

Lemma store_eq (a b : WorldStore) :
  sessions a = sessions b -> messages a = messages b -> parts a = parts b ->
  status a = status b -> connectionStatus a = connectionStatus b -> a = b.
Proof. destruct a, b; cbn; intros; subst; reflexivity. Qed.

(** From the empty store, upserts in any order leave what one bulk
    replacement per collection leaves. *)
Lemma upserts_store ops finalSessions finalMessages finalParts :
  finalSessions ≡ₚ final session_id (writtenSessions ops) ->
  finalMessages ≡ₚ final msg_id (writtenMessages ops) ->
  finalParts ≡ₚ final part_id (writtenParts ops) ->
  run ops empty
  = setParts finalParts (setMessages finalMessages (setSessions finalSessions empty)).
Proof.
  intros Hs Hm Hp. destruct (run_status ops empty) as [Est Ec].
  apply store_eq; cbn [sessions messages parts status connectionStatus
                        setParts setMessages setSessions].
  - rewrite run_sessions. apply upserts_sort, Hs.
  - rewrite run_messages. apply upserts_sort, Hm.
  - rewrite run_parts. apply upserts_sort, Hp.
  - exact Est.
  - exact Ec.
Qed.

(** The store stays well formed under upserts. *)
Lemma apply_well_formed st o : well_formed st -> well_formed (apply st o).
Proof.
  intros (Hs & Hm & Hp). destruct o; cbn; repeat split;
    try assumption; apply upsert_ascending; assumption.
Qed.

Lemma run_well_formed ops : forall st, well_formed st -> well_formed (run ops st).
Proof.
  induction ops as [|o ops IH]; intros st H; [exact H|].
  apply IH, apply_well_formed, H.
Qed.

Lemma empty_well_formed : well_formed empty.
Proof. repeat split; constructor. Qed.

(** C2. For every sequence of upsertSession, upsertMessage and upsertPart
    calls on a new store and every arrangement of its final sessions,
    messages and parts - for each id the entity written last -, the
    WorldState after the calls is the WorldState after one setSessions,
    one setMessages and one setParts with those entities. *)
Theorem upserts_agree_with_bulk_set
    (ops : list Op) (finalSessions : list Session)
    (finalMessages : list Message) (finalParts : list Part) :
  finalSessions ≡ₚ final session_id (writtenSessions ops) ->
  finalMessages ≡ₚ final msg_id (writtenMessages ops) ->
  finalParts ≡ₚ final part_id (writtenParts ops) ->
  getState (run ops empty)
  = getState
      (setParts finalParts
         (setMessages finalMessages (setSessions finalSessions empty))).
Proof.
  intros Hs Hm Hp. rewrite (upserts_store ops _ _ _ Hs Hm Hp). reflexivity.
Qed.

End WorldFacts.

(** Eight calls that stream one part three times, against one bulk load
    of the two sessions, the message and the two parts left at the end. *)
Lemma upserts_agree_with_bulk_set_witness :
  World.getState (World.run Sample.streamed_ops World.empty)
  = World.getState
      (World.setParts
         [Sample.part "part-1" "msg-1" "Hello"; Sample.part "part-0" "msg-1" "intro"]
         (World.setMessages
            [Sample.message "msg-1" "ses-1" "assistant" (Some 2000)
               (Some (Sample.tokens 5000 500 None (Some 1000) (Some 0)))]
            (World.setSessions [Sample.session "ses-1"; Sample.session "ses-2"]
               World.empty))).
Proof.
  apply (WorldFacts.upserts_agree_with_bulk_set Sample.streamed_ops).
  - vm_compute. apply perm_swap.
  - vm_compute. reflexivity.
  - vm_compute. apply perm_swap.
Defined.

Module ViewFacts.
Import World OrderFacts SortedFacts UpsertFacts WorldFacts.

Lemma map_fmap {X Y : Type} (f : X -> Y) (l : list X) : List.map f l = f <$> l.
Proof. reflexivity. Qed.

Lemma In_elem_of {X : Type} (x : X) (l : list X) : In x l <-> x ∈ l.
Proof. symmetry. apply list_elem_of_In. Qed.

Lemma filter_elem {X : Type} (f : X -> bool) (l : list X) x :
  x ∈ List.filter f l <-> x ∈ l /\ f x = true.
Proof. rewrite <- !In_elem_of. apply List.filter_In. Qed.

Lemma filter_comm {X : Type} (f g : X -> bool) (l : list X) :
  List.filter f (List.filter g l) = List.filter g (List.filter f l).
Proof.
  induction l as [|x l IH]; [reflexivity|]. cbn [List.filter].
  destruct (f x) eqn:Ef, (g x) eqn:Eg; cbn [List.filter];
    rewrite ?Ef, ?Eg, IH; reflexivity.
Qed.

Lemma filter_none {X : Type} (f : X -> bool) (l : list X) :
  (forall x, x ∈ l -> f x = false) -> List.filter f l = [].
Proof.
  induction l as [|x l IH]; intros H; [reflexivity|]. cbn [List.filter].
  rewrite (H x) by left. apply IH. intros y Hy. apply H. right. exact Hy.
Qed.

Lemma sum_indicator {X : Type} (f : X -> bool) (l : list X) :
  list_sum (List.map (fun x => if f x then 1%nat else 0%nat) l)
  = length (List.filter f l).
Proof.
  induction l as [|x l IH]; [reflexivity|].
  cbn [List.map List.filter]. change (list_sum (?a :: ?r)) with (a + list_sum r)%nat.
  rewrite IH. destruct (f x); reflexivity.
Qed.

Lemma sum_zero {X : Type} (f : X -> nat) (l : list X) :
  (forall x, x ∈ l -> f x = 0%nat) -> list_sum (List.map f l) = 0%nat.
Proof.
  induction l as [|x l IH]; intros H; [reflexivity|].
  cbn [List.map]. change (list_sum (?a :: ?r)) with (a + list_sum r)%nat.
  rewrite (H x) by left. apply IH. intros y Hy. apply H. right. exact Hy.
Qed.

Section Keyed.
Context {A : Type} (key : A -> string).


(** In an ascending array, the entities with a given id are one at most. *)
Lemma filter_key_one l x :
  ascending key l -> x ∈ l ->
  List.filter (fun y => String.eqb (key x) (key y)) l = [x].
Proof.
  induction l as [|z l IH]; intros Hs Hx; [inversion Hx|].
  apply ascending_cons in Hs as [Hz Hl]. rewrite Forall_forall in Hz.
  cbn [List.filter]. apply elem_of_cons in Hx as [-> | Hx].
  - rewrite String.eqb_refl. f_equal. apply filter_none.
    intros y Hy. apply String.eqb_neq, id_lt_neq, Hz, Hy.
  - assert (String.eqb (key x) (key z) = false) as ->.
    { apply String.eqb_neq, not_eq_sym, id_lt_neq, Hz, Hx. }
    apply IH; assumption.
Qed.

Lemma filter_key_absent l k :
  (forall y, y ∈ l -> key y <> k) ->
  List.filter (fun y => String.eqb k (key y)) l = [].
Proof.
  intros H. apply filter_none. intros y Hy.
  apply String.eqb_neq, not_eq_sym, H, Hy.
Qed.

Lemma filter_key_cases l k :
  ascending key l ->
  List.filter (fun y => String.eqb k (key y)) l = []
  \/ exists x, x ∈ l /\ key x = k
               /\ List.filter (fun y => String.eqb k (key y)) l = [x].
Proof.
  intros Hs.
  destruct (List.filter (fun y => String.eqb k (key y)) l) as [|x r] eqn:E; [auto|].
  right. assert (x ∈ l /\ String.eqb k (key x) = true) as [Hx Hk].
  { apply (filter_elem (fun y => String.eqb k (key y))). rewrite E. left. }
  apply String.eqb_eq in Hk. subst k. exists x. split; [exact Hx|]. split; [reflexivity|].
  rewrite <- E. apply filter_key_one; assumption.
Qed.


End Keyed.

(** ** The enriched sessions *)

Lemma insert_recent_perm x l : insert_recent x l ≡ₚ x :: l.
Proof.
  induction l as [|y l IH]; [reflexivity|]. cbn [insert_recent].
  destruct (precedes x y); [reflexivity|]. rewrite IH. apply perm_swap.
Qed.

Lemma sortByRecency_perm l : sortByRecency l ≡ₚ l.
Proof.
  induction l as [|x l IH]; [reflexivity|].
  unfold sortByRecency in *. cbn [fold_right].
  rewrite insert_recent_perm, IH. reflexivity.
Qed.

Lemma getState_sessions st :
  ws_sessions (getState st) ≡ₚ enrichSession st <$> sessions st.
Proof. apply sortByRecency_perm. Qed.

Lemma enriched_session st es :
  es ∈ ws_sessions (getState st) <->
  exists s, s ∈ sessions st /\ es = enrichSession st s.
Proof.
  rewrite getState_sessions, list_elem_of_fmap.
  split; intros (s & H1 & H2); exists s; auto.
Qed.


Lemma sum_Permutation {X : Type} (f : X -> nat) (l l' : list X) :
  l ≡ₚ l' -> list_sum (List.map f l) = list_sum (List.map f l').
Proof.
  induction 1 as [|x l l' _ IH|x y l|l l' l'' _ IH1 _ IH2]; cbn [List.map].
  - reflexivity.
  - change (list_sum (?a :: ?r)) with (a + list_sum r)%nat. rewrite IH. reflexivity.
  - change (list_sum (?a :: ?b :: ?r)) with (a + (b + list_sum r))%nat. lia.
  - congruence.
Qed.

(** The occurrences of a part id in the view, counted on the raw
    collections. *)
Lemma occurrences_raw st pid :
  part_occurrences pid (getState st)
  = list_sum
      (List.map
         (fun s =>
            list_sum
              (List.map
                 (fun m =>
                    length (List.filter (fun q => String.eqb pid (part_id q))
                              (partsOf (parts st) m)))
                 (messagesOf (messages st) s)))
         (sessions st)).
Proof.
  unfold part_occurrences.
  rewrite (sum_Permutation _ _ _ (getState_sessions st)).
  change (enrichSession st <$> sessions st)
    with (List.map (enrichSession st) (sessions st)).
  rewrite List.map_map. f_equal.
  apply List.map_ext. intros s. cbn [enrichSession es_messages].
  rewrite List.map_map. reflexivity.
Qed.

(** The part [p] of a well-formed store occurs as often as its message
    is joined with a session. *)
Lemma occurrences_value st p :
  well_formed st -> p ∈ parts st ->
  part_occurrences (part_id p) (getState st)
  = match List.filter (fun m => String.eqb (part_messageID p) (msg_id m))
            (messages st) with
    | [m] => length (List.filter
                       (fun s => String.eqb (msg_sessionID m) (session_id s))
                       (sessions st))
    | _ => 0%nat
    end.
Proof.
  intros (Hs & Hm & Hp) Hin. rewrite occurrences_raw.
  assert (forall s,
            list_sum
              (List.map
                 (fun m =>
                    length (List.filter (fun q => String.eqb (part_id p) (part_id q))
                              (partsOf (parts st) m)))
                 (messagesOf (messages st) s))
            = length (List.filter
                        (fun m => String.eqb (msg_sessionID m) (session_id s))
                        (List.filter
                           (fun m => String.eqb (part_messageID p) (msg_id m))
                           (messages st)))) as Hinner.
  { intros s. rewrite filter_comm. fold (messagesOf (messages st) s).
    rewrite <- sum_indicator. f_equal. apply List.map_ext. intros m.
    unfold partsOf. rewrite filter_comm.
    rewrite (filter_key_one part_id (parts st) p Hp Hin).
    cbn [List.filter]. destruct (String.eqb (part_messageID p) (msg_id m)); reflexivity. }
  rewrite (List.map_ext _ _ Hinner).
  destruct (filter_key_cases msg_id (messages st) (part_messageID p) Hm)
    as [-> | (m & _ & _ & ->)].
  - apply sum_zero. intros s _. reflexivity.
  - rewrite <- sum_indicator. f_equal. apply List.map_ext. intros s.
    cbn [List.filter]. destruct (String.eqb (msg_sessionID m) (session_id s)); reflexivity.
Qed.

End ViewFacts.

Module ViewClaims.
Import World OrderFacts SortedFacts UpsertFacts WorldFacts ViewFacts.

Lemma upsertSession_upsertMessage s m st :
  upsertMessage m (upsertSession s st) = upsertSession s (upsertMessage m st).
Proof. reflexivity. Qed.

(** C6. In a well-formed store, let the part p name a message that is
    absent or whose session is absent.  upsertPart p returns a well-formed
    store that holds p, and no session's enriched view shows a part with
    p's id.  Once the message m that p names and the session s that m
    names are upserted, in either order, the view shows the id of p
    exactly once, under the enriched message m of the enriched session s. *)
Theorem orphan_part_waits_for_parents
    (st : WorldStore) (p : Part) (m : Message) (s : Session) :
  well_formed st ->
  (forall m', m' ∈ messages st -> msg_id m' = part_messageID p ->
     forall s', s' ∈ sessions st -> session_id s' <> msg_sessionID m') ->
  msg_id m = part_messageID p ->
  session_id s = msg_sessionID m ->
  let st1 := upsertPart p st in
  well_formed st1
  /\ p ∈ parts st1
  /\ part_occurrences (part_id p) (getState st1) = 0%nat
  /\ forall st2,
       st2 = upsertSession s (upsertMessage m st1)
       \/ st2 = upsertMessage m (upsertSession s st1) ->
       well_formed st2
       /\ part_occurrences (part_id p) (getState st2) = 1%nat
       /\ exists es em,
            es ∈ ws_sessions (getState st2) /\ es_session es = s
            /\ em ∈ es_messages es /\ em_message em = m
            /\ p ∈ em_parts em.
Proof.
  intros Hwf Horphan Hm Hs st1.
  assert (well_formed st1) as Hwf1 by (apply (apply_well_formed st (OpPart p)), Hwf).
  assert (p ∈ parts st1) as Hp1.
  { destruct Hwf as (_ & _ & Hp). apply (upsert_elem part_id); auto. }
  split; [exact Hwf1|]. split; [exact Hp1|]. split.
  - rewrite (occurrences_value st1 p Hwf1 Hp1).
    change (messages st1) with (messages st). change (sessions st1) with (sessions st).
    destruct Hwf as (_ & Hmsgs & _).
    destruct (filter_key_cases msg_id (messages st) (part_messageID p) Hmsgs)
      as [-> | (m0 & Hin0 & Hk0 & ->)]; [reflexivity|].
    rewrite (filter_key_absent session_id); [reflexivity|].
    intros s' Hs'. apply (Horphan m0 Hin0 Hk0 s' Hs').
  - intros st2 Hst2.
    assert (st2 = upsertSession s (upsertMessage m st1)) as ->
      by (destruct Hst2 as [-> | ->]; reflexivity).
    assert (well_formed (upsertSession s (upsertMessage m st1))) as Hwf2.
    { apply (apply_well_formed _ (OpSession s)), (apply_well_formed _ (OpMessage m)), Hwf1. }
    set (st2 := upsertSession s (upsertMessage m st1)) in *.
    destruct Hwf1 as (Hss1 & Hms1 & Hps1).
    assert (m ∈ messages st2) as Hm2 by (apply (upsert_elem msg_id); auto).
    assert (s ∈ sessions st2) as Hs2 by (apply (upsert_elem session_id); auto).
    assert (p ∈ parts st2) as Hp2 by exact Hp1.
    destruct Hwf2 as (Hss2 & Hms2 & Hps2).
    split; [repeat split; assumption|]. split.
    + rewrite (occurrences_value st2 p) by (repeat split; assumption).
      rewrite <- Hm, (filter_key_one msg_id (messages st2) m Hms2 Hm2).
      rewrite <- Hs, (filter_key_one session_id (sessions st2) s Hss2 Hs2).
      reflexivity.
    + exists (enrichSession st2 s), (enrichMessage (parts st2) m).
      split; [apply enriched_session; eauto|]. split; [reflexivity|].
      split; [|split; [reflexivity|]].
      * cbn [enrichSession es_messages]. rewrite map_fmap.
        apply list_elem_of_fmap_2. apply filter_elem. split; [exact Hm2|].
        rewrite Hs. apply String.eqb_refl.
      * cbn [enrichMessage em_parts]. apply filter_elem. split; [exact Hp2|].
        rewrite Hm. apply String.eqb_refl.
Qed.

(** ** Context usage *)

Lemma round2_nearest (q : Q) :
  (q - (1 # 200) < round2 q)%Q /\ (round2 q <= q + (1 # 200))%Q.
Proof.
  unfold round2.
  set (y := (q * inject_Z 100 + (1 # 2))%Q).
  pose proof (Qfloor_le y) as Hle. pose proof (Qlt_floor y) as Hlt.
  rewrite inject_Z_plus in Hlt.
  assert (Qmake (Qfloor y) 100 == inject_Z (Qfloor y) * (1 # 100))%Q as ->.
  { unfold Qeq, inject_Z. cbn. lia. }
  subst y. change (inject_Z 100) with (100 # 1)%Q in *.
  change (inject_Z 1) with (1 # 1)%Q in *.
  split; lra.
Qed.


(** No number of two decimals is as close to 0.925 as the integration
    test of the store demands ([toBeCloseTo(0.925, 2)]: less than 0.005
    away). *)
Lemma two_decimals_miss_the_test (k : Z) :
  ~ (Qabs ((k # 100) - (925 # 1000)) < (5 # 1000))%Q.
Proof.
  intros H. apply Qabs_Qlt_condition in H as [H1 H2].
  unfold Qlt in H1, H2. cbn in H1, H2. lia.
Qed.

End ViewClaims.

(* ===================================================================== *)
(** * 28. The store on sample data                                        *)
(* ===================================================================== *)

(** The usage figures the store's tests expect: 8000 of 200000 tokens are
    4 percent, 6500 are 3.25 percent. *)
Example usage_all_token_types :
  Qeq
    (World.usageOf
       (Sample.message "msg-1" "ses-1" "assistant" (Some 2000)
          (Some (Sample.tokens 5000 500 (Some 1000) (Some 1000) (Some 500)))))
    (4 # 1).
Proof. reflexivity. Qed.

Example usage_input_and_cache_read :
  Qeq
    (World.usageOf
       (Sample.message "msg-1" "ses-1" "assistant" (Some 2000)
          (Some (Sample.tokens 5000 500 None (Some 1000) (Some 0)))))
    (325 # 100).
Proof. reflexivity. Qed.

(** A part arrives for message msg-1, whose session ses-1 is not in the
    store: it is kept and not shown; it shows once after both parents
    have been upserted. *)
Lemma orphan_part_waits_for_parents_witness :
  let p := Sample.part "part-1" "msg-1" "Hello" in
  let m := Sample.message "msg-1" "ses-1" "assistant" (Some 2000) None in
  let s := Sample.session "ses-1" in
  let st1 := World.upsertPart p Sample.store_without_session in
  p ∈ World.parts st1
  /\ World.part_occurrences "part-1" (World.getState st1) = 0%nat
  /\ World.part_occurrences "part-1"
       (World.getState (World.upsertSession s (World.upsertMessage m st1))) = 1%nat.
Proof.
  cbv zeta.
  assert (World.well_formed Sample.store_without_session) as Hwf.
  { repeat split; repeat constructor. }
  assert (forall m', m' ∈ World.messages Sample.store_without_session ->
            World.msg_id m' = "msg-1" ->
            forall s', s' ∈ World.sessions Sample.store_without_session ->
                       session_id s' <> World.msg_sessionID m') as Horphan.
  { intros m' Hm' _ s' Hs'.
    apply list_elem_of_singleton in Hm' as ->.
    apply list_elem_of_singleton in Hs' as ->. discriminate. }
  destruct (ViewClaims.orphan_part_waits_for_parents
              Sample.store_without_session
              (Sample.part "part-1" "msg-1" "Hello")
              (Sample.message "msg-1" "ses-1" "assistant" (Some 2000) None)
              (Sample.session "ses-1") Hwf Horphan eq_refl eq_refl)
    as (_ & Hp & H0 & H2).
  split; [exact Hp|]. split; [exact H0|].
  destruct (H2 _ (or_introl eq_refl)) as (_ & H1 & _). exact H1.
Defined.



(* ===================================================================== *)
(** * 29. More on the cursor stream                                       *)
(* ===================================================================== *)

Section CursorExtras.
Import Js JsFacts.
Context {B : Type} (normalize : B -> SessionStatus) {P : Type}.

Lemma formatOffset_never_empty c : formatOffset c <> EmptyString.
Proof.
  intros E. pose proof (JsFacts.padStart_length 10 "0"%char (toString c)) as H.
  unfold formatOffset in E. rewrite E in H. cbn [String.length] in H. lia.
Qed.

Lemma parseInt_formatOffset_any z : 0 <= z -> parseInt (formatOffset (Num z)) = Num z.
Proof.
  intros Hz. rewrite JsFacts.parseInt_digits.
  - rewrite formatOffset_value by exact Hz. f_equal. lia.
  - apply formatOffset_never_empty.
  - apply formatOffset_digits, Hz.
Qed.

Lemma startCounter_some s : s <> EmptyString -> startCounter (Some s) = parseInt s.
Proof.
  intros Hs. unfold startCounter. cbn [truthy].
  destruct (String.eqb_spec s EmptyString) as [E|_]; [contradiction|reflexivity].
Qed.

(** X1. An offset reads back as the counter it was formatted from,
    for every counter from 0 up to 2^53 (where the numbers of
    JavaScript stop being exact), also one past ten digits:
    parseInt(String(n).padStart(10, "0"), 10) is n. *)
Theorem offset_round_trip (n : Z) :
  0 <= n < 2 ^ 53 -> startCounter (Some (formatOffset (Num n))) = Num n.
Proof.
  intros [Hn _]. rewrite startCounter_some by apply formatOffset_never_empty.
  apply parseInt_formatOffset_any, Hn.
Qed.

Lemma offsets_from_NaN k : offsets_from NaN k = replicate k "0000000NaN".
Proof. induction k as [|k IH]; [reflexivity|]. cbn [offsets_from incr]. rewrite IH. reflexivity. Qed.

(** X2. A saved offset of ASCII characters that is not empty and does
    not start with a number (after white space and a sign) makes the
    counter NaN: every event of the catch-up and every event of the
    tail then carries the same offset, 0000000NaN. *)
Theorem unparsable_offset_numbers_nothing (w : Snapshot B) clock
    (live : list (GlobalEvent P)) (s : string) :
  s <> EmptyString -> all_ascii s = true -> parseInt s = NaN ->
  (forall e, e ∈ cr_events P (catchUpEvents normalize w (Some s)) ->
     we_offset P e = "0000000NaN")
  /\ (forall e, e ∈ tailEvents clock (Some s) live -> we_offset P e = "0000000NaN").
Proof.
  intros Hs _ Hnan.
  assert (startCounter (Some s) = NaN) as Hc.
  { rewrite startCounter_some by exact Hs. exact Hnan. }
  assert (forall (evs : list (WorldEvent P)) k,
            we_offset P <$> evs = offsets_from NaN k ->
            forall e, e ∈ evs -> we_offset P e = "0000000NaN") as Hall.
  { intros evs k Hevs e He.
    assert (we_offset P e ∈ we_offset P <$> evs) as Hin.
    { apply list_elem_of_fmap. exists e. split; [reflexivity | exact He]. }
    rewrite Hevs, offsets_from_NaN in Hin.
    apply elem_of_replicate in Hin as [-> _]. reflexivity. }
  split.
  - apply (Hall _ (batchSize w)).
    rewrite (catchUp_offsets normalize w (Some s)), Hc. reflexivity.
  - apply (Hall _ (liveCount live)). rewrite tail_offsets, Hc. reflexivity.
Qed.

(** ** What a batch holds *)

Lemma pushEvent_content clock ty p (a : Acc P) :
  content <$> acc_events P (pushEvent P clock ty p a)
  = (content <$> acc_events P a) ++ [(ty, p)].
Proof. unfold pushEvent. cbn [acc_events]. rewrite fmap_app. reflexivity. Qed.

Lemma pushes_content {X : Type} clock ty (f : X -> Payload P) xs : forall a : Acc P,
  content <$> acc_events P (fold_left (fun a x => pushEvent P clock ty (f x) a) xs a)
  = (content <$> acc_events P a) ++ ((fun x => (ty, f x)) <$> xs).
Proof.
  induction xs as [|x xs IH]; intros a; cbn [fold_left].
  - rewrite app_nil_r. reflexivity.
  - rewrite IH, pushEvent_content, <- app_assoc. reflexivity.
Qed.

Lemma catchUpServer_content clock (a : Acc P) sv :
  content <$> acc_events P (catchUpServer B normalize P clock a sv)
  = (content <$> acc_events P a) ++ announced normalize sv.
Proof.
  unfold catchUpServer, announced. cbv zeta.
  rewrite (pushes_content clock "session.updated"
             (fun entry => PStatus (fst entry) (normalize (snd entry)))).
  rewrite (pushes_content clock "session.created"
             (fun session => PSession (session_id session) (sv_directory B sv))).
  rewrite <- app_assoc. reflexivity.
Qed.

Lemma servers_content clock svs : forall a : Acc P,
  content <$> acc_events P (fold_left (catchUpServer B normalize P clock) svs a)
  = (content <$> acc_events P a) ++ concat (announced normalize <$> svs).
Proof.
  induction svs as [|sv svs IH]; intros a; cbn [fold_left].
  - rewrite app_nil_r. reflexivity.
  - rewrite IH, catchUpServer_content, <- app_assoc. reflexivity.
Qed.

Lemma markLast_content (evs : list (WorldEvent P)) :
  content <$> markLast P evs = content <$> evs.
Proof.
  unfold markLast. destruct (evs !! (length evs - 1)%nat) as [e|] eqn:E; [|reflexivity].
  destruct (0 <? length evs)%nat; [|reflexivity].
  rewrite list_fmap_insert. apply list_insert_id.
  rewrite list_lookup_fmap, E. reflexivity.
Qed.

(** X3. The batch of a catch-up holds, server after server in the order
    of discovery, one session.created for every session of the server's
    list and then one session.updated for every entry of its status map
    (an answer without data counting as empty).  The offset given plays
    no part in it: whatever offset is given, the same sessions and
    statuses are replayed. *)
Theorem catchUp_replays_everything (w : Snapshot B) :
  forall offset,
    content <$> cr_events P (catchUpEvents normalize w offset)
    = concat (announced normalize <$> discovered B w).
Proof.
  intros offset. unfold catchUpEvents.
  destruct (length (discovered B w) =? 0)%nat eqn:E.
  - apply Nat.eqb_eq in E. apply length_zero_iff_nil in E. rewrite E. reflexivity.
  - cbn [cr_events]. rewrite markLast_content, servers_content. reflexivity.
Qed.

Lemma tail_content clock (evs : list (GlobalEvent P)) : forall a : Acc P,
  content <$> acc_events P
      (fold_left
         (fun a ev => pushEvent P clock (ge_type P ev) (PLive (ge_properties P ev)) a)
         evs a)
  = (content <$> acc_events P a)
    ++ ((fun ev => (ge_type P ev, PLive (ge_properties P ev))) <$> evs).
Proof.
  induction evs as [|ev evs IH]; intros a; cbn [fold_left].
  - rewrite app_nil_r. reflexivity.
  - rewrite IH, pushEvent_content, <- app_assoc. reflexivity.
Qed.

(** X4. The tail relays the live events whose type starts with
    session., message. or part., in order and with their properties, and
    drops the others; none of the events relayed carries upToDate.  A
    dropped event uses up no offset: when the offset given is absent
    or parses to n >= 0, and n plus the number of events relayed stays
    below 2^53 (where the counter stops being exact), the events
    relayed are numbered n+1, n+2, ... without a gap, each offset
    reading back as its number. *)
Theorem tail_numbers_what_it_relays clock offset (live : list (GlobalEvent P)) :
  content <$> tailEvents clock offset live = relayed live
  /\ Forall (fun e => we_upToDate P e = false) (tailEvents clock offset live)
  /\ forall n,
       startCounter offset = Num n -> 0 <= n ->
       n + Z.of_nat (length (relayed live)) < 2 ^ 53 ->
       we_offset P <$> tailEvents clock offset live
       = offsets_from (Num n) (length (relayed live))
       /\ forall i e,
            tailEvents clock offset live !! i = Some e ->
            we_offset P e = formatOffset (Num (n + 1 + Z.of_nat i))
            /\ parseInt (we_offset P e) = Num (n + 1 + Z.of_nat i).
Proof.
  assert (we_offset P <$> tailEvents clock offset live
          = offsets_from (startCounter offset) (length (relayed live))) as Hoff.
  { rewrite tail_offsets. unfold relayed, liveCount. rewrite length_fmap. reflexivity. }
  split; [|split].
  - unfold tailEvents, relayed. rewrite tail_fold, tail_content. reflexivity.
  - apply tail_quiet.
  - intros n Hn Hpos _. rewrite Hn in Hoff. split; [exact Hoff|].
    intros i e Hi.
    assert (offsets_from (Num n) (length (relayed live)) !! i = Some (we_offset P e)) as Ho.
    { rewrite <- Hoff, list_lookup_fmap, Hi. reflexivity. }
    apply offsets_from_lookup in Ho as [_ ->].
    split; [reflexivity | apply parseInt_formatOffset_any; lia].
Qed.

(** X5. When the two catch-up queries of a resume see the same
    backends, and the saved offset is absent or parses to n >= 0 (the
    counter staying below 2^53), the stream is the batch followed by
    the tail started at the last offset of the batch, with no gap and no
    repetition: its events are numbered n+1, n+2, ... through both
    parts, and upToDate is set on the last event of the batch and on no
    other. *)
Theorem resume_of_stable_backends (w : Snapshot B) clock saved
    (live : list (GlobalEvent P)) (n : Z) :
  startCounter saved = Num n -> 0 <= n ->
  n + Z.of_nat (batchSize w + liveCount live) < 2 ^ 53 ->
  let events := resumeEvents normalize w w clock saved live in
  events
  = cr_events P (catchUpEvents normalize w saved)
    ++ tailEvents clock (Some (formatOffset (Num (n + Z.of_nat (batchSize w))))) live
  /\ we_offset P <$> events = offsets_from (Num n) (batchSize w + liveCount live)
  /\ forall i e, events !! i = Some e ->
       (we_upToDate P e = true <-> S i = batchSize w).
Proof.
  intros Hn Hpos _ events. subst events.
  assert (startCounter
            (or_else (cr_nextOffset P (catchUpEvents normalize w saved)) saved)
          = Num (n + Z.of_nat (batchSize w))) as Hstart.
  { rewrite (catchUp_nextOffset normalize w saved), <- fmap_last,
      (catchUp_offsets normalize w saved), Hn.
    destruct (batchSize w) as [|k] eqn:Ek.
    - cbn [offsets_from last]. unfold or_else. cbn [truthy].
      rewrite Hn. f_equal. lia.
    - assert (last (offsets_from (Num n) (S k))
              = Some (formatOffset (Num (n + Z.of_nat (S k))))) as ->.
      { rewrite last_lookup, offsets_from_length. cbn [Nat.pred].
        apply offsets_from_lookup. split; [lia|]. do 2 f_equal. lia. }
      unfold or_else. cbn [truthy].
      destruct (String.eqb_spec (formatOffset (Num (n + Z.of_nat (S k)))) EmptyString)
        as [E|_].
      + exfalso. revert E. apply formatOffset_never_empty.
      + cbn [negb]. rewrite startCounter_some by apply formatOffset_never_empty.
        apply parseInt_formatOffset_any. lia. }
  rewrite resume_unfold. split; [|split].
  - f_equal. unfold tailEvents. rewrite Hstart.
    rewrite startCounter_some by apply formatOffset_never_empty.
    rewrite parseInt_formatOffset_any by lia. reflexivity.
  - rewrite fmap_app, catchUp_offsets, tail_offsets, Hn, Hstart.
    rewrite offsets_from_app, iter_incr_Num. reflexivity.
  - intros i e Hi.
    pose proof (catchUp_length normalize w saved (P := P)) as Hlen.
    destruct (Nat.lt_ge_cases i (batchSize w)) as [Hlt|Hge].
    + rewrite lookup_app_l in Hi by lia.
      rewrite (catchUp_flags normalize w saved i e Hi), Hlen. reflexivity.
    + rewrite lookup_app_r in Hi by lia.
      pose proof (tail_quiet clock
                    (or_else (cr_nextOffset P (catchUpEvents normalize w saved)) saved)
                    live) as Hq.
      rewrite Forall_forall in Hq.
      assert (we_upToDate P e = false) as ->.
      { apply Hq. eapply list_elem_of_lookup_2, Hi. }
      split; [discriminate | lia].
Qed.

End CursorExtras.

(** A counter past ten digits reads back from its offset. *)
Lemma offset_round_trip_witness :
  0 <= 12345678901 < 2 ^ 53
  /\ startCounter (Some (formatOffset (Js.Num 12345678901))) = Js.Num 12345678901.
Proof. split; [lia | apply offset_round_trip; lia]. Defined.

(** Resuming from the offset abc. *)
Lemma unparsable_offset_numbers_nothing_witness :
  Js.parseInt "abc" = Js.NaN
  /\ (forall e,
        e ∈ cr_events unit
              (catchUpEvents Sample.keep
                 (Sample.backend [Sample.session "ses_a"; Sample.session "ses_b"] [])
                 (Some "abc")) ->
        we_offset unit e = "0000000NaN").
Proof.
  split; [reflexivity|].
  apply (unparsable_offset_numbers_nothing Sample.keep
           (Sample.backend [Sample.session "ses_a"; Sample.session "ses_b"] [])
           Sample.clock [] "abc"); [discriminate | reflexivity | reflexivity].
Defined.

(** Three live events after offset 42, the second of a type the tail
    drops. *)
Lemma tail_numbers_what_it_relays_witness :
  startCounter (Some "0000000042") = Js.Num 42
  /\ we_offset unit <$>
       tailEvents Sample.clock (Some "0000000042")
         [Sample.live "session.updated"; Sample.live "server.heartbeat";
          Sample.live "message.part.updated"]
     = ["0000000043"; "0000000044"].
Proof.
  split; [reflexivity|].
  destruct (tail_numbers_what_it_relays (P := unit) Sample.clock (Some "0000000042")
              [Sample.live "session.updated"; Sample.live "server.heartbeat";
               Sample.live "message.part.updated"]) as (_ & _ & H).
  destruct (H 42 eq_refl ltac:(lia) ltac:(cbn; lia)) as [E _]. exact E.
Defined.

(** One session with its status, then one live event, after offset 42. *)
Lemma resume_of_stable_backends_witness :
  startCounter (Some "0000000042") = Js.Num 42
  /\ we_offset unit <$>
       resumeEvents Sample.keep
         (Sample.backend [Sample.session "ses_a"] [("ses_a", "running")])
         (Sample.backend [Sample.session "ses_a"] [("ses_a", "running")])
         Sample.clock (Some "0000000042") [Sample.live "session.updated"]
     = ["0000000043"; "0000000044"; "0000000045"].
Proof.
  split; [reflexivity|].
  pose proof (resume_of_stable_backends Sample.keep
                (Sample.backend [Sample.session "ses_a"] [("ses_a", "running")])
                Sample.clock (Some "0000000042") [Sample.live "session.updated"] 42
                eq_refl ltac:(lia) ltac:(cbn; lia)) as H.
  cbv zeta in H. destruct H as (_ & H & _). exact H.
Defined.

(* ===================================================================== *)
(** * 30. Server discovery                                                *)
(* ===================================================================== *)

Module DiscoveryFacts.
Import Js JsFacts Discovery.

Lemma port_match_digits address : forall digits,
  port_match address = Some digits ->
  digits <> EmptyString /\ all_digits digits = true.
Proof.
  induction address as [|c r IH]; intros digits H; cbn [port_match] in H; [discriminate|].
  destruct (Ascii.eqb c ":" && negb (String.eqb r EmptyString) && all_digits r) eqn:E.
  - injection H as <-. apply andb_prop in E as [E Hd]. apply andb_prop in E as [_ Hn].
    split; [|exact Hd]. intros ->. discriminate Hn.
  - apply IH, H.
Qed.

Lemma port_match_port address digits :
  port_match address = Some digits -> is_port (parseInt digits).
Proof.
  intros H. apply port_match_digits in H as [Hn Hd].
  rewrite parseInt_digits by assumption. eexists. split; [reflexivity | lia].
Qed.

Lemma same_number_absent p (seen : list number) :
  is_port p -> existsb (same_number p) seen = false -> p ∉ seen.
Proof.
  intros (z & -> & _) H Hin.
  assert (existsb (same_number (Num z)) seen = true) as E.
  { apply existsb_exists. exists (Num z). split.
    - apply list_elem_of_In, Hin.
    - cbn. apply Z.eqb_refl. }
  congruence.
Qed.

Lemma scanLine_scanned st line : scanned st -> scanned (scanLine st line).
Proof.
  intros (Hs & Hn & Hp). unfold scanLine.
  destruct (negb (truthy (Some line))); [repeat split; assumption|].
  destruct (split " " line) as [|pid [|address rest]]; try (repeat split; assumption).
  destruct (port_match address) as [digits|] eqn:Em; [|repeat split; assumption].
  cbv zeta.
  destruct (existsb (same_number (parseInt digits)) (seen st)) eqn:Ex;
    [repeat split; assumption|].
  pose proof (port_match_port _ _ Em) as Hport.
  split; [|split]; cbn [seen candidates].
  - rewrite fmap_app, Hs. reflexivity.
  - apply NoDup_app. split; [exact Hn|]. split.
    + intros p Hin Hp'. apply list_elem_of_singleton in Hp' as ->.
      revert Hin. apply same_number_absent; assumption.
    + apply NoDup_singleton.
  - apply Forall_app. split; [exact Hp|]. constructor; [exact Hport | constructor].
Qed.

Lemma scan_scanned lines : forall st, scanned st -> scanned (fold_left scanLine lines st).
Proof.
  induction lines as [|line lines IH]; intros st H; [exact H|].
  cbn [fold_left]. apply IH, scanLine_scanned, H.
Qed.

Lemma parseCandidates_ports result :
  NoDup (cand_port <$> parseCandidates result)
  /\ Forall is_port (cand_port <$> parseCandidates result).
Proof.
  unfold parseCandidates.
  destruct (scan_scanned (split "010" (trim result)) {| candidates := []; seen := [] |})
    as (Hs & Hn & Hp).
  { split; [reflexivity|]. split; [apply NoDup_nil_2 | constructor]. }
  rewrite <- Hs. split; assumption.
Qed.

Lemma verifyServer_some answer p q server :
  verifyServer answer p q = Some server ->
  port server = p /\ pid server = q /\ (2 <= String.length (directory server))%nat.
Proof.
  unfold verifyServer.
  destruct answer as [|ok body]; [discriminate|].
  destruct ok; cbn [negb]; [|discriminate].
  destruct body as [|[project|]]; try discriminate.
  destruct (worktree project) as [dir|]; [|discriminate].
  destruct (negb (truthy (Some dir)) || String.eqb dir "/"
            || (String.length dir <=? 1)%nat) eqn:E; [discriminate|].
  intros [= <-]. cbn. split; [reflexivity|]. split; [reflexivity|].
  apply orb_false_elim in E as [_ E]. apply Nat.leb_gt in E. lia.
Qed.

Lemma verified_ports (probe : number -> Fetched) (cands : list Candidate) :
  sublist
    (port <$> omap (fun c => verifyServer (probe (cand_port c)) (cand_port c) (cand_pid c))
                cands)
    (cand_port <$> cands).
Proof.
  induction cands as [|c cands IH]; [constructor|].
  cbn [omap list_omap fmap list_fmap].
  destruct (verifyServer (probe (cand_port c)) (cand_port c) (cand_pid c)) as [s|] eqn:E.
  - apply verifyServer_some in E as (<- & _). cbn [fmap list_fmap].
    apply sublist_skip, IH.
  - apply sublist_cons, IH.
Qed.

(** X6. Whatever the lsof pipeline prints and whatever the ports
    answer, discovery fails only when lsof fails without output outside
    a browser, and otherwise returns servers with pairwise distinct
    ports, each port a number that is not negative and each directory
    of two characters at least (never empty, never the root). *)
Theorem discovered_servers_are_distinct (browser : bool) (lsof : Lsof)
    (probe : number -> Fetched) :
  match discoverServers browser lsof probe with
  | CursorStore.Ok servers =>
      NoDup (port <$> servers)
      /\ Forall (fun server =>
                   is_port (port server)
                   /\ (2 <= String.length (directory server))%nat
                   /\ directory server <> "/") servers
  | CursorStore.Err _ => browser = false /\ lsof = ExecFailed
  end.
Proof.
  unfold discoverServers. destruct browser.
  { split; [apply NoDup_nil_2 | constructor]. }
  destruct lsof as [result|]; [|split; reflexivity].
  destruct (parseCandidates_ports result) as [Hn Hp].
  split.
  - eapply sublist_NoDup; [exact Hn | apply verified_ports].
  - rewrite Forall_forall. intros server Hin.
    apply list_elem_of_omap in Hin as (c & Hc & Hv).
    pose proof Hv as Hv'. apply verifyServer_some in Hv' as (Hport & _ & Hlen).
    split; [|split; [exact Hlen|]].
    + rewrite Hport. rewrite Forall_forall in Hp. apply Hp.
      apply list_elem_of_fmap. exists c. split; [reflexivity | exact Hc].
    + intros E. rewrite E in Hlen. cbn in Hlen. lia.
Qed.

(** The first line that names a port decides its process id; a line
    without an address ending in a colon and digits is skipped. *)
Example parseCandidates_sample :
  parseCandidates
    (String.append "4242 *:4096"
       (String "010" (String.append "4243 127.0.0.1:4096"
          (String "010" (String.append "4244 [::1]:0815"
             (String "010" "4245 *:http"))))))
  = [ {| cand_port := Num 4096; cand_pid := Num 4242 |};
      {| cand_port := Num 815; cand_pid := Num 4244 |} ].
Proof. reflexivity. Qed.

End DiscoveryFacts.

(* ===================================================================== *)
(** * 31. From the wire to the store                                      *)
(* ===================================================================== *)

Module WireFacts.
Import Router Wire.

Lemma get_thrown v k : get v k = Thrown <-> v = JUndefined \/ v = JNull.
Proof.
  destruct v; cbn; split; intros H; try discriminate H; auto;
    destruct H as [H|H]; discriminate H.
Qed.

Lemma get_returned v k :
  v <> JUndefined -> v <> JNull -> get v k = Returned (get_opt v k).
Proof. intros H1 H2. destruct v; cbn; try reflexivity; contradiction. Qed.

Lemma truthy_defined v : truthy v = true -> v <> JUndefined /\ v <> JNull.
Proof. destruct v; cbn; intros H; try discriminate H; split; discriminate. Qed.

(** Case analysis on the type of an event, as the [switch] does it. *)
Ltac by_type ty :=
  repeat match goal with
         | |- context [String.eqb ty ?name] =>
             destruct (String.eqb_spec ty name) as [->|?]
         end.

(** X7. The router of the merged stream throws on exactly two kinds of
    event: a message.part.updated or a session.status whose data is
    null or undefined.  On every other event, whatever its type and
    data, it returns. *)
Theorem routeEventToStore_throws_iff (event : SourceEvent) :
  routeEventToStore event = Thrown
  <-> (type event = "message.part.updated" \/ type event = "session.status")
      /\ (data event = JUndefined \/ data event = JNull).
Proof.
  destruct event as [src ty d]. cbn [type data].
  unfold routeEventToStore, is_one_of. cbn [type data existsb].
  split.
  - by_type ty; cbn; try discriminate.
    + intros H. split; [left; reflexivity|].
      destruct (get d "part") eqn:E; [discriminate H|].
      eapply get_thrown, E.
    + intros H. split; [right; reflexivity|].
      destruct (get d "sessionID") eqn:E; [|eapply get_thrown, E].
      destruct (get d "status") eqn:E'; [discriminate H|eapply get_thrown, E'].
  - intros [[-> | ->] Hd]; cbn.
    + assert (get d "part" = Thrown) as -> by (apply get_thrown, Hd). reflexivity.
    + assert (get d "sessionID" = Thrown) as -> by (apply get_thrown, Hd). reflexivity.
Qed.

Lemma handleEvent_throws_iff (event : SSEEvent) :
  handleEvent event = Thrown
  <-> sse_type event = "session.status"
      /\ (sse_properties event = JUndefined \/ sse_properties event = JNull).
Proof.
  destruct event as [ty p]. cbn [sse_type sse_properties].
  unfold handleEvent, is_one_of. cbn [sse_type sse_properties existsb].
  split.
  - by_type ty; cbn; try discriminate.
    intros H. split; [reflexivity|].
    destruct (get p "sessionID") eqn:E; [|eapply get_thrown, E].
    destruct (get p "status") eqn:E'; [discriminate H|eapply get_thrown, E'].
  - intros [-> Hd]; cbn.
    assert (get p "sessionID" = Thrown) as -> by (apply get_thrown, Hd). reflexivity.
Qed.

Lemma onEvent_some parsed ty properties :
  onEvent parsed = Some (ty, properties) ->
  truthy ty = true /\ truthy properties = true.
Proof.
  unfold onEvent. destruct parsed as [d|]; [|discriminate].
  destruct (get d "payload") as [payload|]; [|discriminate].
  destruct (truthy (get_opt payload "type")) eqn:Et; [|discriminate].
  destruct (truthy (get_opt payload "properties")) eqn:Ep; [|discriminate].
  cbn [andb]. intros [= <- <-]. split; assumption.
Qed.

(** X8. The parser of the SSE connection emits an event only when the
    parsed data has a payload with a truthy type and truthy properties
    (a parse error, null data or a missing field emits nothing), and the
    handler of WorldSSE never throws on an event emitted: it logs the
    event and then makes at most one store call.  The handler throws
    only on a session.status whose properties are null or undefined,
    which the parser never emits. *)
Theorem handleEvent_returns_on_parsed (parsed : Outcome Json) (ty : string)
    (properties : Json) :
  onEvent parsed = Some (JString ty, properties) ->
  truthy properties = true
  /\ exists calls,
       handleEvent {| sse_type := ty; sse_properties := properties |}
       = Returned (OnEvent "sse" ty properties :: calls)
       /\ (length calls <= 1)%nat
       /\ store_calls calls = calls.
Proof.
  intros H. apply onEvent_some in H as [_ Hp]. split; [exact Hp|].
  apply truthy_defined in Hp as [H1 H2].
  unfold handleEvent, is_one_of. cbn [sse_type sse_properties existsb].
  by_type ty; cbn [orb].
  all: try (destruct (truthy (get_opt properties "id"));
            (eexists; split; [reflexivity | split; [cbn; lia | reflexivity]])).
  rewrite !get_returned by assumption.
  destruct (truthy (get_opt properties "sessionID") && truthy (get_opt properties "status"));
    (eexists; split; [reflexivity | split; [cbn; lia | reflexivity]]).
Qed.

(** X9. The handler of WorldSSE is the handler of createWorldStream
    behind guards: the two throw on the same events, and on any other
    event the store calls of the first are those of the second, or none
    at all (when the payload has no truthy id, or the status event no
    truthy sessionID and status, which only the second forwards). *)
Theorem handleEvent_guards_handleSSEEvent (event : SSEEvent) :
  (handleEvent event = Thrown <-> handleSSEEvent event = Thrown)
  /\ forall calls forwarded,
       handleEvent event = Returned calls ->
       handleSSEEvent event = Returned forwarded ->
       (store_calls calls = forwarded \/ store_calls calls = [])
       /\ (length forwarded <= 1)%nat.
Proof.
  destruct event as [ty p].
  unfold handleEvent, handleSSEEvent, is_one_of.
  cbn [sse_type sse_properties existsb].
  by_type ty; cbn [orb].
  all: try (split; [split; discriminate|];
            intros calls forwarded [= <-] [= <-];
            destruct (truthy (get_opt p "id")); cbn; split; auto).
  destruct (get p "sessionID") as [sid|]; [|split; [tauto|discriminate]].
  destruct (get p "status") as [st|]; [|split; [tauto|discriminate]].
  split; [split; discriminate|].
  intros calls forwarded [= <-] [= <-].
  destruct (truthy sid && truthy st); cbn; split; auto.
Qed.

Lemma runForEach_clean onEvent events :
  Forall (fun e => throws e = false) events ->
  runForEach onEvent events = (concat (routed onEvent <$> events), Merged.Success tt).
Proof.
  induction 1 as [|e events He _ IH]; [reflexivity|].
  cbn [runForEach fmap list_fmap concat]. unfold routed at 1. unfold throws in He.
  destruct (routeEventToStore e) as [calls|]; [|discriminate He].
  rewrite IH, <- app_assoc. reflexivity.
Qed.

Lemma runForEach_defect onEvent bad post pre :
  Forall (fun e => throws e = false) pre ->
  throws bad = true ->
  runForEach onEvent (pre ++ bad :: post) = (concat (routed onEvent <$> pre), Merged.Die).
Proof.
  intros Hpre Hbad. induction Hpre as [|e pre He _ IH].
  - cbn [app runForEach]. unfold throws in Hbad.
    destruct (routeEventToStore bad); [discriminate Hbad | reflexivity].
  - cbn [app runForEach fmap list_fmap concat]. unfold routed at 1. unfold throws in He.
    destruct (routeEventToStore e) as [calls|]; [|discriminate He].
    rewrite IH, <- app_assoc. reflexivity.
Qed.

(** X10. The consumer of the merged stream routes and logs the events
    in the order delivered, as long as the router returns, and then ends
    well.  The first event on which the router throws ends it with a
    defect, which Effect.catchAll does not recover: the events before it
    have been routed, that event and every event after it are not. *)
Theorem consumer_stops_at_first_defect (onEvent : bool) (pre : list SourceEvent) :
  Forall (fun e => throws e = false) pre ->
  consumerEffect onEvent pre = (concat (routed onEvent <$> pre), Merged.Success tt)
  /\ forall bad post,
       throws bad = true ->
       consumerEffect onEvent (pre ++ bad :: post)
       = (concat (routed onEvent <$> pre), Merged.Die).
Proof.
  intros Hpre. unfold consumerEffect. split.
  - rewrite runForEach_clean by exact Hpre. reflexivity.
  - intros bad post Hbad. rewrite runForEach_defect by assumption. reflexivity.
Qed.

(** X25. An event in the shape the SSE bridge reads, its session or
    message under properties.info and no id beside it, reaches the
    store through the bridge only: the bridge upserts the entity, the
    handler of WorldSSE and the router of the merged stream make no
    store call, and the handler of createWorldStream upserts the
    wrapper in place of the entity. *)
Theorem wrapped_events_reach_only_the_bridge (src ty : string) (properties info : Json) :
  is_one_of ty ["session.created"; "session.updated"; "message.updated"] = true ->
  get properties "info" = Returned info ->
  truthy info = true ->
  truthy (get_opt properties "id") = false ->
  let event := {| sse_type := ty; sse_properties := properties |} in
  (exists call,
     processEvent event = Returned [call]
     /\ (call = UpsertSession info \/ call = UpsertMessage info))
  /\ (exists calls, handleEvent event = Returned calls /\ store_calls calls = [])
  /\ (exists call,
        handleSSEEvent event = Returned [call]
        /\ (call = UpsertSession properties \/ call = UpsertMessage properties))
  /\ routeEventToStore {| source := src; type := ty; data := properties |} = Returned [].
Proof.
  intros Hty Hinfo Htruthy Hid event. subst event.
  unfold processEvent, handleEvent, handleSSEEvent, routeEventToStore, is_one_of in *.
  cbn [sse_type sse_properties type data existsb] in *.
  revert Hty. by_type ty; cbn [orb]; intros Hty; try discriminate Hty;
    rewrite ?Hinfo, ?Htruthy, ?Hid;
    (split; [eexists; split; [reflexivity | auto]|]);
    (split; [eexists; split; [reflexivity | reflexivity]|]);
    (split; [eexists; split; [reflexivity | auto] | reflexivity]).
Qed.

End WireFacts.

(** The session.created event of the bridge's tests. *)
Lemma wrapped_events_reach_only_the_bridge_witness :
  let properties :=
    Router.JObject [("info", Router.JObject [("id", Router.JString "session-1");
                                              ("title", Router.JString "Test Session")])] in
  Wire.processEvent {| Router.sse_type := "session.created";
                       Router.sse_properties := properties |}
  = Router.Returned
      [Router.UpsertSession
         (Router.JObject [("id", Router.JString "session-1");
                          ("title", Router.JString "Test Session")])]
  /\ Router.store_calls
       (match Router.handleEvent {| Router.sse_type := "session.created";
                                    Router.sse_properties := properties |} with
        | Router.Returned calls => calls
        | Router.Thrown => []
        end) = []
  /\ Router.routeEventToStore
       {| Router.source := "sse"; Router.type := "session.created";
          Router.data := properties |} = Router.Returned [].
Proof.
  cbv zeta.
  pose proof (WireFacts.wrapped_events_reach_only_the_bridge "sse" "session.created"
                (Router.JObject
                   [("info", Router.JObject [("id", Router.JString "session-1");
                                             ("title", Router.JString "Test Session")])])
                (Router.JObject [("id", Router.JString "session-1");
                                 ("title", Router.JString "Test Session")])
                eq_refl eq_refl eq_refl eq_refl) as H.
  cbv zeta in H. destruct H as (_ & _ & _ & H).
  split; [reflexivity|]. split; [reflexivity | exact H].
Defined.

(** A message event as the wire carries it. *)
Lemma handleEvent_returns_on_parsed_witness :
  Wire.onEvent
    (Router.Returned
       (Router.JObject
          [("payload",
            Router.JObject [("type", Router.JString "message.updated");
                            ("properties", Sample.message_json)])]))
  = Some (Router.JString "message.updated", Sample.message_json)
  /\ Router.handleEvent
       {| Router.sse_type := "message.updated";
          Router.sse_properties := Sample.message_json |}
     <> Router.Thrown.
Proof.
  split; [reflexivity|].
  destruct (WireFacts.handleEvent_returns_on_parsed
              (Router.Returned
                 (Router.JObject
                    [("payload",
                      Router.JObject [("type", Router.JString "message.updated");
                                      ("properties", Sample.message_json)])]))
              "message.updated" Sample.message_json eq_refl)
    as (_ & calls & E & _).
  rewrite E. discriminate.
Defined.

(** A message, then a status event without data, then a message. *)
Lemma consumer_stops_at_first_defect_witness :
  Wire.consumerEffect true
    ([ {| Router.source := "swarm-db"; Router.type := "message.updated";
          Router.data := Sample.message_json |} ]
     ++ {| Router.source := "swarm-db"; Router.type := "session.status";
           Router.data := Router.JNull |}
     :: [ {| Router.source := "swarm-db"; Router.type := "message.updated";
             Router.data := Sample.message_json |} ])
  = ([ Router.UpsertMessage Sample.message_json;
       Sample.running_signal;
       Router.OnEvent "swarm-db" "message.updated" Sample.message_json ],
     Merged.Die).
Proof.
  destruct (WireFacts.consumer_stops_at_first_defect true
              [ {| Router.source := "swarm-db"; Router.type := "message.updated";
                   Router.data := Sample.message_json |} ])
    as [_ H].
  - repeat constructor.
  - apply (H {| Router.source := "swarm-db"; Router.type := "session.status";
                Router.data := Router.JNull |}
             [ {| Router.source := "swarm-db"; Router.type := "message.updated";
                  Router.data := Sample.message_json |} ]).
    reflexivity.
Defined.

(* ===================================================================== *)
(** * 32. The async iterators                                             *)
(* ===================================================================== *)

Module IteratorFacts.
Import Iterator.
Section Facts.
Context {S : Type}.
Implicit Types (st : State S) (ev : Event S).

Lemma loop_spec r : forall (q d : list S),
  subscribed (loop r q d)
  /\ accounted (loop r q d)
  /\ delivered (loop r q d) ++ pending (loop r q d) = d ++ q
  /\ (length (delivered (loop r q d)) + requests (loop r q d) = length d + r)%nat.
Proof.
  induction r as [|r IH]; intros q d; cbn [loop].
  - split; [exact I|]. split; [reflexivity|]. split; [reflexivity | cbn; lia].
  - destruct q as [|x q].
    + split; [reflexivity|]. split; [cbn; lia|]. split; [reflexivity | cbn; lia].
    + destruct (IH q (d ++ [x])) as (H1 & H2 & H3 & H4).
      split; [exact H1|]. split; [exact H2|]. split.
      * rewrite H3, <- app_assoc. reflexivity.
      * rewrite H4, length_app. cbn. lia.
Qed.

Lemma step_subscribed immediate st ev :
  subscribed st ->
  subscribed (step immediate st ev)
  /\ delivered (step immediate st ev) ++ pending (step immediate st ev)
     = delivered st ++ pending st ++ notified [ev].
Proof.
  destruct st as [m q d r]. unfold subscribed, step, notified.
  cbn [mode queue delivered requests omap list_omap].
  destruct m, ev; cbn [mode queue]; intros H; try contradiction; try subst q;
    try (destruct (loop_spec r q d) as (H1 & _ & H3 & _); split; [exact H1|];
         rewrite H3, app_nil_r; reflexivity);
    try (destruct (loop_spec 1 q d) as (H1 & _ & H3 & _); split; [exact H1|];
         rewrite H3, app_nil_r; reflexivity);
    try (destruct (loop_spec (Nat.pred r) q (d ++ [state])) as (H1 & _ & H3 & _);
         split; [exact H1|]; rewrite H3, app_nil_r, <- app_assoc; reflexivity);
    (split; [first [exact I | reflexivity] |
             unfold pending; cbn [mode queue delivered];
             rewrite ?app_nil_r, <- ?app_assoc; reflexivity]).
Qed.

Lemma run_subscribed immediate events : forall st,
  subscribed st ->
  delivered (run immediate events st) ++ pending (run immediate events st)
  = delivered st ++ pending st ++ notified events.
Proof.
  induction events as [|ev events IH]; intros st H; cbn [run fold_left].
  - unfold notified. cbn. rewrite !app_nil_r. reflexivity.
  - destruct (step_subscribed immediate st ev H) as [H' E].
    fold (run immediate events (step immediate st ev)).
    rewrite (IH _ H'), app_assoc, E, <- !app_assoc.
    do 2 f_equal. unfold notified. destruct ev; reflexivity.
Qed.

Lemma step_accounted immediate st ev :
  accounted st ->
  accounted (step immediate st ev)
  /\ (length (delivered (step immediate st ev)) + requests (step immediate st ev)
      = length (delivered st) + requests st + (if is_next ev then 1 else 0))%nat.
Proof.
  destruct st as [m q d r]. unfold accounted, step.
  cbn [mode queue delivered requests].
  destruct m, ev; cbn [mode queue delivered requests is_next]; intros H;
    try (destruct immediate; cbn [mode requests delivered]);
    try (destruct (loop_spec r q d) as (_ & H2 & _ & H4); split; [exact H2 | lia]);
    try (destruct (loop_spec 1 q d) as (_ & H2 & _ & H4); split; [exact H2 | lia]);
    try (destruct (loop_spec (Nat.pred r) q (d ++ [state])) as (_ & H2 & _ & H4);
         split; [exact H2 | rewrite H4, length_app; cbn; lia]);
    destruct r as [|[|r]]; cbn [Nat.pred mode requests delivered];
    (split; [lia | rewrite ?length_app; cbn; lia]).
Qed.

Lemma run_accounted immediate events : forall st,
  accounted st ->
  (length (delivered (run immediate events st)) + requests (run immediate events st)
   = length (delivered st) + requests st + length (List.filter is_next events))%nat.
Proof.
  induction events as [|ev events IH]; intros st H; cbn [run fold_left List.filter].
  - cbn. lia.
  - destruct (step_accounted immediate st ev H) as [H' E].
    fold (run immediate events (step immediate st ev)). rewrite (IH _ H'), E.
    destruct (is_next ev); cbn [length]; lia.
Qed.

Lemma run_not_started immediate events :
  Forall (fun ev => is_next ev = false) events ->
  run immediate events (initial (S := S)) = initial.
Proof.
  induction 1 as [|ev events Hev _ IH]; [reflexivity|].
  cbn [run fold_left]. destruct ev; try discriminate Hev; exact IH.
Qed.

Lemma run_first_yield immediate events d :
  Forall (fun ev => is_next ev = false) events ->
  run immediate events
    {| mode := AtFirstYield; queue := []; delivered := d; requests := 0 |}
  = {| mode := AtFirstYield; queue := []; delivered := d; requests := 0 |}.
Proof.
  induction 1 as [|ev events Hev _ IH]; [reflexivity|].
  cbn [run fold_left]. destruct ev; try discriminate Hev; exact IH.
Qed.

Lemma run_acquiring events : forall d r,
  Forall (fun ev => is_acquire ev = false) events ->
  exists r',
    run false events {| mode := Acquiring; queue := []; delivered := d; requests := r |}
    = {| mode := Acquiring; queue := []; delivered := d; requests := r' |}.
Proof.
  induction events as [|ev events IH]; intros d r H; [exists r; reflexivity|].
  apply Forall_cons in H as [Hev H]. cbn [run fold_left].
  destruct ev; try discriminate Hev; cbn [step mode queue delivered requests];
    apply IH, H.
Qed.

Lemma filter_next_app (l l' : list (Event S)) :
  List.filter is_next (l ++ l') = List.filter is_next l ++ List.filter is_next l'.
Proof. apply List.filter_app. Qed.

(** Inside the first [yield] of [stream.ts]: calls of [next()] are
    queued, the rest passes by. *)
Lemma run_first_yielding_queued current (between : list (Event S)) : forall d r,
  Forall (fun ev => is_yielded ev = false) between ->
  run true between
    {| mode := FirstYielding current; queue := []; delivered := d; requests := r |}
  = {| mode := FirstYielding current; queue := []; delivered := d;
       requests := r + length (List.filter is_next between) |}.
Proof.
  unfold run. induction between as [|ev between IH]; intros d r H.
  - cbn. rewrite Nat.add_0_r. reflexivity.
  - apply Forall_cons in H as [Hev H]. cbn [fold_left].
    destruct ev; try discriminate Hev;
      cbn [step mode queue delivered requests List.filter is_next];
      rewrite IH by exact H; cbn [length]; f_equal; lia.
Qed.

(** The first [yield] ends with no call queued: the generator is
    suspended there, the state read handed over. *)
Lemma run_first_yielding_ended current (between : list (Event S)) d :
  Forall (fun ev => is_next ev = false) between ->
  Exists (fun ev => is_yielded ev = true) between ->
  run true between
    {| mode := FirstYielding current; queue := []; delivered := d; requests := 1 |}
  = {| mode := AtFirstYield; queue := []; delivered := d ++ [current]; requests := 0 |}.
Proof.
  unfold run. induction between as [|ev between IH]; intros Hn Hy.
  - inversion Hy.
  - apply Forall_cons in Hn as [Hev Hn]. cbn [fold_left].
    destruct ev; try discriminate Hev;
      cbn [step mode queue delivered requests Nat.pred];
      try (apply IH; [exact Hn|];
           inversion Hy as [? ? Hh | ? ? Ht]; [discriminate Hh | exact Ht]).
    exact (run_first_yield true between (d ++ [current]) Hn).
Qed.

Lemma filter_next_exists (events : list (Event S)) :
  Exists (fun ev => is_next ev = true) events ->
  (1 <= length (List.filter is_next events))%nat.
Proof.
  induction 1 as [ev events Hev | ev events _ IH]; cbn [List.filter].
  - rewrite Hev. cbn. lia.
  - destruct (is_next ev); cbn [length]; lia.
Qed.

(** X11. The async iterator of createWorldStream first hands over the
    state read at the first next().  It subscribes to the store when it
    leaves that first yield: at the next call of next() if the yield
    has ended by then, and at the end of the yield if next() was called
    again while it was under way.  From that event on every state the
    store notifies is handed over or held (in the promise or the queue)
    exactly once and in the order notified, whatever the interleaving
    of notifications, calls of next() and resumptions; what the store
    notifies before it is never handed over.  Every call of next() is
    answered once at most: the states handed over and the calls still
    open make the number of calls. *)
Theorem iterator_hands_over_in_order (before between after : list (Event S))
    (first : S) (trigger : Event S) :
  Forall (fun ev => is_next ev = false) before ->
  subscribes_at between trigger ->
  let events := before ++ Next first :: between ++ trigger :: after in
  let st := run true events initial in
  delivered st ++ pending st = first :: notified after
  /\ (length (delivered st) + requests st = length (List.filter is_next events))%nat.
Proof.
  intros Hb Hsub events st. split.
  - subst st events. unfold run.
    rewrite fold_left_app. fold (run true before (initial (S := S))).
    rewrite run_not_started by exact Hb.
    cbn [fold_left step initial mode queue delivered app].
    rewrite fold_left_app.
    fold (run true between
            {| mode := FirstYielding first; queue := []; delivered := [];
               requests := 1 |}).
    destruct Hsub as [(Hn & Hy & Ht) | (Hy & Hn & ->)].
    + rewrite run_first_yielding_ended by assumption.
      destruct trigger; try discriminate Ht.
      cbn [fold_left step mode queue delivered app].
      fold (run true after
              {| mode := Waiting; queue := []; delivered := [first]; requests := 1 |}).
      rewrite run_subscribed by reflexivity. reflexivity.
    + rewrite run_first_yielding_queued by exact Hy.
      pose proof (filter_next_exists between Hn) as Hk.
      destruct (length (List.filter is_next between)) as [|k]; [lia|].
      cbn [fold_left step mode queue delivered requests Nat.pred Nat.add app].
      fold (run true after
              {| mode := Waiting; queue := []; delivered := [first];
                 requests := Datatypes.S k |}).
      rewrite run_subscribed by reflexivity. reflexivity.
  - subst st. rewrite run_accounted by reflexivity. reflexivity.
Qed.

(** X24. The async iterator of the merged stream hands over the state
    read at the first next(), and at the second next() first awaits a
    scope and the acquisition of its subscription.  Every state the
    store notifies after the acquisition is handed over or held exactly
    once and in the order notified, whatever the interleaving; what the
    store notifies before the acquisition, also after the second
    next(), is never handed over.  Every call of next() is answered once
    at most. *)
Theorem merged_iterator_hands_over_in_order
    (before between acquiring after : list (Event S)) (first second : S) :
  Forall (fun ev => is_next ev = false) before ->
  Forall (fun ev => is_next ev = false) between ->
  Forall (fun ev => is_acquire ev = false) acquiring ->
  let events :=
    before ++ Next first :: between ++ Next second :: acquiring ++ Acquire :: after in
  let st := run false events initial in
  delivered st ++ pending st = first :: notified after
  /\ (length (delivered st) + requests st = length (List.filter is_next events))%nat.
Proof.
  intros Hb Hm Ha events st. split.
  - subst st events. unfold run.
    rewrite fold_left_app. fold (run false before (initial (S := S))).
    rewrite run_not_started by exact Hb.
    cbn [fold_left step initial mode queue delivered app].
    rewrite fold_left_app.
    fold (run false between
            {| mode := AtFirstYield; queue := []; delivered := [first]; requests := 0 |}).
    rewrite run_first_yield by exact Hm. cbn [fold_left step mode queue delivered].
    rewrite fold_left_app.
    fold (run false acquiring
            {| mode := Acquiring; queue := []; delivered := [first]; requests := 1 |}).
    destruct (run_acquiring acquiring [first] 1%nat Ha) as [r' ->].
    cbn [fold_left step mode queue delivered requests].
    fold (run false after
            {| mode := Subscribed; queue := []; delivered := [first]; requests := r' |}).
    rewrite run_subscribed by exact I. reflexivity.
  - subst st. rewrite run_accounted by reflexivity. reflexivity.
Qed.

End Facts.
End IteratorFacts.

(** next() is called twice in one turn: the store changes before the
    first yield has ended, and that state is lost; the two changes
    after it are handed over. *)
Lemma iterator_hands_over_in_order_witness :
  let st :=
    Iterator.run true
      ([Iterator.Notify 0%nat]
       ++ Iterator.Next 1%nat
       :: [Iterator.Next 1%nat; Iterator.Notify 3%nat]
       ++ Iterator.Yielded
       :: [Iterator.Notify 4%nat; Iterator.Notify 5%nat; Iterator.Resume;
           Iterator.Next 5%nat])
      Iterator.initial in
  Iterator.subscribes_at [Iterator.Next 1%nat; Iterator.Notify 3%nat] Iterator.Yielded
  /\ Iterator.delivered st ++ Iterator.pending st = [1; 4; 5]%nat
  /\ Iterator.delivered st = [1; 4; 5]%nat.
Proof.
  assert (Iterator.subscribes_at [Iterator.Next 1%nat; Iterator.Notify 3%nat]
            (Iterator.Yielded (S := nat))) as Hsub.
  { right. split; [repeat constructor|]. split; [left; reflexivity | reflexivity]. }
  split; [exact Hsub|]. split; [|reflexivity].
  apply (IteratorFacts.iterator_hands_over_in_order
           [Iterator.Notify 0%nat] [Iterator.Next 1%nat; Iterator.Notify 3%nat]
           [Iterator.Notify 4%nat; Iterator.Notify 5%nat; Iterator.Resume;
            Iterator.Next 5%nat] 1%nat Iterator.Yielded);
    [repeat constructor | exact Hsub].
Defined.

(** A change of the store while the subscription is being acquired is
    lost, one right after the acquisition is kept. *)
Lemma merged_iterator_hands_over_in_order_witness :
  let st :=
    Iterator.run false
      ([]
       ++ Iterator.Next 1%nat
       :: []
       ++ Iterator.Next 1%nat
       :: [Iterator.Notify 2%nat]
       ++ Iterator.Acquire
       :: [Iterator.Notify 3%nat; Iterator.Enter; Iterator.Notify 4%nat])
      Iterator.initial in
  Iterator.delivered st ++ Iterator.pending st = [1; 3; 4]%nat
  /\ Iterator.delivered st = [1; 3]%nat.
Proof.
  split; [|reflexivity].
  apply (IteratorFacts.merged_iterator_hands_over_in_order
           [] [] [Iterator.Notify 2%nat]
           [Iterator.Notify 3%nat; Iterator.Enter; Iterator.Notify 4%nat] 1%nat 1%nat);
    repeat constructor.
Defined.

(* ===================================================================== *)
(** * 33. Histories of the cursor store                                   *)
(* ===================================================================== *)

Module CursorHistory.
Import CursorStore CursorStoreFacts.

Lemma load_after_delete key (db : Table) :
  loadCursor Resolves key (snd (deleteCursor Resolves key db)) = Ok None.
Proof.
  rewrite loadCursor_lookup. cbn [deleteCursor snd].
  rewrite lookup_delete_eq. reflexivity.
Qed.

Lemma load_other_write w key (db : Table) :
  write_key w <> key ->
  loadCursor Resolves key (apply_write db w) = loadCursor Resolves key db.
Proof.
  intros Hne. destruct w as [t c | k]; cbn [apply_write write_key] in *.
  - apply load_other_key. congruence.
  - rewrite !loadCursor_lookup. cbn [deleteCursor snd].
    rewrite lookup_delete_ne by exact Hne. reflexivity.
Qed.

(** X12. After any history of saves and deletes that succeeded, the
    timestamps saved being safe integers (below 2^53 in absolute
    value), the cursor loaded for a project key is decided by the last
    write that names the key: the cursor of that save, field by field,
    or null after a delete; with no such write the load ends as it
    would have before the history.  Writes under other keys never
    matter, and a delete of a key that is absent changes nothing that
    is loaded. *)
Theorem cursor_last_write_wins (history : list Mutation) (db : Table) (key : string) :
  Forall safe_write history ->
  loadCursor Resolves key (fold_left apply_write history db)
  = match lastWrite key history with
    | Some (Save _ cursor) => Ok (Some cursor)
    | Some (Delete _) => Ok None
    | None => loadCursor Resolves key db
    end.
Proof.
  unfold lastWrite.
  induction history as [|w history IH] using rev_ind; intros Hsafe; [reflexivity|].
  apply Forall_app in Hsafe as [Hh Hw]. apply Forall_cons in Hw as [Hw _].
  rewrite fold_left_app, List.filter_app. cbn [fold_left List.filter].
  destruct (String.eqb_spec (write_key w) key) as [E|Hne].
  - rewrite last_snoc. destruct w as [t c | k]; cbn [write_key apply_write] in *.
    + subst key. apply load_after_save, Hw.
    + subst k. apply load_after_delete.
  - rewrite app_nil_r, load_other_write by exact Hne. apply IH, Hh.
Qed.

End CursorHistory.

(** Two saves under /test with a delete between them, and a save under
    another key: the second save is what is loaded. *)
Lemma cursor_last_write_wins_witness :
  let c1 := {| CursorStore.offset := "0000000042";
               CursorStore.timestamp := 1700000000000;
               CursorStore.projectKey := "/test" |} in
  let c2 := {| CursorStore.offset := "0000000050";
               CursorStore.timestamp := 1700000000900;
               CursorStore.projectKey := "/test" |} in
  let other := {| CursorStore.offset := "0000000007";
                  CursorStore.timestamp := 1700000000300;
                  CursorStore.projectKey := "/other" |} in
  let history := [CursorStore.Save 1 c1; CursorStore.Delete "/test";
                  CursorStore.Save 2 c2; CursorStore.Save 3 other] in
  Forall CursorStore.safe_write history
  /\ CursorStore.loadCursor CursorStore.Resolves "/test"
       (fold_left CursorStore.apply_write history ∅)
     = CursorStore.Ok (Some c2).
Proof.
  cbv zeta.
  match goal with |- Forall _ ?h /\ _ => assert (Forall CursorStore.safe_write h) as Hs end.
  { repeat constructor. }
  split; [exact Hs|].
  rewrite (CursorHistory.cursor_last_write_wins _ ∅ "/test" Hs). reflexivity.
Defined.

(* ===================================================================== *)
(** * 34. The watch command                                               *)
(* ===================================================================== *)

Module WatchFacts.
Import Js Watch.
Section Facts.
Context {B : Type} (normalize : B -> SessionStatus) {P : Type}.

Lemma offsets_from_never_empty k : forall c s, s ∈ offsets_from c k -> s <> EmptyString.
Proof.
  induction k as [|k IH]; intros c s H; cbn [offsets_from] in H.
  - apply elem_of_nil in H. contradiction.
  - apply elem_of_cons in H as [-> | H]; [apply formatOffset_never_empty | eapply IH, H].
Qed.

Lemma resume_offsets_never_empty (w1 w2 : Snapshot B) clock saved
    (live : list (GlobalEvent P)) e :
  e ∈ resumeEvents normalize w1 w2 clock saved live -> we_offset P e <> EmptyString.
Proof.
  rewrite resume_unfold. intros H.
  assert (we_offset P e
          ∈ we_offset P <$>
              (cr_events P (catchUpEvents normalize w1 saved)
               ++ tailEvents clock
                    (or_else (cr_nextOffset P (catchUpEvents normalize w2 saved)) saved)
                    live)) as Hin.
  { apply list_elem_of_fmap. exists e. split; [reflexivity | exact H]. }
  rewrite fmap_app, catchUp_offsets, tail_offsets in Hin.
  apply elem_of_app in Hin as [Hin | Hin]; eapply offsets_from_never_empty, Hin.
Qed.

Lemma handleEvents_saved options f (writes : nat -> CursorStore.IO) :
  cursorFile options = Some f -> f <> EmptyString ->
  (forall k, writes k = CursorStore.Resolves) ->
  forall (events : list (WorldEvent P)) k out fs,
    let r := handleEvents options writes k events out fs in
    exitCode r = None
    /\ written r = out ++ events
    /\ files r !! f
       = match last events with
         | Some e => Some (Readable (we_offset P e))
         | None => fs !! f
         end.
Proof.
  intros Hf Hne Hw events.
  induction events as [|e events IH]; intros k out fs; cbn [handleEvents].
  - cbn. rewrite app_nil_r. repeat split.
  - rewrite Hf. cbn [truthy default from_option id].
    destruct (String.eqb_spec f EmptyString) as [E|_]; [contradiction|]. cbn [negb].
    rewrite Hw. cbn [saveCursor].
    destruct (IH (S k) (out ++ [e]) (<[f := Readable (we_offset P e)]> fs))
      as (Hx & Hout & Hfile).
    split; [exact Hx|]. split; [rewrite Hout, <- app_assoc; reflexivity|].
    rewrite Hfile. destruct events as [|e' events].
    + apply lookup_insert_eq.
    + change (last (e :: e' :: events)) with (last (e' :: events)).
      destruct (last (e' :: events)) eqn:El; [reflexivity|].
      apply last_None in El. discriminate El.
Qed.

(** X13. The watch command with a cursor file resumes from what the
    file holds, if it exists, can be read and is not empty, and from the
    beginning otherwise: an offset given with --since is not used.
    When every write of the cursor file succeeds, the command writes out
    every event of the resumed stream and the file then holds the
    offset of the last event written, so that the next run with the
    same arguments resumes from that offset. *)
Theorem watch_resumes_from_last_written (args : list string) (options : WatchOptions)
    (f : string) (fs : Files) (writes : nat -> CursorStore.IO)
    (w1 w2 : Snapshot B) (clock : nat -> Z) (live : list (GlobalEvent P)) :
  parseArgs args = Options options ->
  cursorFile options = Some f -> f <> EmptyString ->
  (forall k, writes k = CursorStore.Resolves) ->
  let r := run normalize args fs writes w1 w2 clock live in
  savedOffset options fs
  = (if truthy (loadCursor f fs) then loadCursor f fs else None)
  /\ exitCode r = None
  /\ written r = resumeEvents normalize w1 w2 clock (savedOffset options fs) live
  /\ forall e, last (written r) = Some e ->
       savedOffset options (files r) = Some (we_offset P e).
Proof.
  intros Hargs Hf Hne Hw r. subst r. unfold run. rewrite Hargs.
  assert (forall fs', savedOffset options fs'
                      = if truthy (loadCursor f fs') then loadCursor f fs' else None)
    as Hsaved.
  { intros fs'. unfold savedOffset. rewrite Hf. cbn [truthy default from_option id].
    destruct (String.eqb_spec f EmptyString) as [E|_]; [contradiction|]. reflexivity. }
  split; [apply Hsaved|].
  destruct (handleEvents_saved options f writes Hf Hne Hw
              (resumeEvents normalize w1 w2 clock (savedOffset options fs) live)
              0%nat [] fs) as (Hx & Hout & Hfile).
  split; [exact Hx|]. split; [exact Hout|].
  intros e He. rewrite Hout in He. cbn [app] in He.
  rewrite Hsaved. unfold loadCursor. rewrite Hfile, He. cbn [truthy].
  destruct (String.eqb_spec (we_offset P e) EmptyString) as [E|_]; [|reflexivity].
  exfalso. revert E. eapply resume_offsets_never_empty.
  apply last_Some_elem_of, He.
Qed.



Lemma parseLoop_reads args : forall options parsed,
  parseLoop args options = Options parsed ->
  (forall value, since parsed = Some value ->
     since options = Some value
     \/ exists before after, args = before ++ "--since" :: value :: after)
  /\ (forall value, cursorFile parsed = Some value ->
       cursorFile options = Some value
       \/ exists before after, args = before ++ "--cursor-file" :: value :: after).
Proof.
  induction args as [args IH] using (well_founded_induction
    (Wf_nat.well_founded_ltof _ (@length string))).
  unfold Wf_nat.ltof in IH.
  intros options parsed H. destruct args as [|arg rest]; cbn [parseLoop] in H.
  { injection H as <-. split; intros value Hv; left; exact Hv. }
  assert (forall rest' o',
            (length rest' < length (arg :: rest))%nat ->
            parseLoop rest' o' = Options parsed ->
            forall skipped, arg :: rest = skipped ++ rest' ->
            (forall value, since parsed = Some value ->
               since o' = Some value
               \/ exists before after,
                    arg :: rest = before ++ "--since" :: value :: after)
            /\ (forall value, cursorFile parsed = Some value ->
                 cursorFile o' = Some value
                 \/ exists before after,
                      arg :: rest = before ++ "--cursor-file" :: value :: after)) as Hrec.
  { intros rest' o' Hlt Hp skipped Hs.
    destruct (IH rest' Hlt o' parsed Hp) as [H1 H2]. split; intros value Hv.
    - destruct (H1 value Hv) as [E | (before & after & E)]; [left; exact E|].
      right. exists (skipped ++ before), after. rewrite Hs, E, <- app_assoc. reflexivity.
    - destruct (H2 value Hv) as [E | (before & after & E)]; [left; exact E|].
      right. exists (skipped ++ before), after. rewrite Hs, E, <- app_assoc. reflexivity. }
  destruct (String.eqb_spec arg "--since") as [->|Hns].
  { destruct rest as [|value rest'].
    - injection H as <-. split; intros v Hv; [discriminate Hv | left; exact Hv].
    - destruct (Hrec rest' _ ltac:(cbn; lia) H ["--since"; value] eq_refl) as [H1 H2].
      split; intros v Hv.
      + destruct (H1 v Hv) as [E | E]; [|right; exact E].
        cbn in E. injection E as ->. right. exists [], rest'. reflexivity.
      + destruct (H2 v Hv) as [E | E]; [left; exact E | right; exact E]. }
  destruct (String.eqb_spec arg "--cursor-file") as [->|Hnc].
  { destruct rest as [|value rest'].
    - injection H as <-. split; intros v Hv; [left; exact Hv | discriminate Hv].
    - destruct (Hrec rest' _ ltac:(cbn; lia) H ["--cursor-file"; value] eq_refl)
        as [H1 H2].
      split; intros v Hv.
      + destruct (H1 v Hv) as [E | E]; [left; exact E | right; exact E].
      + destruct (H2 v Hv) as [E | E]; [|right; exact E].
        cbn in E. injection E as ->. right. exists [], rest'. reflexivity. }
  destruct (String.eqb arg "--help" || String.eqb arg "-h"); [discriminate H|].
  apply (Hrec rest options ltac:(cbn; lia) H [arg] eq_refl).
Qed.

Lemma parseLoop_exits args : forall options code,
  parseLoop args options = Exited code ->
  code = 0 /\ ("--help" ∈ args \/ "-h" ∈ args).
Proof.
  induction args as [args IH] using (well_founded_induction
    (Wf_nat.well_founded_ltof _ (@length string))).
  unfold Wf_nat.ltof in IH.
  intros options code H. destruct args as [|arg rest]; cbn [parseLoop] in H;
    [discriminate H|].
  assert (forall rest' o',
            (length rest' < length (arg :: rest))%nat ->
            parseLoop rest' o' = Exited code ->
            (forall x, x ∈ rest' -> x ∈ arg :: rest) ->
            code = 0 /\ ("--help" ∈ arg :: rest \/ "-h" ∈ arg :: rest)) as Hrec.
  { intros rest' o' Hlt Hp Hsub. destruct (IH rest' Hlt o' code Hp) as [Hc [Hh|Hh]].
    - split; [exact Hc | left; apply Hsub, Hh].
    - split; [exact Hc | right; apply Hsub, Hh]. }
  destruct (String.eqb_spec arg "--since") as [->|Hns].
  { destruct rest as [|value rest']; [discriminate H|].
    apply (Hrec rest' _ ltac:(cbn; lia) H). intros x Hx. right. right. exact Hx. }
  destruct (String.eqb_spec arg "--cursor-file") as [->|Hnc].
  { destruct rest as [|value rest']; [discriminate H|].
    apply (Hrec rest' _ ltac:(cbn; lia) H). intros x Hx. right. right. exact Hx. }
  destruct (String.eqb_spec arg "--help") as [->|Hnh]; cbn [orb] in H.
  { injection H as <-. split; [reflexivity | left; left]. }
  destruct (String.eqb_spec arg "-h") as [->|Hnh'].
  { injection H as <-. split; [reflexivity | right; left]. }
  apply (Hrec rest options ltac:(cbn; lia) H). intros x Hx. right. exact Hx.
Qed.

End Facts.

(** X27. parseArgs leaves, with code 0, only when --help or -h is among
    the arguments.  When it returns options, an offset in since is an
    argument that directly follows a --since, and a path in cursorFile
    one that directly follows a --cursor-file; no other argument is ever
    taken for a value. *)
Theorem parseArgs_reads_what_follows_a_flag (args : list string) :
  match parseArgs args with
  | Exited code => code = 0 /\ ("--help" ∈ args \/ "-h" ∈ args)
  | Options options =>
      (forall value, since options = Some value ->
         exists before after, args = before ++ "--since" :: value :: after)
      /\ (forall value, cursorFile options = Some value ->
           exists before after, args = before ++ "--cursor-file" :: value :: after)
  end.
Proof.
  unfold parseArgs.
  destruct (parseLoop args {| since := None; cursorFile := None |}) as [options|code] eqn:E.
  - destruct (parseLoop_reads args _ _ E) as [H1 H2]. split; intros value Hv.
    + destruct (H1 value Hv) as [H | H]; [discriminate H | exact H].
    + destruct (H2 value Hv) as [H | H]; [discriminate H | exact H].
  - eapply parseLoop_exits, E.
Qed.

End WatchFacts.

(** A first run on an empty directory, --since given beside the cursor
    file: the stream starts from the beginning and the file ends up
    with the offset of the live event. *)
Lemma watch_resumes_from_last_written_witness :
  let r :=
    Watch.run (P := unit) Sample.keep
      ["--since"; "0000000100"; "--cursor-file"; ".cursor"] ∅
      (fun _ => CursorStore.Resolves)
      (Sample.backend [Sample.session "ses_a"] [])
      (Sample.backend [Sample.session "ses_a"] [])
      Sample.clock [Sample.live "session.updated"] in
  Watch.parseArgs ["--since"; "0000000100"; "--cursor-file"; ".cursor"]
  = Watch.Options {| Watch.since := Some "0000000100";
                     Watch.cursorFile := Some ".cursor" |}
  /\ we_offset unit <$> Watch.written r = ["0000000001"; "0000000002"]
  /\ Watch.savedOffset
       {| Watch.since := Some "0000000100"; Watch.cursorFile := Some ".cursor" |}
       (Watch.files r)
     = Some "0000000002".
Proof.
  cbv zeta. split; [reflexivity|].
  pose proof (WatchFacts.watch_resumes_from_last_written Sample.keep
                ["--since"; "0000000100"; "--cursor-file"; ".cursor"]
                {| Watch.since := Some "0000000100"; Watch.cursorFile := Some ".cursor" |}
                ".cursor" ∅ (fun _ => CursorStore.Resolves)
                (Sample.backend [Sample.session "ses_a"] [])
                (Sample.backend [Sample.session "ses_a"] [])
                Sample.clock [Sample.live "session.updated"]
                eq_refl eq_refl ltac:(discriminate) (fun _ => eq_refl)) as H.
  cbv zeta in H. destruct H as (_ & _ & Hw & Hlast).
  split.
  - rewrite Hw. reflexivity.
  - rewrite (Hlast (Build_WorldEvent unit "session.updated" "0000000002"
                      1700000000500 false (PLive tt))); [reflexivity|].
    rewrite Hw. reflexivity.
Defined.


(* ===================================================================== *)
(** * 35. The project view of the command line                            *)
(* ===================================================================== *)

Module CliFacts.
Import Cli.

(** ** Lists *)

Lemma filter_perm {X : Type} (f : X -> bool) (l l' : list X) :
  l ≡ₚ l' -> List.filter f l ≡ₚ List.filter f l'.
Proof.
  induction 1 as [|x l l' _ IH|x y l|l l' l'' _ IH1 _ IH2]; cbn [List.filter].
  - constructor.
  - destruct (f x); [constructor|]; exact IH.
  - destruct (f x), (f y); try reflexivity. apply perm_swap.
  - etransitivity; eassumption.
Qed.

Lemma concat_perm {X : Type} (ls ls' : list (list X)) :
  ls ≡ₚ ls' -> concat ls ≡ₚ concat ls'.
Proof.
  induction 1 as [|x l l' _ IH|x y l|l l' l'' _ IH1 _ IH2]; cbn [concat].
  - constructor.
  - rewrite IH. reflexivity.
  - rewrite !app_assoc. apply Permutation_app_tail, Permutation_app_comm.
  - etransitivity; eassumption.
Qed.

Lemma concat_pointwise_perm {X Y : Type} (f g : X -> list Y) (l : list X) :
  Forall (fun x => f x ≡ₚ g x) l -> concat (f <$> l) ≡ₚ concat (g <$> l).
Proof.
  induction 1 as [|x l Hx _ IH]; [constructor|].
  cbn [fmap list_fmap concat]. rewrite Hx, IH. reflexivity.
Qed.

Lemma sum_perm (l l' : list nat) : l ≡ₚ l' -> list_sum l = list_sum l'.
Proof.
  induction 1 as [|x l l' _ IH|x y l|l l' l'' _ IH1 _ IH2].
  - reflexivity.
  - change (list_sum (?a :: ?r)) with (a + list_sum r)%nat. rewrite IH. reflexivity.
  - change (list_sum (?a :: ?b :: ?r)) with (a + (b + list_sum r))%nat. lia.
  - congruence.
Qed.

Lemma sum_cons a (l : list nat) : list_sum (a :: l) = (a + list_sum l)%nat.
Proof. reflexivity. Qed.

Lemma sum_app (l l' : list nat) : list_sum (l ++ l') = (list_sum l + list_sum l')%nat.
Proof.
  induction l as [|a l IH]; [reflexivity|].
  cbn [app]. rewrite !sum_cons, IH. lia.
Qed.

Lemma length_filter_concat {X : Type} (f : X -> bool) (ls : list (list X)) :
  length (List.filter f (concat ls))
  = list_sum ((fun l => length (List.filter f l)) <$> ls).
Proof.
  induction ls as [|l ls IH]; [reflexivity|].
  cbn [concat fmap list_fmap]. rewrite List.filter_app, length_app, sum_cons, IH.
  reflexivity.
Qed.

Lemma sum_concat {X : Type} (f : X -> nat) (ls : list (list X)) :
  list_sum (f <$> concat ls) = list_sum ((fun l => list_sum (f <$> l)) <$> ls).
Proof.
  induction ls as [|l ls IH]; [reflexivity|].
  cbn [concat fmap list_fmap]. rewrite fmap_app, sum_app, sum_cons, IH. reflexivity.
Qed.

Lemma fold_sum {X : Type} (f : X -> nat) (l : list X) : forall a,
  fold_left (fun sum x => (sum + f x)%nat) l a = (a + list_sum (f <$> l))%nat.
Proof.
  induction l as [|x l IH]; intros a; cbn [fold_left fmap list_fmap].
  - cbn. lia.
  - rewrite IH, sum_cons. lia.
Qed.

Lemma length_filter_fmap {X Y : Type} (g : X -> Y) (f : Y -> bool) (l : list X) :
  length (List.filter f (g <$> l)) = length (List.filter (fun x => f (g x)) l).
Proof.
  induction l as [|x l IH]; [reflexivity|].
  cbn [fmap list_fmap List.filter]. destruct (f (g x)); cbn [length]; rewrite IH; reflexivity.
Qed.

(** ** The sort *)

Section SortFacts.
Context {A : Type} (notGreater : A -> A -> bool).
Hypothesis total : forall a b, notGreater a b = false -> notGreater b a = true.

Lemma insertDescending_perm x l : insertDescending notGreater x l ≡ₚ x :: l.
Proof.
  induction l as [|y l IH]; [reflexivity|]. cbn [insertDescending].
  destruct (notGreater y x); [reflexivity|]. rewrite IH. apply perm_swap.
Qed.

Lemma sortDescending_perm l : sortDescending notGreater l ≡ₚ l.
Proof.
  induction l as [|x l IH]; [reflexivity|].
  cbn [sortDescending fold_right]. rewrite insertDescending_perm.
  constructor. exact IH.
Qed.

Lemma insertDescending_descending x l :
  descending notGreater l -> descending notGreater (insertDescending notGreater x l).
Proof.
  unfold descending. induction 1 as [|y l Hl IH Hy]; cbn [insertDescending].
  - repeat constructor.
  - destruct (notGreater y x) eqn:E.
    + constructor; [constructor; assumption|]. constructor. exact E.
    + constructor; [exact IH|].
      destruct l as [|z l]; cbn [insertDescending].
      * constructor. apply total, E.
      * destruct (notGreater z x); constructor.
        -- apply total, E.
        -- inversion Hy; assumption.
Qed.

Lemma sortDescending_descending l : descending notGreater (sortDescending notGreater l).
Proof.
  induction l as [|x l IH]; [constructor|].
  cbn [sortDescending fold_right]. apply insertDescending_descending, IH.
Qed.

End SortFacts.

(** ** The grouping *)

Lemma add_keys d s m k :
  k ∈ fst <$> add d s m <-> k = d \/ k ∈ fst <$> m.
Proof.
  induction m as [|[d' l] m IH]; cbn [add fmap list_fmap fst].
  - rewrite list_elem_of_singleton, elem_of_nil. tauto.
  - destruct (String.eqb_spec d' d) as [->|Hne]; cbn [fmap list_fmap fst].
    + rewrite elem_of_cons. tauto.
    + rewrite !elem_of_cons, IH. tauto.
Qed.

Lemma add_grouped d s m :
  projectKey s = d -> grouped m -> grouped (add d s m).
Proof.
  intros Hs [Hn Hf]. induction m as [|[d' l] m IH]; cbn [add].
  - split.
    + cbn. apply NoDup_singleton.
    + constructor; [|constructor]. cbn [fst snd]. split; [discriminate|].
      constructor; [exact Hs | constructor].
  - cbn [fmap list_fmap fst] in Hn. apply NoDup_cons in Hn as [Hd' Hn].
    apply Forall_cons in Hf as [[Hne Hl] Hf']. cbn [fst snd] in *.
    destruct (String.eqb_spec d' d) as [->|Hdd].
    + split; [cbn [fmap list_fmap fst]; apply NoDup_cons; split; assumption|].
      constructor; [|exact Hf']. cbn [fst snd]. split.
      * destruct l; discriminate.
      * apply Forall_app. split; [exact Hl|]. repeat constructor. exact Hs.
    + destruct (IH Hn Hf') as [Hn' Hf''].
      split.
      * cbn [fmap list_fmap fst]. apply NoDup_cons. split; [|exact Hn'].
        rewrite add_keys. intros [E|E]; [congruence | contradiction].
      * constructor; [|exact Hf'']. split; assumption.
Qed.

Lemma add_sessions d s m : concat (snd <$> add d s m) ≡ₚ concat (snd <$> m) ++ [s].
Proof.
  induction m as [|[d' l] m IH]; cbn [add].
  - reflexivity.
  - destruct (String.eqb d' d); cbn [fmap list_fmap snd concat].
    + rewrite <- !app_assoc. apply Permutation_app_head, Permutation_app_comm.
    + rewrite IH, app_assoc. reflexivity.
Qed.

Lemma group_fold sessions : forall m,
  grouped m ->
  let m' := fold_left (fun projectMap coreSession =>
                         add (cs_directory coreSession) (cliSession coreSession)
                           projectMap) sessions m in
  grouped m' /\ concat (snd <$> m') ≡ₚ concat (snd <$> m) ++ (cliSession <$> sessions).
Proof.
  induction sessions as [|c sessions IH]; intros m Hm; cbn [fold_left].
  - split; [exact Hm|]. rewrite app_nil_r. reflexivity.
  - destruct (IH (add (cs_directory c) (cliSession c) m)) as [Hg Hp].
    { apply add_grouped; [reflexivity | exact Hm]. }
    split; [exact Hg|]. rewrite Hp, add_sessions, <- app_assoc. reflexivity.
Qed.

Lemma groupByDirectory_grouped sessions :
  grouped (groupByDirectory sessions)
  /\ concat (snd <$> groupByDirectory sessions) ≡ₚ cliSession <$> sessions.
Proof.
  destruct (group_fold sessions []) as [Hg Hp].
  { split; [apply NoDup_nil_2 | constructor]. }
  split; [exact Hg | exact Hp].
Qed.

Lemma session_order_total a b :
  bySessionActivity a b = false -> bySessionActivity b a = true.
Proof. unfold bySessionActivity. intros H. apply Z.leb_gt in H. apply Z.leb_le. lia. Qed.

Lemma project_order_total a b :
  byProjectActivity a b = false -> byProjectActivity b a = true.
Proof.
  unfold byProjectActivity, ext_leb.
  destruct (ps_lastActivityAt a), (ps_lastActivityAt b); try congruence.
  intros H. apply Z.leb_gt in H. apply Z.leb_le. lia.
Qed.

Lemma projects_perm coreState :
  projects (adaptCoreWorldState coreState)
  ≡ₚ projectState <$> groupByDirectory (core_sessions coreState).
Proof. apply sortDescending_perm. Qed.

Lemma projectState_sessions entry : ps_sessions (projectState entry) ≡ₚ snd entry.
Proof. apply sortDescending_perm. Qed.

Lemma projects_sessions coreState :
  concat (ps_sessions <$> projects (adaptCoreWorldState coreState))
  ≡ₚ cliSession <$> core_sessions coreState.
Proof.
  rewrite (concat_perm _ _ (fmap_Permutation ps_sessions _ _ (projects_perm coreState))).
  rewrite <- list_fmap_compose.
  rewrite (concat_pointwise_perm (ps_sessions ∘ projectState) snd).
  - apply groupByDirectory_grouped.
  - apply Forall_forall. intros entry _. apply projectState_sessions.
Qed.

(** X14. The project view groups the sessions by directory and loses
    none: no directory appears in two projects, no project is empty,
    every session of a project has the project's directory as its
    project key, and the sessions of all projects together are the
    sessions of the core state, each once. *)
Theorem projects_partition_the_sessions (coreState : CoreWorldState) :
  let world := adaptCoreWorldState coreState in
  NoDup (ps_directory <$> projects world)
  /\ Forall (fun project =>
               ps_sessions project <> []
               /\ Forall (fun s => projectKey s = ps_directory project)
                    (ps_sessions project))
       (projects world)
  /\ concat (ps_sessions <$> projects world) ≡ₚ cliSession <$> core_sessions coreState
  /\ totalSessions world = length (concat (ps_sessions <$> projects world)).
Proof.
  cbv zeta.
  destruct (groupByDirectory_grouped (core_sessions coreState)) as [[Hn Hf] Hp].
  split; [|split; [|split]].
  - rewrite (fmap_Permutation ps_directory _ _ (projects_perm coreState)).
    rewrite <- list_fmap_compose. exact Hn.
  - rewrite (projects_perm coreState). apply Forall_fmap.
    eapply Forall_impl; [exact Hf|]. intros entry [Hne Hk]. cbn [compose].
    pose proof (projectState_sessions entry) as Hs. split.
    + intros E. rewrite E in Hs. apply Permutation_nil_l in Hs. congruence.
    + rewrite Hs. exact Hk.
  - apply projects_sessions.
  - rewrite (projects_sessions coreState), length_fmap. reflexivity.
Qed.

(** ** The order *)

Lemma sorted_strongly {X : Type} (R R' : X -> X -> Prop) (l : list X) :
  Sorted R l -> (forall a b, R a b -> R' a b) -> Transitive R' -> StronglySorted R' l.
Proof.
  intros H Himp Htr. apply Sorted_StronglySorted; [exact Htr|].
  induction H as [|a l _ IH Hd]; constructor; [exact IH|].
  destruct Hd; constructor; auto.
Qed.

Lemma max_from numbers : forall a,
  exists m,
    fold_left (fun acc z =>
                 match acc with
                 | MinusInfinity => Finite z
                 | Finite a => Finite (Z.max a z)
                 end) numbers (Finite a) = Finite m
    /\ m ∈ a :: numbers
    /\ Forall (fun z => z <= m) (a :: numbers).
Proof.
  induction numbers as [|z numbers IH]; intros a; cbn [fold_left].
  - exists a. split; [reflexivity|]. split; [left|]. repeat constructor. lia.
  - destruct (IH (Z.max a z)) as (m & E & Hin & Hall).
    exists m. split; [exact E|].
    apply Forall_cons in Hall as [Hm Hall]. split.
    + apply elem_of_cons in Hin as [-> | Hin].
      * destruct (Z.max_spec a z) as [[_ ->] | [_ ->]]; [right; left | left].
      * right. right. exact Hin.
    + constructor; [lia|]. constructor; [lia | exact Hall].
Qed.

Lemma mathMax_greatest numbers :
  numbers <> [] ->
  exists m, mathMax numbers = Finite m /\ m ∈ numbers /\ Forall (fun z => z <= m) numbers.
Proof.
  destruct numbers as [|a numbers]; [contradiction|]. intros _.
  unfold mathMax. cbn [fold_left]. apply max_from.
Qed.

Lemma ext_order_transitive :
  Transitive (fun a b : ProjectState => byProjectActivity b a = true).
Proof.
  intros a b c. unfold byProjectActivity, ext_leb.
  destruct (ps_lastActivityAt a), (ps_lastActivityAt b), (ps_lastActivityAt c);
    try congruence.
  rewrite !Z.leb_le. lia.
Qed.

(** X15. In the project view the sessions of a project come by last
    activity, the most recent first, and so do the projects; the last
    activity of a project is a number, the greatest last activity among
    its sessions. *)
Theorem projects_come_most_recent_first (coreState : CoreWorldState) :
  let world := adaptCoreWorldState coreState in
  StronglySorted (fun a b => byProjectActivity b a = true) (projects world)
  /\ Forall (fun project =>
               StronglySorted (fun a b => lastActivityAt b <= lastActivityAt a)
                 (ps_sessions project)
               /\ exists m,
                    ps_lastActivityAt project = Finite m
                    /\ (exists s, s ∈ ps_sessions project /\ lastActivityAt s = m)
                    /\ Forall (fun s => lastActivityAt s <= m) (ps_sessions project))
       (projects world).
Proof.
  cbv zeta. split.
  - eapply sorted_strongly.
    + apply (sortDescending_descending byProjectActivity project_order_total).
    + auto.
    + apply ext_order_transitive.
  - destruct (groupByDirectory_grouped (core_sessions coreState)) as [[_ Hf] _].
    rewrite (projects_perm coreState). apply Forall_fmap.
    eapply Forall_impl; [exact Hf|]. intros entry [Hne _]. cbn [compose].
    split.
    + eapply sorted_strongly.
      * apply (sortDescending_descending bySessionActivity session_order_total).
      * unfold bySessionActivity. intros a b H. apply Z.leb_le, H.
      * intros a b c. lia.
    + pose proof (projectState_sessions entry) as Hs.
      destruct (mathMax_greatest (lastActivityAt <$> ps_sessions (projectState entry)))
        as (m & E & Hin & Hall).
      { intros E. apply fmap_nil_inv in E. rewrite E in Hs.
        apply Permutation_nil_l in Hs. congruence. }
      exists m. split; [exact E|]. split.
      * apply list_elem_of_fmap in Hin as (s & -> & Hin). exists s. split; [exact Hin | reflexivity].
      * exact (proj1 (Forall_fmap lastActivityAt (fun z => z <= m) _) Hall).
Qed.

(** ** The counts *)

Lemma isActiveStatus_running c :
  isActiveStatus (cliSession c) = String.eqb (cs_status c) "running".
Proof.
  unfold isActiveStatus, cliSession, mapCoreStatusToCliStatus. cbn [status].
  destruct (String.eqb (cs_status c) "running"); [reflexivity|].
  destruct (String.eqb (cs_status c) "completed"); reflexivity.
Qed.

Lemma projects_built coreState :
  Forall (fun project =>
            ps_activeCount project = length (List.filter isActiveStatus (ps_sessions project))
            /\ ps_totalMessages project = list_sum (messageCount <$> ps_sessions project))
    (projects (adaptCoreWorldState coreState)).
Proof.
  rewrite (projects_perm coreState). apply Forall_fmap, Forall_forall.
  intros entry _. cbn [compose]. split; [reflexivity|].
  unfold projectState. cbn [ps_totalMessages ps_sessions].
  rewrite fold_sum. reflexivity.
Qed.

(** X16. The counts of the project view add up: over all projects, the
    active counts make the number of sessions whose status is running,
    and the message totals make the number of messages of all sessions;
    the streaming count is the number of sessions of the view that are
    streaming.  (The count activeSessions is taken from the isActive
    flags, not from the statuses.) *)
Theorem project_counts_add_up (coreState : CoreWorldState) :
  let world := adaptCoreWorldState coreState in
  list_sum (ps_activeCount <$> projects world)
  = length (List.filter (fun c => String.eqb (cs_status c) "running")
              (core_sessions coreState))
  /\ list_sum (ps_totalMessages <$> projects world)
     = list_sum ((fun c => length (cs_messages c)) <$> core_sessions coreState)
  /\ streamingSessions world
     = length (List.filter isStreaming (concat (ps_sessions <$> projects world))).
Proof.
  cbv zeta. pose proof (projects_built coreState) as Hb.
  pose proof (projects_sessions coreState) as Hp.
  split; [|split].
  - assert (ps_activeCount <$> projects (adaptCoreWorldState coreState)
            = (fun l => length (List.filter isActiveStatus l))
                <$> (ps_sessions <$> projects (adaptCoreWorldState coreState))) as ->.
    { rewrite <- list_fmap_compose. apply Forall_fmap_ext.
      eapply Forall_impl; [exact Hb|]. intros project [H _]. exact H. }
    rewrite <- length_filter_concat.
    rewrite (Permutation_length (filter_perm isActiveStatus _ _ Hp)).
    rewrite length_filter_fmap. f_equal. apply List.filter_ext.
    intros c. apply isActiveStatus_running.
  - assert (ps_totalMessages <$> projects (adaptCoreWorldState coreState)
            = (fun l => list_sum (messageCount <$> l))
                <$> (ps_sessions <$> projects (adaptCoreWorldState coreState))) as ->.
    { rewrite <- list_fmap_compose. apply Forall_fmap_ext.
      eapply Forall_impl; [exact Hb|]. intros project [_ H]. exact H. }
    rewrite <- sum_concat.
    rewrite (sum_perm _ _ (fmap_Permutation messageCount _ _ Hp)).
    rewrite <- list_fmap_compose. reflexivity.
  - rewrite (Permutation_length (filter_perm isStreaming _ _ Hp)).
    rewrite length_filter_fmap. reflexivity.
Qed.

(** ** Relative times *)

Lemma quotient_bounds diff unit next :
  0 < unit -> unit <= diff -> diff < unit * next ->
  1 <= diff / unit < next.
Proof.
  intros Hu Hlo Hhi. split.
  - apply Z.div_le_lower_bound; lia.
  - apply Z.div_lt_upper_bound; lia.
Qed.

(** X17. A time that lies less than a second back, or ahead, is shown
    as now; any other as a count of whole seconds, minutes, hours or
    days, in the largest of these units that gives a count of one at
    least: the count shown is never zero, stays below 60 for seconds and
    minutes and below 24 for hours. *)
Theorem formatTimeAgo_units (now timestamp : Z) :
  let diff := now - timestamp in
  (diff < 1000 -> formatTimeAgo now timestamp = "now")
  /\ (1000 <= diff ->
      exists count unit,
        formatTimeAgo now timestamp
        = String.append (Js.toString (Js.Num count)) (String.append unit " ago")
        /\ 1 <= count
        /\ ((unit = "s" /\ count = diff / 1000 /\ count < 60)
            \/ (unit = "m" /\ count = diff / 60000 /\ count < 60)
            \/ (unit = "h" /\ count = diff / 3600000 /\ count < 24)
            \/ (unit = "d" /\ count = diff / 86400000))).
Proof.
  cbv zeta. unfold formatTimeAgo. split.
  - intros H. destruct (Z.ltb_spec (now - timestamp) 1000); [reflexivity | lia].
  - intros H.
    destruct (Z.ltb_spec (now - timestamp) 1000); [lia|].
    destruct (Z.ltb_spec (now - timestamp) 60000).
    { exists ((now - timestamp) / 1000), "s". split; [reflexivity|].
      destruct (quotient_bounds (now - timestamp) 1000 60) as [? ?]; try lia.
      split; [lia|]. left. repeat split; lia. }
    destruct (Z.ltb_spec (now - timestamp) 3600000).
    { exists ((now - timestamp) / 60000), "m". split; [reflexivity|].
      destruct (quotient_bounds (now - timestamp) 60000 60) as [? ?]; try lia.
      split; [lia|]. right. left. repeat split; lia. }
    destruct (Z.ltb_spec (now - timestamp) 86400000).
    { exists ((now - timestamp) / 3600000), "h". split; [reflexivity|].
      destruct (quotient_bounds (now - timestamp) 3600000 24) as [? ?]; try lia.
      split; [lia|]. right. right. left. repeat split; lia. }
    exists ((now - timestamp) / 86400000), "d". split; [reflexivity|].
    split; [apply Z.div_le_lower_bound; lia|]. right. right. right. split; reflexivity.
Qed.

End CliFacts.

(* ===================================================================== *)
(** * 36. Messages with their parts                                       *)
(* ===================================================================== *)

Module MessageServiceFacts.
Import MessageService.

Lemma filter_split {X : Type} (f g : X -> bool) (l : list X) :
  (forall x, f x = true -> g x = true -> False) ->
  List.filter (fun x => f x || g x) l ≡ₚ List.filter f l ++ List.filter g l.
Proof.
  intros Hd. induction l as [|x l IH]; [reflexivity|]. cbn [List.filter].
  destruct (f x) eqn:Ef, (g x) eqn:Eg; cbn [orb app].
  - exfalso. eapply Hd; eassumption.
  - constructor. exact IH.
  - rewrite IH. apply Permutation_middle.
  - exact IH.
Qed.

Lemma hasMessage_absent (messages : list World.Message) part message :
  World.msg_id message ∉ World.msg_id <$> messages ->
  String.eqb (World.part_messageID part) (World.msg_id message) = true ->
  hasMessage messages part = true -> False.
Proof.
  intros Hnin Heq Hhas. apply Hnin. apply String.eqb_eq in Heq.
  unfold hasMessage in Hhas. apply existsb_exists in Hhas as (m & Hin & Hm).
  apply String.eqb_eq in Hm. apply list_elem_of_fmap. exists m. split.
  - congruence.
  - apply list_elem_of_In, Hin.
Qed.

(** X18. The join of the message service lists the messages in the
    order fetched, each with the parts that name it, in the order
    fetched.  When no two messages share an id, the parts listed under
    all messages together are the fetched parts that name a fetched
    message, each once; a part that names no fetched message is dropped.
    The join fails when either fetch fails. *)
Theorem listWithParts_joins (messages : list World.Message) (parts : list World.Part) :
  NoDup (World.msg_id <$> messages) ->
  exists joined,
    listWithParts (Some messages) (Some parts) = Some joined
    /\ message <$> joined = messages
    /\ Forall (fun entry =>
                 MessageService.parts entry
                 = List.filter
                     (fun part =>
                        String.eqb (World.part_messageID part)
                          (World.msg_id (message entry)))
                     parts)
         joined
    /\ concat (MessageService.parts <$> joined) ≡ₚ List.filter (hasMessage messages) parts
    /\ listWithParts None (Some parts) = None
    /\ listWithParts (Some messages) None = None.
Proof.
  intros Hn. eexists. split; [reflexivity|].
  split; [|split; [|split; [|split; reflexivity]]].
  - induction messages as [|m messages IH]; [reflexivity|].
    cbn [List.map fmap list_fmap message]. f_equal. apply IH.
    cbn [fmap list_fmap] in Hn. apply NoDup_cons in Hn as [_ Hn]. exact Hn.
  - apply Forall_forall. intros entry Hin.
    apply list_elem_of_In, in_map_iff in Hin as (m & <- & _). reflexivity.
  - induction messages as [|m messages IH].
    + cbn. induction parts as [|p parts IHp]; [reflexivity | exact IHp].
    + cbn [fmap list_fmap] in Hn. apply NoDup_cons in Hn as [Hm Hn].
      cbn [List.map fmap list_fmap concat MessageService.parts].
      change (list_fmap _ _ MessageService.parts ?l) with (MessageService.parts <$> l).
      rewrite (IH Hn). symmetry.
      rewrite <- (filter_split
                    (fun part => String.eqb (World.part_messageID part) (World.msg_id m))
                    (hasMessage messages) parts).
      * reflexivity.
      * intros part. apply hasMessage_absent, Hm.
Qed.

End MessageServiceFacts.

(** Two messages, a part of each and a part of neither. *)
Lemma listWithParts_joins_witness :
  NoDup (World.msg_id <$>
           [Sample.message "msg-1" "ses-1" "user" None None;
            Sample.message "msg-2" "ses-1" "assistant" None None])
  /\ (exists joined,
        MessageService.listWithParts
          (Some [Sample.message "msg-1" "ses-1" "user" None None;
                 Sample.message "msg-2" "ses-1" "assistant" None None])
          (Some [Sample.part "part-1" "msg-2" "a"; Sample.part "part-2" "msg-9" "b";
                 Sample.part "part-3" "msg-1" "c"])
        = Some joined
        /\ concat (MessageService.parts <$> joined)
           = [Sample.part "part-3" "msg-1" "c"; Sample.part "part-1" "msg-2" "a"]).
Proof.
  assert (NoDup (World.msg_id <$>
                   [Sample.message "msg-1" "ses-1" "user" None None;
                    Sample.message "msg-2" "ses-1" "assistant" None None])) as Hn.
  { cbn. apply NoDup_cons. split; [|apply NoDup_singleton].
    intros H. apply list_elem_of_singleton in H. discriminate H. }
  split; [exact Hn|].
  destruct (MessageServiceFacts.listWithParts_joins
              [Sample.message "msg-1" "ses-1" "user" None None;
               Sample.message "msg-2" "ses-1" "assistant" None None]
              [Sample.part "part-1" "msg-2" "a"; Sample.part "part-2" "msg-9" "b";
               Sample.part "part-3" "msg-1" "c"] Hn)
    as (joined & E & _).
  exists joined. split; [exact E|].
  injection E as <-. reflexivity.
Defined.

(* ===================================================================== *)
(** * 37. The server list of the web client                               *)
(* ===================================================================== *)

Module ServersFacts.
Import Servers.

Lemma find_some {X : Type} (f : X -> bool) (l : list X) x :
  List.find f l = Some x -> x ∈ l /\ f x = true.
Proof.
  intros H. apply List.find_some in H as [Hin Hf].
  split; [apply list_elem_of_In, Hin | exact Hf].
Qed.

Lemma find_none {X : Type} (f : X -> bool) (l : list X) :
  List.find f l = None -> forall x, x ∈ l -> f x = false.
Proof.
  intros H x Hin. eapply List.find_none; [exact H | apply list_elem_of_In, Hin].
Qed.

Lemma offered_servers (servers : list ServerInfo) :
  discoverServers servers <> []
  /\ (forall s, s ∈ discoverServers servers -> s = DEFAULT_SERVER \/ s ∈ servers)
  /\ (forall s, s ∈ servers -> s ∈ discoverServers servers).
Proof.
  unfold discoverServers. destruct servers as [|s0 servers].
  { cbn. split; [discriminate|]. split.
    - intros s H. apply list_elem_of_singleton in H. left. exact H.
    - intros s H. apply elem_of_nil in H. contradiction. }
  cbn [length Nat.eqb]. destruct (existsb isDefault (s0 :: servers)).
  - split; [discriminate|]. split; [intros s H; right; exact H | intros s H; exact H].
  - split; [discriminate|]. split.
    + intros s H. apply elem_of_cons in H as [-> | H]; [left; reflexivity | right; exact H].
    + intros s H. right. exact H.
Qed.

(** X19. Whatever discovery yields, the server list offered is never
    empty and holds the fallback, a server on port 4056 without
    directory; the servers discovered are kept, in their order, and the
    fallback is put in front of them only when none of them is on port
    4056 without directory. *)
Theorem servers_always_offer_the_default (servers : list ServerInfo) :
  let offered := discoverServers servers in
  offered <> []
  /\ (exists s, s ∈ offered /\ port s = 4056 /\ directory s = EmptyString)
  /\ (offered = servers \/ offered = DEFAULT_SERVER :: servers)
  /\ (offered = servers <-> exists s, s ∈ servers /\ isDefault s = true).
Proof.
  cbv zeta. unfold discoverServers.
  destruct servers as [|s0 servers].
  { cbn. split; [discriminate|]. split.
    - exists DEFAULT_SERVER. split; [left | split; reflexivity].
    - split; [right; reflexivity|]. split; [discriminate|].
      intros (s & Hin & _). apply elem_of_nil in Hin. contradiction. }
  cbn [length Nat.eqb].
  destruct (existsb isDefault (s0 :: servers)) eqn:E.
  - apply existsb_exists in E as (s & Hin & Hs). apply list_elem_of_In in Hin.
    split; [discriminate|]. split.
    + exists s. split; [exact Hin|]. unfold isDefault in Hs.
      apply andb_prop in Hs as [Hp Hd]. apply Z.eqb_eq in Hp. apply String.eqb_eq in Hd.
      split; assumption.
    + split; [left; reflexivity|]. split; [|reflexivity].
      intros _. exists s. split; assumption.
  - split; [discriminate|]. split.
    + exists DEFAULT_SERVER. split; [left | split; reflexivity].
    + split; [right; reflexivity|]. split.
      * intros H. apply (f_equal length) in H. cbn in H. lia.
      * intros (s & Hin & Hs). exfalso.
        assert (existsb isDefault (s0 :: servers) = true) as E'.
        { apply existsb_exists. exists s. split; [apply list_elem_of_In, Hin | exact Hs]. }
        congruence.
Qed.

(** X20. The current server is always one of the servers offered: the
    first with a directory if there is one, the first of the list
    otherwise; it is the fallback while the list is loading, after a
    failure, and for an empty list.  Taken from the list that discovery
    offers, it has a directory exactly when a discovered server has
    one. *)
Theorem current_server_is_offered (servers : list ServerInfo) :
  let offered := discoverServers servers in
  let current := currentServer (Success offered) in
  current ∈ offered
  /\ (directory current <> EmptyString
      <-> exists s, s ∈ servers /\ directory s <> EmptyString)
  /\ (directory current <> EmptyString -> current ∈ servers)
  /\ currentServer Initial = DEFAULT_SERVER
  /\ currentServer Failure = DEFAULT_SERVER
  /\ currentServer (Success []) = DEFAULT_SERVER.
Proof.
  cbv zeta.
  destruct (offered_servers servers) as (Hne & Hsub & Hdir).
  set (offered := discoverServers servers) in *.
  assert (currentServer (Success offered) = selectBestServer offered) as ->.
  { unfold currentServer. destruct offered; [contradiction | reflexivity]. }
  unfold selectBestServer.
  destruct (List.find (fun s => negb (String.eqb (directory s) EmptyString)) offered)
    as [s|] eqn:E.
  - apply find_some in E as [Hin Hs]. apply negb_true_iff, String.eqb_neq in Hs.
    split; [exact Hin|]. split; [|split; [|repeat split]].
    + split; [|intros _; exact Hs]. intros _. exists s. split; [|exact Hs].
      apply Hsub in Hin as [-> | Hin]; [contradiction Hs; reflexivity | exact Hin].
    + intros _. apply Hsub in Hin as [-> | Hin]; [contradiction Hs; reflexivity | exact Hin].
  - pose proof (find_none _ _ E) as Hnone.
    destruct offered as [|first rest] eqn:Eo; [contradiction|]. cbn [lookup list_lookup].
    assert (directory first = EmptyString) as Hfirst.
    { specialize (Hnone first ltac:(left)).
      apply negb_false_iff, String.eqb_eq in Hnone. exact Hnone. }
    split; [left|]. split; [|split; [|repeat split]].
    + split; [intros H; contradiction|].
      intros (s & Hin & Hs). exfalso. apply Hdir in Hin.
      specialize (Hnone s Hin). apply negb_false_iff, String.eqb_eq in Hnone.
      contradiction.
    + intros H. contradiction.
Qed.

End ServersFacts.

(* ===================================================================== *)
(** * 38. Connections that are not retried                                *)
(* ===================================================================== *)

Module SseExtras.
Import Sse SseFacts.

(** X21. Whatever autoReconnect and maxReconnectAttempts say, a
    connection task in whose block no exception is thrown never sleeps
    and connects once at most.  When it settles, the port is removed
    from the connected set; when it ends in failure, the port stays in
    it.  It ends in failure as soon as the bootstrap or the stream of
    its first pass fails. *)
Theorem connection_task_runs_one_pass (cfg : Config) (script : list Round) :
  Forall no_throw script ->
  let t := connectToServer cfg script in
  delays t = []
  /\ (connects t <= 1)%nat
  /\ (is_settled t = true -> forall b, port_connected t b = false)
  /\ (is_failed t = true -> connects t = 1%nat /\ forall b, port_connected t b = true)
  /\ (forall r rest,
        script = r :: rest -> running r = true ->
        0 < cfg_maxReconnectAttempts cfg ->
        (outcome r <> StreamEnded <-> is_failed t = true)
        /\ (outcome r = StreamEnded <-> is_settled t = true)).
Proof.
  intros Hs t.
  assert (forall r rest,
            script = r :: rest -> running r = true ->
            0 < cfg_maxReconnectAttempts cfg ->
            (outcome r <> StreamEnded <-> is_failed t = true)
            /\ (outcome r = StreamEnded <-> is_settled t = true)) as Hfirst.
  { intros r rest -> Hr Hmax. subst t. unfold connectToServer.
    rewrite connectionLoop_eq, Hr.
    apply Z.ltb_lt in Hmax. rewrite Hmax. cbn [negb].
    apply Forall_cons in Hs as [Hn _]. unfold no_throw in Hn.
    destruct (outcome r); try congruence; cbn; split; split; congruence. }
  pose proof (connectionLoop_no_throw cfg 0 script Hs) as H.
  fold (connectToServer cfg script) in H. fold t in H. clearbody t.
  repeat (apply elem_of_cons in H as [-> | H]);
    [| | | | | apply elem_of_nil in H; contradiction];
    (split; [reflexivity|]); (split; [cbn; lia|]);
    (split; [cbn; intros; congruence|]);
    (split; [cbn; intros; (congruence || (split; reflexivity)) | exact Hfirst]).
Qed.

End SseExtras.

(** A bootstrap that fails, with the default configuration. *)
Lemma connection_task_runs_one_pass_witness :
  Forall Sse.no_throw Sample.failing_script
  /\ Sse.connectToServer Sse.defaultConfig Sample.failing_script
     = [Sse.Connect; Sse.Failed]
  /\ Sse.delays (Sse.connectToServer Sse.defaultConfig Sample.failing_script) = []
  /\ Sse.port_connected
       (Sse.connectToServer Sse.defaultConfig Sample.failing_script) false = true.
Proof.
  assert (Forall Sse.no_throw Sample.failing_script) as Hs.
  { repeat constructor; discriminate. }
  split; [exact Hs|]. split; [reflexivity|].
  destruct (SseExtras.connection_task_runs_one_pass Sse.defaultConfig
              Sample.failing_script Hs) as (Hd & _ & _ & Hf & _).
  split; [exact Hd|]. apply (Hf eq_refl).
Defined.

(* ===================================================================== *)
(** * 39. From the sources to the store                                   *)
(* ===================================================================== *)

Module PipelineFacts.
Import Router Merged Wire.

Lemma routed_perm onEvent (out events : list SourceEvent) :
  out ≡ₚ events ->
  concat (routed onEvent <$> out) ≡ₚ concat (routed onEvent <$> events).
Proof.
  intros H. apply CliFacts.concat_perm, fmap_Permutation, H.
Qed.

(** On events the router returns on, the consumer makes the calls of
    each, and ends as the stream does, a failure recovered. *)
Lemma consumer_clean onEvent (out : list SourceEvent) (ending : Exit unit) :
  Forall (fun e => throws e = false) out ->
  consumer onEvent out ending
  = (concat (routed onEvent <$> out),
     match ending with Die => Die | _ => Success tt end).
Proof.
  intros H. unfold consumer. rewrite WireFacts.runForEach_clean by exact H.
  destruct ending as [[]| |]; reflexivity.
Qed.

(** X22. For sources whose methods return when they are called,
    whatever their probes answer and however the merge interleaves
    their streams: when the router returns on every event delivered,
    the consumer makes the calls of each event delivered, once and
    together, and none for an event of a source that is not available;
    what is delivered is a beginning of the stream of each available
    source, in its order.  The consumer dies when the merged stream
    dies, and ends well otherwise, also when the stream fails.  When
    the stream of every available source ends well, the merged stream
    ends well and the consumer has made the calls of every event of
    every available source. *)
Theorem consumer_routes_every_available_event (sources : list (EventSource SourceEvent))
    (onEvent : bool) :
  Forall answers sources ->
  let healthy := List.filter is_available sources in
  exists st,
    stream sources = Returned (Success st)
    /\ forall out ending,
         yields st out ending ->
         Forall (fun e => throws e = false) out ->
         consumer onEvent out ending
         = (concat (routed onEvent <$> out),
            match ending with Die => Die | _ => Success tt end)
         /\ (exists delivered,
               Forall2 (fun d s => d `prefix_of` events (run_of s)) delivered healthy
               /\ concat (routed onEvent <$> out)
                  ≡ₚ concat (routed onEvent <$> concat delivered)
               /\ Forall (fun d => sublist d out) delivered)
         /\ (Forall (fun s => ends_well (run_of s)) healthy ->
             ending = Success tt
             /\ concat (routed onEvent <$> out)
                ≡ₚ concat (routed onEvent
                             <$> concat ((fun s => events (run_of s)) <$> healthy))
             /\ forall source, source ∈ sources -> is_available source = true ->
                  sublist (events (run_of source)) out).
Proof.
  intros Hans. cbv zeta. rewrite (MergedFacts.stream_answers sources Hans).
  eexists. split; [reflexivity|].
  intros out ending Hy Hclean. apply MergedFacts.yields_merges in Hy.
  split; [apply consumer_clean, Hclean|]. split.
  - destruct (MergedFacts.merges_delivered _ _ _ Hy) as (delivered & Hp & Hi & _).
    exists delivered. split; [|split].
    + exact (proj1 (Forall2_fmap_r run_of
                      (fun d (r : Run SourceEvent) => d `prefix_of` events r)
                      delivered _) Hp).
    + apply routed_perm, MergedFacts.interleaves_permutation, Hi.
    + apply Forall_forall. intros d Hd.
      apply (MergedFacts.interleaves_sublist _ _ Hi d Hd).
  - intros Hwell.
    destruct (MergedFacts.merges_end_well _ _ _ Hy) as [-> Hi].
    { apply Forall_fmap. exact Hwell. }
    rewrite <- list_fmap_compose in Hi.
    split; [reflexivity|]. split.
    + apply routed_perm, MergedFacts.interleaves_permutation, Hi.
    + intros source Hin Hav. apply (MergedFacts.interleaves_sublist _ _ Hi).
      apply list_elem_of_fmap. exists source. split; [reflexivity|].
      apply list_elem_of_In, List.filter_In. split; [apply list_elem_of_In, Hin | exact Hav].
Qed.

End PipelineFacts.

(** A healthy source beside one whose stream fails after an event: in
    the run in which that failure comes first, the consumer has logged
    the one event delivered, none of the healthy source, and ends
    well. *)
Lemma consumer_routes_every_available_event_witness :
  Forall Merged.answers Sample.sources_with_failing_stream
  /\ Wire.consumer true [Sample.source_event "git" "x"] Merged.Failure
     = ([Router.OnEvent "git" "x" (Router.JObject [("raw", Router.JNull)])],
        Merged.Success tt).
Proof.
  assert (Forall Merged.answers Sample.sources_with_failing_stream) as Hans.
  { repeat constructor; eexists; reflexivity. }
  split; [exact Hans|].
  destruct (PipelineFacts.consumer_routes_every_available_event
              Sample.sources_with_failing_stream true Hans) as (st & Hst & H).
  vm_compute in Hst. injection Hst as <-.
  destruct (H [Sample.source_event "git" "x"] Merged.Failure) as (Hc & _).
  - apply (Merged.merges_emit [_] _ [] Merged.Failure []).
    apply (Merged.merges_halt [_]
             {| Merged.events := []; Merged.ending := Merged.Failure |} []);
      [reflexivity | discriminate].
  - repeat constructor.
  - exact Hc.
Defined.

(* ===================================================================== *)
(** * 40. A bounded pool of tasks                                         *)
(* ===================================================================== *)

Module PoolFacts.
Import Pool.
Section Facts.
Context {T : Type}.
Implicit Types (st : State T) (tasks : list (Settled T)).

Lemma start_state n k :
  (k <= n)%nat ->
  Nat.iter k (workerLoop n) {| index := 0; results := (∅ : gmap nat T); awaiting := [] |}
  = {| index := k; results := ∅; awaiting := seq 0 k |}.
Proof.
  induction k as [|k IH]; intros Hk; [reflexivity|].
  rewrite Nat.iter_succ, IH by lia. unfold workerLoop. cbn [index awaiting results].
  destruct (Nat.ltb_spec k n); [|lia]. rewrite seq_S. reflexivity.
Qed.

Lemma workers_le limit n : (workers limit n <= n)%nat.
Proof. unfold workers. lia. Qed.

Lemma start_steady tasks limit : steady tasks limit (start limit (length tasks)).
Proof.
  unfold start. rewrite start_state by apply workers_le.
  pose proof (workers_le limit (length tasks)) as Hle.
  unfold steady. cbn [index awaiting results].
  split; [apply NoDup_seq|]. split; [intros i Hi; apply elem_of_seq in Hi; lia|].
  split; [exact Hle|]. split; [rewrite length_seq; lia|]. split.
  - intros i. rewrite lookup_empty.
    destruct (bool_decide_reflect ((i < workers limit (length tasks))%nat
                                   /\ i ∉ seq 0 (workers limit (length tasks))))
      as [[Hlt Hnin]|_]; [|reflexivity].
    exfalso. apply Hnin, elem_of_seq. lia.
  - split; [|intros H; exact H].
    intros Hpos _ E. apply (f_equal length) in E. rewrite length_seq in E. cbn in E. lia.
Qed.

Lemma elem_of_remove (i j : nat) (l : list nat) :
  j ∈ List.filter (fun j => negb (j =? i)%nat) l <-> j ∈ l /\ j <> i.
Proof.
  rewrite !list_elem_of_In, List.filter_In, negb_true_iff, Nat.eqb_neq. tauto.
Qed.

Lemma NoDup_remove (i : nat) (l : list nat) :
  NoDup l -> NoDup (List.filter (fun j => negb (j =? i)%nat) l).
Proof.
  induction 1 as [|x l Hx _ IH]; cbn [List.filter]; [constructor|].
  destruct (negb (x =? i)%nat); [|exact IH].
  constructor; [|exact IH]. rewrite elem_of_remove. tauto.
Qed.

Lemma length_remove (i : nat) (l : list nat) :
  NoDup l -> i ∈ l ->
  S (length (List.filter (fun j => negb (j =? i)%nat) l)) = length l.
Proof.
  induction 1 as [|x l Hx Hn IH]; intros Hi; [apply elem_of_nil in Hi; contradiction|].
  cbn [List.filter]. destruct (Nat.eqb_spec x i) as [->|Hne]; cbn [negb length].
  - f_equal. clear IH Hi. induction l as [|y l IHl]; [reflexivity|].
    cbn [List.filter]. apply NoDup_cons in Hn as [_ Hn].
    destruct (Nat.eqb_spec y i) as [->|_]; cbn [negb length].
    + exfalso. apply Hx. left.
    + f_equal. apply IHl; [|exact Hn]. intros H. apply Hx. right. exact H.
  - f_equal. apply IH. apply elem_of_cons in Hi as [E|Hi]; [congruence | exact Hi].
Qed.

Lemma settle_steady tasks limit st i :
  steady tasks limit st -> steady tasks limit (settle tasks st i).
Proof.
  intros (Hn & Hlt & Hle & Hw & Hr & Hlive & Hnone). unfold settle.
  destruct (bool_decide_reflect (i ∈ awaiting st)) as [Hi|_];
    [|repeat split; assumption].
  pose proof (Hlt i Hi) as Hii.
  pose proof (length_remove i _ Hn Hi) as Hlen.
  set (rest := List.filter (fun j => negb (j =? i)%nat) (awaiting st)) in *.
  set (res := match fulfilled tasks i with
              | Some value => <[i := value]> (results st)
              | None => results st
              end).
  assert (forall j, res !! j
                    = if bool_decide ((j < index st)%nat /\ j ∉ rest)
                      then fulfilled tasks j else None) as Hres.
  { intros j. subst res.
    destruct (Nat.eq_dec j i) as [->|Hji].
    - rewrite bool_decide_eq_true_2.
      + destruct (fulfilled tasks i) as [v|] eqn:Ef.
        * apply lookup_insert_eq.
        * rewrite Hr, bool_decide_eq_false_2; [reflexivity | tauto].
      + split; [exact Hii|]. subst rest. rewrite elem_of_remove. tauto.
    - assert (res_j : (match fulfilled tasks i with
                       | Some value => <[i := value]> (results st)
                       | None => results st
                       end) !! j = results st !! j).
      { destruct (fulfilled tasks i); [apply lookup_insert_ne; congruence | reflexivity]. }
      rewrite res_j, Hr.
      apply (f_equal (fun b : bool => if b then fulfilled tasks j else None)).
      apply bool_decide_ext. subst rest. rewrite elem_of_remove. tauto. }
  unfold workerLoop. cbn [index awaiting results].
  destruct (Nat.ltb_spec (index st) (length tasks)) as [Hmore|Hdone];
    unfold steady; cbn [index awaiting results].
  - split.
    { apply NoDup_app. split; [apply NoDup_remove, Hn|]. split; [|apply NoDup_singleton].
      intros j Hj Hj'. apply list_elem_of_singleton in Hj' as ->.
      subst rest. apply elem_of_remove in Hj as [Hj _]. apply Hlt in Hj. lia. }
    split.
    { intros j Hj. apply elem_of_app in Hj as [Hj|Hj].
      - subst rest. apply elem_of_remove in Hj as [Hj _]. apply Hlt in Hj. lia.
      - apply list_elem_of_singleton in Hj as ->. lia. }
    split; [lia|]. split; [rewrite length_app; cbn [length]; lia|]. split.
    { intros j. rewrite Hres.
      destruct (Nat.eq_dec j (index st)) as [->|Hne].
      - rewrite !bool_decide_eq_false_2; [reflexivity | | lia].
        intros [_ H]. apply H, elem_of_app. right. left.
      - apply (f_equal (fun b : bool => if b then fulfilled tasks j else None)).
        apply bool_decide_ext. rewrite elem_of_app, list_elem_of_singleton. split.
        + intros [H1 H2]. split; [lia | tauto].
        + intros [H1 H2]. split; [lia | tauto]. }
    split.
    { intros _ _ E. apply app_eq_nil in E as [_ E]. discriminate E. }
    intros H0. lia.
  - split; [apply NoDup_remove, Hn|]. split.
    { intros j Hj. subst rest. apply elem_of_remove in Hj as [Hj _]. apply Hlt, Hj. }
    split; [exact Hle|]. split; [lia|]. split; [exact Hres|].
    split; [intros _ H; lia | exact Hnone].
Qed.

Lemma run_steady tasks limit schedule : steady tasks limit (run tasks limit schedule).
Proof.
  unfold run. generalize (start_steady tasks limit).
  generalize (start (T := T) limit (length tasks)).
  induction schedule as [|i schedule IH]; intros st H; [exact H|].
  cbn [fold_left]. apply IH, settle_steady, H.
Qed.

(** X23. However the tasks of the pool settle one after another: never
    more tasks are in flight than the limit allows (and never more than
    there are tasks), no task is in flight twice, and a result is only
    ever stored under the index of the task that was fulfilled with it.
    With a limit of one or more, once no task is in flight every task
    has been started, and the results hold the value of every fulfilled
    task and a hole for every rejected one.  With a limit of zero or
    less no task is ever started and nothing is stored. *)
Theorem pool_keeps_limit_and_places (tasks : list (Settled T)) (limit : Z)
    (schedule : list nat) :
  let st := run tasks limit schedule in
  (length (awaiting st) <= workers limit (length tasks))%nat
  /\ (Z.of_nat (length (awaiting st)) <= Z.max 0 limit)
  /\ NoDup (awaiting st)
  /\ (forall i, i ∈ awaiting st -> (i < index st <= length tasks)%nat)
  /\ (forall i value, results st !! i = Some value -> tasks !! i = Some (Fulfilled value))
  /\ (0 < limit ->
      awaiting st = [] ->
      index st = length tasks /\ forall i, results st !! i = fulfilled tasks i)
  /\ (limit <= 0 -> st = {| index := 0; results := ∅; awaiting := [] |}).
Proof.
  intros st. destruct (run_steady tasks limit schedule)
    as (Hn & Hlt & Hle & Hw & Hr & Hlive & Hnone). fold st in Hn, Hlt, Hle, Hw, Hr, Hlive, Hnone.
  split; [exact Hw|]. split; [unfold workers in Hw; lia|]. split; [exact Hn|].
  split; [intros i Hi; split; [apply Hlt, Hi | exact Hle]|].
  split.
  { intros i v Hi. rewrite Hr in Hi.
    destruct (bool_decide _); [|discriminate Hi].
    unfold fulfilled in Hi. destruct (tasks !! i) as [[w|]|]; try discriminate Hi.
    congruence. }
  split.
  - intros Hpos Hidle.
    assert (index st = length tasks) as Hall.
    { destruct (Nat.eq_dec (length tasks) 0%nat) as [E0|Hn0]; [lia|].
      destruct (Nat.lt_ge_cases (index st) (length tasks)) as [Hmore|]; [|lia].
      exfalso. apply Hlive; [unfold workers; lia | exact Hmore | exact Hidle]. }
    split; [exact Hall|]. intros i. rewrite Hr, Hidle.
    destruct (bool_decide_reflect ((i < index st)%nat /\ i ∉ @nil nat)) as [_|Hno];
      [reflexivity|].
    unfold fulfilled. rewrite lookup_ge_None_2; [reflexivity|].
    rewrite <- Hall. destruct (Nat.lt_ge_cases i (index st)) as [Hi|Hi]; [|exact Hi].
    exfalso. apply Hno. split; [exact Hi | apply not_elem_of_nil].
  - intros Hlimit.
    assert (workers limit (length tasks) = 0%nat) as Hw0 by (unfold workers; lia).
    pose proof (Hnone Hw0) as Hi0. rewrite Hw0 in Hw.
    assert (awaiting st = []) as Ha by (destruct (awaiting st); [reflexivity | cbn in Hw; lia]).
    destruct st as [ix res aw]. cbn [index awaiting results] in *. subst ix aw. f_equal.
    apply map_eq. intros i. rewrite Hr, lookup_empty.
    rewrite bool_decide_eq_false_2; [reflexivity | lia].
Qed.

End Facts.
End PoolFacts.
